(** * Polly: building the polyhedral description of a static control region

    A shallow embedding of [polly/lib/Analysis/ScopInfo.cpp] (the affine
    translator [SCEVAffinator], [MemoryAccess], [ScopStmt], [Scop]) and of
    [polly/lib/Analysis/TempScopInfo.cpp] (the extraction of access,
    loop-bound and branch-condition facts).

    The integer set library (isl) and the LLVM analyses are libraries the
    sources call; they are modelled by what the calls rely on: an isl object
    is a space (parameter identifiers, tuple sizes and names) together with a
    constraint formula that can be evaluated at a point, a NULL object is
    [None], and an [assert], an [llvm_unreachable] or an isl error under
    [ISL_ON_ERROR_ABORT] is the outcome [Abort].

    The values of constants keep their bit width ([APInt]).  The counters of
    the lexical positions ([Scatter]) are [unsigned] in the sources: here
    they are integers that wrap around at [2^32] and are read in two's
    complement where they are passed for an [int].  Sizes, depths and
    positions are natural numbers, with the wrap-around written out where the
    sources compute them as [unsigned]. *)

From Stdlib Require Import ZArith String Ascii Bool Lia Arith PeanoNat List.
Import ListNotations.

Set Warnings "-register-all".

Set Implicit Arguments.

(** ** Outcomes: a call either aborts the process or returns *)

Inductive outcome (A : Type) : Type :=
| Abort : outcome A
| Ret (a : A) : outcome A.
Arguments Abort {A}.
Arguments Ret {A} a.

Definition bindO {A B} (m : outcome A) (f : A -> outcome B) : outcome B :=
  match m with
  | Abort => Abort
  | Ret a => f a
  end.

Notation "x <- m ;; k" := (bindO m (fun x => k))
  (at level 61, m at next level, right associativity).
Notation "m ;;; k" := (bindO m (fun _ => k))
  (at level 61, right associativity).

(** [assert(c)] *)
Definition assertO (c : bool) : outcome unit := if c then Ret tt else Abort.

Lemma bindO_Ret_inv {A B} (m : outcome A) (f : A -> outcome B) b :
  bindO m f = Ret b -> exists a, m = Ret a /\ f a = Ret b.
Proof. destruct m; simpl; intros H; [discriminate | eauto]. Qed.

(** ** LLVM entities

    Objects that the sources compare by address are records carrying an
    identity; equality of the record stands for equality of the address. *)

Record Value : Type := mkValue {
  val_id : nat;            (* the object's identity *)
  val_name : string;       (* Value::getName() *)
  val_operand : string     (* the text WriteAsOperand prints, type omitted *)
}.

Record BasicBlock : Type := mkBB {
  bb_id : nat;
  bb_operand : string
}.

Record Loop : Type := mkLoop {
  loop_id : nat;
  loop_depth : nat;                       (* Loop::getLoopDepth() *)
  loop_civ : option Value                 (* getCanonicalInductionVariable() *)
}.

Definition Value_eq_dec (a b : Value) : {a = b} + {a <> b}.
Proof. decide equality; first [apply string_dec | apply Nat.eq_dec]. Defined.

Definition BasicBlock_eq_dec (a b : BasicBlock) : {a = b} + {a <> b}.
Proof. decide equality; first [apply string_dec | apply Nat.eq_dec]. Defined.

Definition Loop_eq_dec (a b : Loop) : {a = b} + {a <> b}.
Proof.
  decide equality; try apply Nat.eq_dec.
  decide equality. apply Value_eq_dec.
Defined.

Definition Value_eqb (a b : Value) : bool := if Value_eq_dec a b then true else false.
Definition BasicBlock_eqb (a b : BasicBlock) : bool :=
  if BasicBlock_eq_dec a b then true else false.
Definition Loop_eqb (a b : Loop) : bool := if Loop_eq_dec a b then true else false.

Lemma Value_eqb_eq a b : Value_eqb a b = true <-> a = b.
Proof. unfold Value_eqb. destruct (Value_eq_dec a b); split; congruence. Qed.

Lemma BasicBlock_eqb_eq a b : BasicBlock_eqb a b = true <-> a = b.
Proof. unfold BasicBlock_eqb. destruct (BasicBlock_eq_dec a b); split; congruence. Qed.

Lemma BasicBlock_eqb_refl a : BasicBlock_eqb a a = true.
Proof. apply BasicBlock_eqb_eq; reflexivity. Qed.

Lemma Loop_eqb_eq a b : Loop_eqb a b = true <-> a = b.
Proof. unfold Loop_eqb. destruct (Loop_eq_dec a b); split; congruence. Qed.

(** An [APInt]: a bit width and the bits read as an unsigned number. *)
Record APInt : Type := mkAPInt {
  BitWidth : positive;
  VAL : Z
}.

Definition APInt_eq_dec (a b : APInt) : {a = b} + {a <> b}.
Proof. decide equality; first [apply Z.eq_dec | apply Pos.eq_dec]. Defined.

Definition APInt_eqb (a b : APInt) : bool := if APInt_eq_dec a b then true else false.

Local Open Scope Z_scope.

(** The value of the bits read as a two's complement number. *)
Definition getSExtValue (a : APInt) : Z :=
  let m := 2 ^ Z.pos (BitWidth a) in
  let u := VAL a mod m in
  if u <? m / 2 then u else u - m.

(** [ConstantInt::isOne()] *)
Definition isOne (a : APInt) : bool := VAL a mod 2 ^ Z.pos (BitWidth a) =? 1.

(** ** Scalar evolution expressions

    One constructor per [SCEVTypes] kind the visitor dispatches on.
    ScalarEvolution keeps one object per distinct expression, so equality of
    addresses is structural equality. *)

Inductive SCEV : Type :=
| scConstant (V : APInt)
| scTruncate (Op : SCEV)
| scZeroExtend (Op : SCEV)
| scSignExtend (Op : SCEV)
| scAddExpr (Ops : list SCEV)
| scMulExpr (Ops : list SCEV)
| scUDivExpr (LHS RHS : SCEV)
| scAddRecExpr (Ops : list SCEV) (L : Loop)
| scSMaxExpr (Ops : list SCEV)
| scUMaxExpr (Ops : list SCEV)
| scUnknown (V : Value)
| scCouldNotCompute.

Section SCEV_induction.
Variable P : SCEV -> Prop.
Hypothesis HConstant : forall V, P (scConstant V).
Hypothesis HTruncate : forall Op, P Op -> P (scTruncate Op).
Hypothesis HZeroExtend : forall Op, P Op -> P (scZeroExtend Op).
Hypothesis HSignExtend : forall Op, P Op -> P (scSignExtend Op).
Hypothesis HAdd : forall Ops, Forall P Ops -> P (scAddExpr Ops).
Hypothesis HMul : forall Ops, Forall P Ops -> P (scMulExpr Ops).
Hypothesis HUDiv : forall L R, P L -> P R -> P (scUDivExpr L R).
Hypothesis HAddRec : forall Ops L, Forall P Ops -> P (scAddRecExpr Ops L).
Hypothesis HSMax : forall Ops, Forall P Ops -> P (scSMaxExpr Ops).
Hypothesis HUMax : forall Ops, Forall P Ops -> P (scUMaxExpr Ops).
Hypothesis HUnknown : forall V, P (scUnknown V).
Hypothesis HCNC : P scCouldNotCompute.

Fixpoint SCEV_nested_ind (s : SCEV) : P s :=
  let fix all (l : list SCEV) : Forall P l :=
    match l with
    | [] => Forall_nil P
    | x :: l' => Forall_cons x (SCEV_nested_ind x) (all l')
    end in
  match s with
  | scConstant V => HConstant V
  | scTruncate Op => HTruncate (SCEV_nested_ind Op)
  | scZeroExtend Op => HZeroExtend (SCEV_nested_ind Op)
  | scSignExtend Op => HSignExtend (SCEV_nested_ind Op)
  | scAddExpr Ops => HAdd (all Ops)
  | scMulExpr Ops => HMul (all Ops)
  | scUDivExpr L R => HUDiv (SCEV_nested_ind L) (SCEV_nested_ind R)
  | scAddRecExpr Ops L => HAddRec L (all Ops)
  | scSMaxExpr Ops => HSMax (all Ops)
  | scUMaxExpr Ops => HUMax (all Ops)
  | scUnknown V => HUnknown V
  | scCouldNotCompute => HCNC
  end.
End SCEV_induction.

Fixpoint SCEV_eqb (a b : SCEV) {struct a} : bool :=
  let fix list_eqb (l1 l2 : list SCEV) {struct l1} : bool :=
    match l1, l2 with
    | [], [] => true
    | x :: l1', y :: l2' => SCEV_eqb x y && list_eqb l1' l2'
    | _, _ => false
    end in
  match a, b with
  | scConstant u, scConstant v => APInt_eqb u v
  | scTruncate x, scTruncate y => SCEV_eqb x y
  | scZeroExtend x, scZeroExtend y => SCEV_eqb x y
  | scSignExtend x, scSignExtend y => SCEV_eqb x y
  | scAddExpr l1, scAddExpr l2 => list_eqb l1 l2
  | scMulExpr l1, scMulExpr l2 => list_eqb l1 l2
  | scUDivExpr x1 x2, scUDivExpr y1 y2 => SCEV_eqb x1 y1 && SCEV_eqb x2 y2
  | scAddRecExpr l1 L1, scAddRecExpr l2 L2 => list_eqb l1 l2 && Loop_eqb L1 L2
  | scSMaxExpr l1, scSMaxExpr l2 => list_eqb l1 l2
  | scUMaxExpr l1, scUMaxExpr l2 => list_eqb l1 l2
  | scUnknown u, scUnknown v => Value_eqb u v
  | scCouldNotCompute, scCouldNotCompute => true
  | _, _ => false
  end.

Fixpoint SCEV_list_eqb (l1 l2 : list SCEV) : bool :=
  match l1, l2 with
  | [], [] => true
  | x :: l1', y :: l2' => SCEV_eqb x y && SCEV_list_eqb l1' l2'
  | _, _ => false
  end.

Lemma SCEV_list_eqb_eq l1 :
  Forall (fun a => forall b, SCEV_eqb a b = true <-> a = b) l1 ->
  forall l2, SCEV_list_eqb l1 l2 = true <-> l1 = l2.
Proof.
  induction 1 as [|x l1 Hx _ IH]; intros [|y l2]; simpl;
    try (split; [discriminate | congruence]); try tauto.
  rewrite andb_true_iff, Hx, IH. split; [intros [-> ->] | intros [= -> ->]]; auto.
Qed.

Lemma SCEV_eqb_eq a : forall b, SCEV_eqb a b = true <-> a = b.
Proof.
  induction a using SCEV_nested_ind; intros b; destruct b; simpl;
    try (split; [discriminate | congruence]);
    try (fold (SCEV_list_eqb Ops Ops0));
    try (rewrite ?andb_true_iff, ?SCEV_list_eqb_eq, ?Loop_eqb_eq by assumption).
  - unfold APInt_eqb. destruct (APInt_eq_dec V V0); split; congruence.
  - rewrite IHa. split; congruence.
  - rewrite IHa. split; congruence.
  - rewrite IHa. split; congruence.
  - split; congruence.
  - split; congruence.
  - rewrite IHa1, IHa2. split; [intros [-> ->] | intros [= -> ->]]; auto.
  - split; [intros [-> ->] | intros [= -> ->]]; auto.
  - split; congruence.
  - split; congruence.
  - rewrite Value_eqb_eq. split; congruence.
  - tauto.
Qed.

Lemma SCEV_eqb_refl a : SCEV_eqb a a = true.
Proof. apply SCEV_eqb_eq; reflexivity. Qed.

Lemma SCEV_eqb_neq a b : SCEV_eqb a b = false <-> a <> b.
Proof.
  split.
  - intros H E. apply SCEV_eqb_eq in E. congruence.
  - intros H. destruct (SCEV_eqb a b) eqn:E; [apply SCEV_eqb_eq in E; contradiction | reflexivity].
Qed.

(** ** The integer set library

    What the sources rely on from isl.  A parameter is an identifier (a name
    and a user pointer; two identifiers are the same object exactly when both
    agree).  An affine expression is a quotient of an integer combination of
    parameters and input coordinates by a positive denominator; coefficients
    of parameters are keyed by the identifier, which is what isl's alignment
    of parameters by identifier preserves, so aligning changes the list of
    parameters of the space and nothing else.  Sets and maps carry their
    space and a formula; [set_mem] and [map_mem] decide membership of a point
    under a valuation of the parameters. *)

Module Isl.

Inductive user_ptr : Type :=
| UserSCEV (s : SCEV)
| UserValue (v : Value).

Record id : Type := mkId { id_name : string; id_user : user_ptr }.

Definition user_ptr_eqb (a b : user_ptr) : bool :=
  match a, b with
  | UserSCEV s, UserSCEV t => SCEV_eqb s t
  | UserValue u, UserValue v => Value_eqb u v
  | _, _ => false
  end.

Definition id_eqb (a b : id) : bool :=
  String.eqb (id_name a) (id_name b) && user_ptr_eqb (id_user a) (id_user b).



Definition id_mem (i : id) (l : list id) : bool := existsb (id_eqb i) l.


(** [isl_dim_type], as far as the sources name it. *)
Inductive dim_type : Type := isl_dim_param | isl_dim_in | isl_dim_out.

(** A space: the parameters, and the sizes and names of the two tuples
    (a set space has no input tuple; its tuple is the output one).  A
    parameter position of a freshly allocated space has no identifier. *)
Record space : Type := mkSpace {
  sp_params : list (option id);
  sp_nin : nat;
  sp_nout : nat;
  sp_in_name : option string;
  sp_out_name : option string
}.

Definition space_alloc (nparam n_in n_out : nat) : space :=
  mkSpace (repeat None nparam) n_in n_out None None.
Definition space_set_alloc (nparam dim : nat) : space := space_alloc nparam 0 dim.
Definition space_params_alloc (nparam : nat) : space := space_alloc nparam 0 0.

Fixpoint list_set {A} (l : list A) (pos : nat) (x : A) : option (list A) :=
  match l, pos with
  | [], _ => None
  | _ :: l', O => Some (x :: l')
  | y :: l', S p => option_map (cons y) (list_set l' p x)
  end.

(** [isl_space_set_dim_id] on a parameter; a position out of range is an error. *)
Definition space_set_dim_id (sp : space) (pos : nat) (i : id) : outcome space :=
  match list_set (sp_params sp) pos (Some i) with
  | Some ps => Ret (mkSpace ps (sp_nin sp) (sp_nout sp) (sp_in_name sp) (sp_out_name sp))
  | None => Abort
  end.

Definition space_set_tuple_name (sp : space) (t : dim_type) (s : string) : space :=
  match t with
  | isl_dim_in => mkSpace (sp_params sp) (sp_nin sp) (sp_nout sp) (Some s) (sp_out_name sp)
  | _ => mkSpace (sp_params sp) (sp_nin sp) (sp_nout sp) (sp_in_name sp) (Some s)
  end.

(** The identifiers of the named parameters of a space, in order. *)
Fixpoint named (l : list (option id)) : list id :=
  match l with
  | [] => []
  | Some i :: l' => i :: named l'
  | None :: l' => named l'
  end.

Definition has_named_params (l : list (option id)) : bool :=
  forallb (fun o => match o with Some _ => true | None => false end) l.

(** The parameters of an object aligned to a model: the model's, then the
    object's own that the model does not have. *)
Definition align (own model : list id) : list id :=
  model ++ filter (fun i => negb (id_mem i model)) own.

(** Binary operations align the first operand to the second, then the
    second to the first. *)
Definition merge_params (p1 p2 : list id) : list id := align p1 p2.

(** *** Affine expressions *)

Record aff : Type := mkAff {
  aff_den : Z;
  aff_cst : Z;
  aff_par : list (id * Z);
  aff_in : list Z
}.

Definition valuation : Type := id -> Z.
Definition point : Type := list Z.

Fixpoint dot (cs xs : list Z) : Z :=
  match cs, xs with
  | c :: cs', x :: xs' => c * x + dot cs' xs'
  | _, _ => 0
  end.

Fixpoint par_sum (rho : valuation) (l : list (id * Z)) : Z :=
  match l with
  | [] => 0
  | (i, c) :: l' => c * rho i + par_sum rho l'
  end.

(** The numerator of the expression at a point; its value is
    [aff_num / aff_den]. *)
Definition aff_num (rho : valuation) (x : point) (a : aff) : Z :=
  aff_cst a + par_sum rho (aff_par a) + dot (aff_in a) x.

Definition aff_zero_on_domain (n : nat) : aff := mkAff 1 0 [] (repeat 0 n).

Fixpoint par_add_coef (i : id) (c : Z) (l : list (id * Z)) : list (id * Z) :=
  match l with
  | [] => [(i, c)]
  | (j, d) :: l' =>
      if id_eqb i j then (j, d + c) :: l' else (j, d) :: par_add_coef i c l'
  end.

Fixpoint par_set_coef (i : id) (c : Z) (l : list (id * Z)) : list (id * Z) :=
  match l with
  | [] => [(i, c)]
  | (j, d) :: l' =>
      if id_eqb i j then (j, c) :: l' else (j, d) :: par_set_coef i c l'
  end.

Definition aff_add_constant (a : aff) (v : Z) : aff :=
  mkAff (aff_den a) (aff_cst a + v * aff_den a) (aff_par a) (aff_in a).

(** [isl_aff_add_coefficient_si] and [isl_aff_set_coefficient_si]: the
    position is looked up in the space the expression lives in; a position
    out of range is an error.  The expressions the sources pass have
    denominator 1. *)
Definition aff_add_coefficient_si (sp : space) (a : aff) (t : dim_type)
    (pos : nat) (v : Z) : outcome aff :=
  match t with
  | isl_dim_param =>
      match nth_error (sp_params sp) pos with
      | Some (Some i) =>
          Ret (mkAff (aff_den a) (aff_cst a) (par_add_coef i (v * aff_den a) (aff_par a)) (aff_in a))
      | _ => Abort
      end
  | _ =>
      match nth_error (aff_in a) pos with
      | Some c =>
          match list_set (aff_in a) pos (c + v * aff_den a) with
          | Some l => Ret (mkAff (aff_den a) (aff_cst a) (aff_par a) l)
          | None => Abort
          end
      | None => Abort
      end
  end.

Definition aff_set_coefficient_si (sp : space) (a : aff) (t : dim_type)
    (pos : nat) (v : Z) : outcome aff :=
  match t with
  | isl_dim_param =>
      match nth_error (sp_params sp) pos with
      | Some (Some i) =>
          Ret (mkAff (aff_den a) (aff_cst a) (par_set_coef i (v * aff_den a) (aff_par a)) (aff_in a))
      | _ => Abort
      end
  | _ =>
      match list_set (aff_in a) pos (v * aff_den a) with
      | Some l => Ret (mkAff (aff_den a) (aff_cst a) (aff_par a) l)
      | None => Abort
      end
  end.

(** [isl_aff_is_cst]: every coefficient of a parameter or a coordinate is 0. *)
Definition aff_is_cst (a : aff) : bool :=
  forallb (fun ic => snd ic =? 0) (aff_par a) && forallb (fun c => c =? 0) (aff_in a).

Definition par_scale (k : Z) (l : list (id * Z)) : list (id * Z) :=
  map (fun ic => (fst ic, k * snd ic)) l.

Fixpoint par_merge (l1 l2 : list (id * Z)) : list (id * Z) :=
  match l2 with
  | [] => l1
  | (i, c) :: l2' => par_merge (par_add_coef i c l1) l2'
  end.

Fixpoint vec_add (l1 l2 : list Z) : list Z :=
  match l1, l2 with
  | a :: l1', b :: l2' => (a + b) :: vec_add l1' l2'
  | [], l => l
  | l, [] => l
  end.

Definition aff_scale (k : Z) (a : aff) : aff :=
  mkAff (aff_den a) (k * aff_cst a) (par_scale k (aff_par a)) (map (Z.mul k) (aff_in a)).

Definition aff_add (a b : aff) : aff :=
  let a' := aff_scale (aff_den b) a in
  let b' := aff_scale (aff_den a) b in
  mkAff (aff_den a * aff_den b) (aff_cst a' + aff_cst b')
        (par_merge (aff_par a') (aff_par b')) (vec_add (aff_in a') (aff_in b')).

(** [isl_aff_mul]: one of the two has to be constant. *)
Definition aff_mul (a b : aff) : outcome aff :=
  if aff_is_cst b then
    Ret (mkAff (aff_den a * aff_den b) (aff_cst b * aff_cst a)
               (par_scale (aff_cst b) (aff_par a)) (map (Z.mul (aff_cst b)) (aff_in a)))
  else if aff_is_cst a then
    Ret (mkAff (aff_den b * aff_den a) (aff_cst a * aff_cst b)
               (par_scale (aff_cst a) (aff_par b)) (map (Z.mul (aff_cst a)) (aff_in b)))
  else Abort.

(** [isl_aff_scale_down] by an integer: the denominator grows. *)
Definition aff_scale_down (a : aff) (v : Z) : aff :=
  mkAff (aff_den a * v) (aff_cst a) (aff_par a) (aff_in a).

(** *** Formulas of sets *)

Inductive cmp : Type := CEq | CNe | CLt | CLe | CGt | CGe.

Inductive bset : Type :=
| BUniv
| BEmpty
| BCmp (c : cmp) (l r : aff)
| BAnd (a b : bset)
| BOr (a b : bset)
| BNot (a : bset).

Definition cmp_holds (c : cmp) (u v : Z) : bool :=
  match c with
  | CEq => u =? v
  | CNe => negb (u =? v)
  | CLt => u <? v
  | CLe => u <=? v
  | CGt => v <? u
  | CGe => v <=? u
  end.

(** [l c r] at a point: the two quotients are compared after cross
    multiplication (denominators are positive). *)
Definition aff_cmp (rho : valuation) (x : point) (c : cmp) (l r : aff) : bool :=
  cmp_holds c (aff_num rho x l * aff_den r) (aff_num rho x r * aff_den l).

Fixpoint bset_mem (rho : valuation) (x : point) (f : bset) : bool :=
  match f with
  | BUniv => true
  | BEmpty => false
  | BCmp c l r => aff_cmp rho x c l r
  | BAnd a b => bset_mem rho x a && bset_mem rho x b
  | BOr a b => bset_mem rho x a || bset_mem rho x b
  | BNot a => negb (bset_mem rho x a)
  end.

Definition bset_union (l : list bset) : bset := fold_right BOr BEmpty l.

Lemma bset_union_mem rho x l :
  bset_mem rho x (bset_union l) = existsb (bset_mem rho x) l.
Proof. induction l; simpl; [reflexivity | rewrite IHl; reflexivity]. Qed.

(** *** Sets *)

Record set : Type := mkSet {
  set_params : list id;
  set_dim : nat;
  set_name : option string;
  set_body : bset
}.

Definition set_mem (rho : valuation) (x : point) (s : set) : bool :=
  bset_mem rho x (set_body s).

Definition set_universe (sp : space) : set :=
  mkSet (named (sp_params sp)) (sp_nout sp) (sp_out_name sp) BUniv.

Definition set_intersect (s1 s2 : set) : set :=
  mkSet (merge_params (set_params s1) (set_params s2)) (set_dim s1) (set_name s1)
        (BAnd (set_body s1) (set_body s2)).

Definition set_set_tuple_name (s : set) (n : string) : set :=
  mkSet (set_params s) (set_dim s) (Some n) (set_body s).

Definition set_align_params (s : set) (model : list id) : set :=
  mkSet (align (set_params s) model) (set_dim s) (set_name s) (set_body s).

Definition set_get_space (s : set) : space :=
  mkSpace (map Some (set_params s)) 0 (set_dim s) None (set_name s).

(** *** Piecewise affine expressions *)

Definition pieces : Type := list (bset * aff).

Record pw_aff : Type := mkPwAff {
  pa_params : list id;
  pa_nin : nat;
  pa_pieces : pieces
}.

(** [isl_pw_aff_alloc Domain Affine], [isl_pw_aff_from_aff] *)
Definition pw_aff_alloc (dom : set) (a : aff) : pw_aff :=
  mkPwAff (set_params dom) (set_dim dom) [(set_body dom, a)].

Definition pw_aff_from_aff (sp : space) (a : aff) : pw_aff :=
  mkPwAff (named (sp_params sp)) (sp_nout sp) [(BUniv, a)].

Definition pw_aff_is_cst (pa : pw_aff) : bool :=
  forallb (fun p => aff_is_cst (snd p)) (pa_pieces pa).

(** Pairs of pieces on their shared domain. *)
Definition on_shared {B} (f : bset -> aff -> aff -> B) (p1 p2 : pieces) : list B :=
  flat_map (fun da1 => map (fun da2 => f (BAnd (fst da1) (fst da2)) (snd da1) (snd da2)) p2) p1.

Definition pw_aff_add (pa1 pa2 : pw_aff) : pw_aff :=
  mkPwAff (merge_params (pa_params pa1) (pa_params pa2)) (pa_nin pa1)
          (on_shared (fun d a b => (d, aff_add a b)) (pa_pieces pa1) (pa_pieces pa2)).

Fixpoint sequence {A} (l : list (outcome A)) : outcome (list A) :=
  match l with
  | [] => Ret []
  | m :: l' => a <- m ;; r <- sequence l' ;; Ret (a :: r)
  end.

Definition pw_aff_mul (pa1 pa2 : pw_aff) : outcome pw_aff :=
  ps <- sequence (on_shared (fun d a b => p <- aff_mul a b ;; Ret (d, p))
                            (pa_pieces pa1) (pa_pieces pa2)) ;;
  Ret (mkPwAff (merge_params (pa_params pa1) (pa_params pa2)) (pa_nin pa1) ps).

Definition pieces_dom (p : pieces) : bset := bset_union (map fst p).

(** [isl_pw_aff_max]: on the shared domain the larger of the two, elsewhere
    the one that is defined. *)
Definition pw_aff_max (pa1 pa2 : pw_aff) : pw_aff :=
  let p1 := pa_pieces pa1 in
  let p2 := pa_pieces pa2 in
  mkPwAff (merge_params (pa_params pa1) (pa_params pa2)) (pa_nin pa1)
    (concat (on_shared (fun d a b => [(BAnd d (BCmp CGe a b), a); (BAnd d (BCmp CLt a b), b)]) p1 p2)
     ++ map (fun da => (BAnd (fst da) (BNot (pieces_dom p2)), snd da)) p1
     ++ map (fun da => (BAnd (fst da) (BNot (pieces_dom p1)), snd da)) p2).

Definition pw_aff_scale_down (pa : pw_aff) (v : Z) : outcome pw_aff :=
  if v =? 0 then Abort
  else Ret (mkPwAff (pa_params pa) (pa_nin pa)
                    (map (fun da => (fst da, aff_scale_down (snd da) v)) (pa_pieces pa))).

(** The sets [{x : pa1(x) c pa2(x)}], over the points where both are defined. *)
Definition pw_aff_cmp_set (c : cmp) (pa1 pa2 : pw_aff) : set :=
  mkSet (merge_params (pa_params pa1) (pa_params pa2)) (pa_nin pa1) None
        (bset_union (on_shared (fun d a b => BAnd d (BCmp c a b)) (pa_pieces pa1) (pa_pieces pa2))).

Definition pw_aff_nonneg_set (pa : pw_aff) : set :=
  mkSet (pa_params pa) (pa_nin pa) None
        (bset_union (map (fun da => BAnd (fst da) (BCmp CGe (snd da) (aff_zero_on_domain (pa_nin pa))))
                         (pa_pieces pa))).

(** *** Maps *)

Inductive bmap : Type :=
| MUniv
| MEquate (t1 : dim_type) (p1 : nat) (t2 : dim_type) (p2 : nat)
| MFix (t : dim_type) (p : nat) (v : Z)
| MGraph (p : pieces)
| MAnd (a b : bmap).

Record map : Type := mkMap {
  map_params : list id;
  map_nin : nat;
  map_nout : nat;
  map_in_name : option string;
  map_out_name : option string;
  map_body : bmap
}.

Definition map_dim (m : map) (t : dim_type) : nat :=
  match t with
  | isl_dim_param => length (map_params m)
  | isl_dim_in => map_nin m
  | isl_dim_out => map_nout m
  end.

(** The coordinate at a position of a tuple, [None] out of range. *)
Definition coord (ps : list id) (rho : valuation) (x y : point) (t : dim_type) (p : nat)
  : option Z :=
  match t with
  | isl_dim_param => option_map rho (nth_error ps p)
  | isl_dim_in => nth_error x p
  | isl_dim_out => nth_error y p
  end.

Fixpoint bmap_mem (ps : list id) (rho : valuation) (x y : point) (f : bmap) : bool :=
  match f with
  | MUniv => true
  | MEquate t1 p1 t2 p2 =>
      match coord ps rho x y t1 p1, coord ps rho x y t2 p2 with
      | Some u, Some v => u =? v
      | _, _ => false
      end
  | MFix t p v =>
      match coord ps rho x y t p with
      | Some u => u =? v
      | None => false
      end
  | MGraph pcs =>
      match y with
      | [y0] => existsb (fun da => bset_mem rho x (fst da)
                                     && (aff_den (snd da) * y0 =? aff_num rho x (snd da))) pcs
      | _ => false
      end
  | MAnd a b => bmap_mem ps rho x y a && bmap_mem ps rho x y b
  end.

(** Membership of the pair [(x, y)], of the sizes of the two tuples. *)
Definition map_mem (rho : valuation) (x y : point) (m : map) : bool :=
  (length x =? map_nin m)%nat && (length y =? map_nout m)%nat
  && bmap_mem (map_params m) rho x y (map_body m).

Definition map_universe (sp : space) : map :=
  mkMap (named (sp_params sp)) (sp_nin sp) (sp_nout sp) (sp_in_name sp) (sp_out_name sp) MUniv.

Definition map_constrain (m : map) (c : bmap) : map :=
  mkMap (map_params m) (map_nin m) (map_nout m) (map_in_name m) (map_out_name m)
        (MAnd (map_body m) c).

(** [isl_map_equate], [isl_map_fix_si]: a position out of range is an error. *)
Definition map_equate (m : map) (t1 : dim_type) (p1 : nat) (t2 : dim_type) (p2 : nat)
  : outcome map :=
  if (p1 <? map_dim m t1)%nat && (p2 <? map_dim m t2)%nat
  then Ret (map_constrain m (MEquate t1 p1 t2 p2))
  else Abort.

Definition map_fix_si (m : map) (t : dim_type) (p : nat) (v : Z) : outcome map :=
  if (p <? map_dim m t)%nat then Ret (map_constrain m (MFix t p v)) else Abort.

Definition map_from_pw_aff (pa : pw_aff) : map :=
  mkMap (pa_params pa) (pa_nin pa) 1 None None (MGraph (pa_pieces pa)).

Definition map_set_tuple_name (m : map) (t : dim_type) (s : string) : map :=
  match t with
  | isl_dim_in =>
      mkMap (map_params m) (map_nin m) (map_nout m) (Some s) (map_out_name m) (map_body m)
  | _ =>
      mkMap (map_params m) (map_nin m) (map_nout m) (map_in_name m) (Some s) (map_body m)
  end.

Definition map_align_params (m : map) (model : list id) : map :=
  mkMap (align (map_params m) model) (map_nin m) (map_nout m)
        (map_in_name m) (map_out_name m) (map_body m).

End Isl.

(** ** The isl interface as the sources call it

    A pointer to an isl object may be NULL; a NULL argument gives a NULL
    result. *)

Definition isl_pw_aff : Type := option Isl.pw_aff.
Definition isl_set : Type := option Isl.set.
Definition isl_map : Type := option Isl.map.

Definition lift2 {A B C} (f : A -> B -> C) (a : option A) (b : option B) : option C :=
  match a, b with
  | Some x, Some y => Some (f x y)
  | _, _ => None
  end.

Definition isl_pw_aff_add : isl_pw_aff -> isl_pw_aff -> isl_pw_aff := lift2 Isl.pw_aff_add.
Definition isl_pw_aff_max : isl_pw_aff -> isl_pw_aff -> isl_pw_aff := lift2 Isl.pw_aff_max.

Definition isl_pw_aff_mul (a b : isl_pw_aff) : outcome isl_pw_aff :=
  match a, b with
  | Some x, Some y => p <- Isl.pw_aff_mul x y ;; Ret (Some p)
  | _, _ => Ret None
  end.

(** [isl_pw_aff_is_cst] returns -1 on NULL. *)
Definition isl_pw_aff_is_cst (a : isl_pw_aff) : Z :=
  match a with
  | None => -1
  | Some x => if Isl.pw_aff_is_cst x then 1 else 0
  end.

(** C's [!] on an int. *)
Definition lnot (z : Z) : bool := z =? 0.

Definition isl_pw_aff_scale_down (a : isl_pw_aff) (v : Z) : outcome isl_pw_aff :=
  match a with
  | Some x => p <- Isl.pw_aff_scale_down x v ;; Ret (Some p)
  | None => Ret None
  end.

Definition isl_pw_aff_eq_set : isl_pw_aff -> isl_pw_aff -> isl_set := lift2 (Isl.pw_aff_cmp_set Isl.CEq).
Definition isl_pw_aff_ne_set : isl_pw_aff -> isl_pw_aff -> isl_set := lift2 (Isl.pw_aff_cmp_set Isl.CNe).
Definition isl_pw_aff_lt_set : isl_pw_aff -> isl_pw_aff -> isl_set := lift2 (Isl.pw_aff_cmp_set Isl.CLt).
Definition isl_pw_aff_le_set : isl_pw_aff -> isl_pw_aff -> isl_set := lift2 (Isl.pw_aff_cmp_set Isl.CLe).
Definition isl_pw_aff_gt_set : isl_pw_aff -> isl_pw_aff -> isl_set := lift2 (Isl.pw_aff_cmp_set Isl.CGt).
Definition isl_pw_aff_ge_set : isl_pw_aff -> isl_pw_aff -> isl_set := lift2 (Isl.pw_aff_cmp_set Isl.CGe).
Definition isl_pw_aff_nonneg_set : isl_pw_aff -> isl_set := option_map Isl.pw_aff_nonneg_set.

Definition isl_set_intersect : isl_set -> isl_set -> isl_set := lift2 Isl.set_intersect.

Definition isl_set_set_tuple_name (s : isl_set) (n : string) : isl_set :=
  option_map (fun x => Isl.set_set_tuple_name x n) s.

(** [isl_set_align_params], [isl_map_align_params]: the model space must
    have all its parameters named.  So must the object that is aligned: a set
    or a map of [Isl] has identifiers for all its parameters, as has every
    object these sources build, so that only the model space is tested. *)
Definition isl_space : Type := option Isl.space.

Definition isl_set_align_params (s : isl_set) (model : isl_space) : outcome isl_set :=
  match s, model with
  | Some x, Some sp =>
      if Isl.has_named_params (Isl.sp_params sp)
      then Ret (Some (Isl.set_align_params x (Isl.named (Isl.sp_params sp))))
      else Abort
  | _, _ => Ret None
  end.

Definition isl_map_align_params (m : isl_map) (model : isl_space) : outcome isl_map :=
  match m, model with
  | Some x, Some sp =>
      if Isl.has_named_params (Isl.sp_params sp)
      then Ret (Some (Isl.map_align_params x (Isl.named (Isl.sp_params sp))))
      else Abort
  | _, _ => Ret None
  end.

Definition isl_set_get_space : isl_set -> isl_space := option_map Isl.set_get_space.

Definition isl_map_from_pw_aff : isl_pw_aff -> isl_map := option_map Isl.map_from_pw_aff.

Definition isl_map_set_tuple_name (m : isl_map) (t : Isl.dim_type) (n : string) : isl_map :=
  option_map (fun x => Isl.map_set_tuple_name x t n) m.

Definition isl_map_equate (m : isl_map) (t1 : Isl.dim_type) (p1 : nat)
    (t2 : Isl.dim_type) (p2 : nat) : outcome isl_map :=
  match m with
  | Some x => r <- Isl.map_equate x t1 p1 t2 p2 ;; Ret (Some r)
  | None => Ret None
  end.

Definition isl_map_fix_si (m : isl_map) (t : Isl.dim_type) (p : nat) (v : Z) : outcome isl_map :=
  match m with
  | Some x => r <- Isl.map_fix_si x t p v ;; Ret (Some r)
  | None => Ret None
  end.

(** ** TempScopInfo: the facts handed to ScopInfo

    [IRAccess], [Comparison] and [TempScop] are declared in
    [polly/TempScopInfo.h]; their accessors are the lookups written here. *)

Inductive TypeKind : Type := READ | WRITE | SCALARREAD | SCALARWRITE.

Record IRAccess : Type := mkIRAccess {
  IRA_Type : TypeKind;
  BaseAddress : Value;
  Offset : SCEV;
  ElemBytes : Z;
  IsAffine : bool
}.

Definition isRead (A : IRAccess) : bool :=
  match IRA_Type A with
  | READ | SCALARREAD => true
  | _ => false
  end.

(** [CmpInst::Predicate]: the integer predicates, and the others. *)
Inductive Predicate : Type :=
| ICMP_EQ | ICMP_NE
| ICMP_UGT | ICMP_UGE | ICMP_ULT | ICMP_ULE
| ICMP_SGT | ICMP_SGE | ICMP_SLT | ICMP_SLE
| FCMP_any.

(** [CmpInst::getInversePredicate] *)
Definition getInversePredicate (p : Predicate) : Predicate :=
  match p with
  | ICMP_EQ => ICMP_NE
  | ICMP_NE => ICMP_EQ
  | ICMP_UGT => ICMP_ULE
  | ICMP_ULT => ICMP_UGE
  | ICMP_UGE => ICMP_ULT
  | ICMP_ULE => ICMP_UGT
  | ICMP_SGT => ICMP_SLE
  | ICMP_SLT => ICMP_SGE
  | ICMP_SGE => ICMP_SLT
  | ICMP_SLE => ICMP_SGT
  | FCMP_any => FCMP_any
  end.

Record Comparison : Type := mkComparison {
  getLHS : SCEV;
  getRHS : SCEV;
  getPred : Predicate
}.

Definition BBCond : Type := list Comparison.

(** The instruction an access comes from. *)
Definition Instruction : Type := Value.

Definition AccFuncSetType : Type := list (IRAccess * Instruction).

(** A region as the walk towards the top region sees it: its entry block and
    its parent. *)
Inductive Region : Type :=
| mkRegion (reg_id : nat) (Entry : BasicBlock) (Parent : option Region).

Definition getEntry (R : Region) : BasicBlock := match R with mkRegion _ e _ => e end.
Definition getParent (R : Region) : option Region := match R with mkRegion _ _ p => p end.
Definition getRegionId (R : Region) : nat := match R with mkRegion i _ _ => i end.

(** Equality of two region pointers. *)
Definition Region_ptr_eqb (a b : option Region) : bool :=
  match a, b with
  | None, None => true
  | Some x, Some y => (getRegionId x =? getRegionId y)%nat
  | _, _ => false
  end.

(** A region as its element iterator sees it: the blocks and the
    sub-regions it is made of, in the iterator's order. *)
Inductive Element (T : Type) : Type :=
| ElemBlock (bb : BasicBlock)
| ElemSub (sub : T).
Arguments ElemBlock {T} bb.
Arguments ElemSub {T} sub.

Inductive RegionTree : Type :=
| RegionT (R : Region) (elements : list (Element RegionTree)).

Definition getRegion (T : RegionTree) : Region := match T with RegionT R _ => R end.

Record TempScop : Type := mkTempScop {
  TS_MaxRegion : RegionTree;
  LoopBounds : Loop -> option SCEV;
  BBConds : BasicBlock -> option BBCond;
  AccFuncMap : BasicBlock -> option AccFuncSetType;
  TS_MaxLoopDepth : nat
}.

Definition getMaxRegion (tempScop : TempScop) : Region := getRegion (TS_MaxRegion tempScop).

(** [TempScop::getLoopBound] asserts that the loop has a bound on record. *)
Definition getLoopBound (tempScop : TempScop) (L : Loop) : outcome SCEV :=
  match LoopBounds tempScop L with
  | Some B => Ret B
  | None => Abort
  end.

Definition getBBCond (tempScop : TempScop) (B : BasicBlock) : option BBCond :=
  BBConds tempScop B.

Definition getAccessFunctions (tempScop : TempScop) (B : BasicBlock) : option AccFuncSetType :=
  AccFuncMap tempScop B.

(** *** What TempScopInfo reads of the function *)

(** The value a conditional branch tests: a constant, an integer comparison
    (with the block it stands in), or something else. *)
Inductive CondValue : Type :=
| CV_ConstantInt (C : APInt)
| CV_ICmpInst (Pred : Predicate) (Op0 Op1 : Value) (Parent : BasicBlock)
| CV_other.

(** The terminator of a block: a branch, unconditional or conditional, or
    another instruction. *)
Inductive Terminator : Type :=
| Br_unconditional (Succ : BasicBlock)
| Br_conditional (Condition : CondValue) (Succ0 Succ1 : BasicBlock)
| Term_other.

(** A node of the dominator tree: its block and its immediate dominator. *)
Inductive DomTreeNode : Type :=
| DTNode (Block : BasicBlock) (IDom : option DomTreeNode).

Definition getBlock (N : DomTreeNode) : BasicBlock := match N with DTNode b _ => b end.
Definition getIDom (N : DomTreeNode) : option DomTreeNode := match N with DTNode _ i => i end.

(** The tree has one node per block: two node pointers are equal when their
    blocks are. *)
Definition DomTreeNode_ptr_eqb (a b : DomTreeNode) : bool :=
  BasicBlock_eqb (getBlock a) (getBlock b).

(** A load or a store, with the store size of the accessed type
    ([DataLayout::getTypeStoreSize]) and its pointer operand. *)
Inductive MemInst : Type :=
| LoadInst (StoreSize : Z) (Pointer : Value)
| StoreInst (StoreSize : Z) (Pointer : Value).

(** LoopInfo, ScalarEvolution, the two dominator trees, the terminators of
    the blocks and the affinity test of SCEVValidator, as the pass queries
    them. *)
Record Passes : Type := mkPasses {
  getLoopFor : BasicBlock -> option Loop;
  getSCEVAtScope : Value -> option Loop -> SCEV;
  getPointerBase : SCEV -> SCEV;
  getMinusSCEV : SCEV -> SCEV -> SCEV;
  isAffineExpr : SCEV -> Value -> bool;
  DT_getNode : BasicBlock -> option DomTreeNode;
  DT_dominates : BasicBlock -> BasicBlock -> bool;
  PDT_dominates : BasicBlock -> BasicBlock -> bool;
  getTerminator : BasicBlock -> Terminator
}.

(** ** ScopInfo.cpp: the parameters of a Scop *)

(** [convertInt]: the decimal digits of a non-negative [int], collected from
    the least significant one and then reversed. *)
Fixpoint convertInt_digits (fuel : nat) (number : Z) (temp : list ascii) : list ascii :=
  match fuel with
  | O => temp
  | S fuel' =>
      if 0 <? number
      then convertInt_digits fuel' (number / 10)
             (temp ++ [ascii_of_nat (Z.to_nat (number mod 10 + 48))])
      else temp
  end.

Definition convertInt (number : Z) : string :=
  if number =? 0 then "0"%string
  else string_of_list_ascii (rev (convertInt_digits (Z.to_nat number) number [])).

(** The two containers of [class Scop] that hold the parameters:
    [Parameters], a vector, and [ParameterIds], a map from the expression to
    its dimension. *)
Record ScopParams : Type := mkScopParams {
  Parameters : list SCEV;
  ParameterIds : list (SCEV * nat)
}.

Fixpoint ParamIds_find (m : list (SCEV * nat)) (k : SCEV) : option nat :=
  match m with
  | [] => None
  | (k', d) :: m' => if SCEV_eqb k k' then Some d else ParamIds_find m' k
  end.

Fixpoint addParams (NewParameters : list SCEV) (St : ScopParams) : ScopParams :=
  match NewParameters with
  | [] => St
  | Param :: rest =>
      match ParamIds_find (ParameterIds St) Param with
      | Some _ => addParams rest St
      | None =>
          let dimension := length (Parameters St) in
          addParams rest (mkScopParams (Parameters St ++ [Param])
                                       ((Param, dimension) :: ParameterIds St))
      end
  end.

Definition getIdForParam (St : ScopParams) (Param : SCEV) : option Isl.id :=
  match ParamIds_find (ParameterIds St) Param with
  | None => None
  | Some dim =>
      let ParameterName :=
        match Param with
        | scUnknown Val => val_name Val
        | _ => EmptyString
        end in
      let ParameterName :=
        if String.eqb ParameterName "" || String.eqb (substring 0 2 ParameterName) "p_"
        then String.append "p_" (convertInt (Z.of_nat dim))
        else ParameterName in
      Some (Isl.mkId ParameterName (Isl.UserSCEV Param))
  end.

(** ** ScopInfo.cpp: statements and memory accesses *)

Inductive AccessType : Type := Read | Write | MayWrite.

Record MemoryAccess : Type := mkMemoryAccess {
  MA_Type : AccessType;
  MA_BaseAddr : Value;
  MA_BaseName : string;
  AccessRelation : isl_map;
  newAccessRelation : isl_map
}.

Record ScopStmt : Type := mkScopStmt {
  BB : option BasicBlock;
  IVS : list (Value * Loop);
  BaseName : string;
  Domain : isl_set;
  Scattering : isl_map;
  MemAccs : list MemoryAccess
}.

Definition getNumIterators (stmt : ScopStmt) : nat :=
  match BB stmt with
  | None => 1
  | Some _ => length (IVS stmt)
  end.

Definition getLoopForDimension (stmt : ScopStmt) (Dimension : nat) : option Loop :=
  option_map snd (nth_error (IVS stmt) Dimension).

(** ** ScopInfo.cpp: [SCEVAffinator] *)

(** What ScopInfo asks of its surroundings: the region of the Scop, as
    [Region::contains] and [Region::outermostLoopInRegion] answer for a loop;
    the parameters [getParamsInAffineExpr] (SCEVValidator) finds in an
    expression; and [castToLoop] (ScopHelper), the loop a region stands for. *)
Record Analyses : Type := mkAnalyses {
  Region_contains : Loop -> bool;
  outermostLoopInRegion : Loop -> option Loop;
  getParamsInAffineExpr : SCEV -> list SCEV;
  castToLoop : Region -> option Loop
}.

Section ScopInfo.

Variable A : Analyses.

Section Visitor.
Variable scop : ScopParams.
Variable NbLoopSpaces : nat.

(** The first branch of [visit]: the expression is a parameter on record. *)
Definition visitParameter (Id : Isl.id) : outcome isl_pw_aff :=
  let Space := Isl.space_set_alloc 1 NbLoopSpaces in
  Space <- Isl.space_set_dim_id Space 0 Id ;;
  let Domain := Isl.set_universe Space in
  let Affine := Isl.aff_zero_on_domain NbLoopSpaces in
  Affine <- Isl.aff_add_coefficient_si Space Affine Isl.isl_dim_param 0 1 ;;
  Ret (Some (Isl.pw_aff_alloc Domain Affine)).

Definition visitConstant (Value : APInt) : outcome isl_pw_aff :=
  let v := getSExtValue Value in
  let Space := Isl.space_set_alloc 0 NbLoopSpaces in
  let Affine := Isl.aff_zero_on_domain NbLoopSpaces in
  let Domain := Isl.set_universe Space in
  let Affine := Isl.aff_add_constant Affine v in
  Ret (Some (Isl.pw_aff_alloc Domain Affine)).

(** The n-ary visitors take the results of [visit] on the operands, in
    order; an expression without operand 0 fails the operand assertion. *)
Fixpoint visitAddExpr_loop (Sum : isl_pw_aff) (rest : list (outcome isl_pw_aff))
  : outcome isl_pw_aff :=
  match rest with
  | [] => Ret Sum
  | r :: rest' =>
      NextSummand <- r ;;
      visitAddExpr_loop (isl_pw_aff_add Sum NextSummand) rest'
  end.

Definition visitAddExpr (Operands : list (outcome isl_pw_aff)) : outcome isl_pw_aff :=
  match Operands with
  | [] => Abort
  | r0 :: rest => Sum <- r0 ;; visitAddExpr_loop Sum rest
  end.

Fixpoint visitMulExpr_loop (Product : isl_pw_aff) (rest : list (outcome isl_pw_aff))
  : outcome isl_pw_aff :=
  match rest with
  | [] => Ret Product
  | r :: rest' =>
      NextOperand <- r ;;
      if lnot (isl_pw_aff_is_cst Product) && lnot (isl_pw_aff_is_cst NextOperand)
      then Ret None
      else
        Product <- isl_pw_aff_mul Product NextOperand ;;
        visitMulExpr_loop Product rest'
  end.

Definition visitMulExpr (Operands : list (outcome isl_pw_aff)) : outcome isl_pw_aff :=
  match Operands with
  | [] => Abort
  | r0 :: rest => Product <- r0 ;; visitMulExpr_loop Product rest
  end.

Definition getLoopDepth (L : Loop) : outcome Z :=
  match outermostLoopInRegion A L with
  | None => Abort
  | Some outerLoop => Ret (Z.of_nat (loop_depth L) - Z.of_nat (loop_depth outerLoop))
  end.

Definition visitAddRecExpr (Operands : list (outcome isl_pw_aff)) (L : Loop)
  : outcome isl_pw_aff :=
  assertO (length Operands =? 2)%nat ;;;
  assertO (Region_contains A L) ;;;
  Start <- nth 0 Operands Abort ;;
  Step <- nth 1 Operands Abort ;;
  let Space := Isl.space_set_alloc 0 NbLoopSpaces in
  loopDimension <- getLoopDepth L ;;
  assertO (0 <=? loopDimension) ;;;
  LAff <- Isl.aff_set_coefficient_si Space (Isl.aff_zero_on_domain NbLoopSpaces)
            Isl.isl_dim_in (Z.to_nat loopDimension) 1 ;;
  let LPwAff := Some (Isl.pw_aff_from_aff Space LAff) in
  P <- isl_pw_aff_mul Step LPwAff ;;
  Ret (isl_pw_aff_add Start P).

Fixpoint visitSMaxExpr_loop (Max : isl_pw_aff) (rest : list (outcome isl_pw_aff))
  : outcome isl_pw_aff :=
  match rest with
  | [] => Ret Max
  | r :: rest' =>
      NextOperand <- r ;;
      visitSMaxExpr_loop (isl_pw_aff_max Max NextOperand) rest'
  end.

Definition visitSMaxExpr (Operands : list (outcome isl_pw_aff)) : outcome isl_pw_aff :=
  match Operands with
  | [] => Abort
  | r0 :: rest => Max <- r0 ;; visitSMaxExpr_loop Max rest
  end.

Definition visitUnknown (Value : Value) : outcome isl_pw_aff :=
  let ValueName := val_name Value in
  let ID := Isl.mkId ValueName (Isl.UserValue Value) in
  let Space := Isl.space_set_alloc 1 NbLoopSpaces in
  Space <- Isl.space_set_dim_id Space 0 ID ;;
  let Domain := Isl.set_universe Space in
  let Affine := Isl.aff_zero_on_domain NbLoopSpaces in
  Affine <- Isl.aff_add_coefficient_si Space Affine Isl.isl_dim_param 0 1 ;;
  Ret (Some (Isl.pw_aff_alloc Domain Affine)).

(** [SCEVAffinator::visit]: a parameter on record is not analysed
    further; otherwise [SCEVVisitor::visit] dispatches on the kind. *)
Fixpoint visit (scev : SCEV) {struct scev} : outcome isl_pw_aff :=
  match getIdForParam scop scev with
  | Some Id => visitParameter Id
  | None =>
      match scev with
      | scConstant V => visitConstant V
      | scTruncate _ => Abort
      | scZeroExtend _ => Abort
      | scSignExtend Op => visit Op
      | scAddExpr Ops => visitAddExpr (map visit Ops)
      | scMulExpr Ops => visitMulExpr (map visit Ops)
      | scUDivExpr _ _ => Abort
      | scAddRecExpr Ops L => visitAddRecExpr (map visit Ops) L
      | scSMaxExpr Ops => visitSMaxExpr (map visit Ops)
      | scUMaxExpr _ => Abort
      | scUnknown V => visitUnknown V
      | scCouldNotCompute => Abort
      end
  end.

End Visitor.

(** [SCEVAffinator::getPwAff]: the parameters of the expression are put on
    record in the Scop, then the expression is visited. *)
Definition getPwAff (stmt : ScopStmt) (scev : SCEV) (St : ScopParams)
  : outcome (isl_pw_aff * ScopParams) :=
  let St := addParams (getParamsInAffineExpr A scev) St in
  r <- visit St (getNumIterators stmt) scev ;;
  Ret (r, St).


(** ** ScopInfo.cpp: names *)

(** [replace str find replace]: every occurrence of [find], scanning from the
    left and never rescanning what was put in. *)
Fixpoint replace_from (skip : nat) (str find repl : string) : string :=
  match str with
  | EmptyString => EmptyString
  | String c rest =>
      match skip with
      | S k => replace_from k rest find repl
      | O =>
          if String.prefix find str
          then String.append repl (replace_from (String.length find - 1) rest find repl)
          else String c (replace_from 0 rest find repl)
      end
  end.

Definition replace (str find repl : string) : string := replace_from 0 str find repl.

Definition dquote : string := String (ascii_of_nat 34) EmptyString.

Definition makeIslCompatible (str : string) : string :=
  let str := match str with EmptyString => EmptyString | String _ rest => rest end in
  let str := replace str "." "_" in
  replace str dquote "_".

(** ** ScopInfo.cpp: [MemoryAccess] *)

Definition MemoryAccess_setBaseName (BaseAddr : Value) : string :=
  String.append "MemRef_" (makeIslCompatible (val_operand BaseAddr)).

Definition createBasicAccessMap (BaseAddr : Value) (Statement : ScopStmt) : Isl.map :=
  let Space := Isl.space_alloc 0 (getNumIterators Statement) 1 in
  let Space := Isl.space_set_tuple_name Space Isl.isl_dim_out (MemoryAccess_setBaseName BaseAddr) in
  let Space := Isl.space_set_tuple_name Space Isl.isl_dim_in (BaseName Statement) in
  Isl.map_universe Space.

(** The constructor of [MemoryAccess] from an [IRAccess]. *)
Definition MemoryAccess_ctor (Access : IRAccess) (Statement : ScopStmt) (St : ScopParams)
  : outcome (MemoryAccess * ScopParams) :=
  let Ty := if isRead Access then Read else Write in
  let BaseAddr := BaseAddress Access in
  if negb (IsAffine Access) then
    let Ty := match Ty with Read => Read | _ => MayWrite end in
    Ret (mkMemoryAccess Ty BaseAddr (MemoryAccess_setBaseName BaseAddr)
           (Some (createBasicAccessMap BaseAddr Statement)) None, St)
  else
    r <- getPwAff Statement (Offset Access) St ;;
    let Affine := fst r in
    let St := snd r in
    let BaseName_ := MemoryAccess_setBaseName BaseAddr in
    Affine <- isl_pw_aff_scale_down Affine (ElemBytes Access) ;;
    let Rel := isl_map_from_pw_aff Affine in
    let Rel := isl_map_set_tuple_name Rel Isl.isl_dim_in (BaseName Statement) in
    let Rel := isl_map_set_tuple_name Rel Isl.isl_dim_out BaseName_ in
    Ret (mkMemoryAccess Ty BaseAddr BaseName_ Rel None, St).

(** ** ScopInfo.cpp: [ScopStmt] *)

Definition buildConditionSet (stmt : ScopStmt) (Comp : Comparison) (St : ScopParams)
  : outcome (isl_set * ScopParams) :=
  l <- getPwAff stmt (getLHS Comp) St ;;
  r <- getPwAff stmt (getRHS Comp) (snd l) ;;
  let L := fst l in
  let R := fst r in
  let St := snd r in
  match getPred Comp with
  | ICMP_EQ => Ret (isl_pw_aff_eq_set L R, St)
  | ICMP_NE => Ret (isl_pw_aff_ne_set L R, St)
  | ICMP_SLT => Ret (isl_pw_aff_lt_set L R, St)
  | ICMP_SLE => Ret (isl_pw_aff_le_set L R, St)
  | ICMP_SGT => Ret (isl_pw_aff_gt_set L R, St)
  | ICMP_SGE => Ret (isl_pw_aff_ge_set L R, St)
  | ICMP_ULT | ICMP_UGT | ICMP_ULE | ICMP_UGE => Abort
  | FCMP_any => Abort
  end.

(** The body of the loop of [addLoopBoundsToDomain], for the dimensions
    still to do. *)
Fixpoint addLoopBounds_loop (stmt : ScopStmt) (tempScop : TempScop) (LocalSpace : Isl.space)
    (dims : list nat) (Domain : isl_set) (St : ScopParams)
  : outcome (isl_set * ScopParams) :=
  match dims with
  | [] => Ret (Domain, St)
  | i :: dims' =>
      let Zero := Isl.aff_zero_on_domain (Isl.sp_nout LocalSpace) in
      IVaff <- Isl.aff_set_coefficient_si LocalSpace Zero Isl.isl_dim_in i 1 ;;
      let IV := Some (Isl.pw_aff_from_aff LocalSpace IVaff) in
      let LowerBound := isl_pw_aff_nonneg_set IV in
      let Domain := isl_set_intersect Domain LowerBound in
      match getLoopForDimension stmt i with
      | None => Abort
      | Some L =>
          LatchExecutions <- getLoopBound tempScop L ;;
          r <- getPwAff stmt LatchExecutions St ;;
          let UpperBound := fst r in
          let UpperBoundSet := isl_pw_aff_le_set IV UpperBound in
          let Domain := isl_set_intersect Domain UpperBoundSet in
          addLoopBounds_loop stmt tempScop LocalSpace dims' Domain (snd r)
      end
  end.

Definition addLoopBoundsToDomain (stmt : ScopStmt) (Domain : Isl.set) (tempScop : TempScop)
    (St : ScopParams) : outcome (isl_set * ScopParams) :=
  let LocalSpace := Isl.set_get_space Domain in
  addLoopBounds_loop stmt tempScop LocalSpace (seq 0 (getNumIterators stmt)) (Some Domain) St.

(** The inner loop of [addConditionsToDomain] over one block's conditions. *)
Fixpoint addConditions_of (stmt : ScopStmt) (Condition : BBCond) (Domain : isl_set)
    (St : ScopParams) : outcome (isl_set * ScopParams) :=
  match Condition with
  | [] => Ret (Domain, St)
  | CI :: rest =>
      r <- buildConditionSet stmt CI St ;;
      let ConditionSet := fst r in
      addConditions_of stmt rest (isl_set_intersect Domain ConditionSet) (snd r)
  end.

(** The do-while loop of [addConditionsToDomain], one iteration per region
    from the current one towards the top region. *)
Fixpoint addConditions_walk (stmt : ScopStmt) (tempScop : TempScop) (TopRegion : option Region)
    (CurrentRegion : Region) (BranchingBB : BasicBlock) (Domain : isl_set) (St : ScopParams)
    {struct CurrentRegion} : outcome (isl_set * ScopParams) :=
  r <- (if negb (BasicBlock_eqb BranchingBB (getEntry CurrentRegion)) then
          match getBBCond tempScop BranchingBB with
          | Some Condition => addConditions_of stmt Condition Domain St
          | None => Ret (Domain, St)
          end
        else Ret (Domain, St)) ;;
  let Domain := fst r in
  let St := snd r in
  let BranchingBB := getEntry CurrentRegion in
  match CurrentRegion with
  | mkRegion _ _ Parent =>
      if Region_ptr_eqb TopRegion Parent then Ret (Domain, St)
      else
        match Parent with
        | Some P => addConditions_walk stmt tempScop TopRegion P BranchingBB Domain St
        | None => Abort
        end
  end.

Definition addConditionsToDomain (stmt : ScopStmt) (bb : BasicBlock) (Domain : isl_set)
    (tempScop : TempScop) (CurRegion : Region) (St : ScopParams)
  : outcome (isl_set * ScopParams) :=
  let TopRegion := getParent (getMaxRegion tempScop) in
  addConditions_walk stmt tempScop TopRegion CurRegion bb Domain St.

Definition buildDomain (stmt : ScopStmt) (bb : BasicBlock) (tempScop : TempScop)
    (CurRegion : Region) (St : ScopParams) : outcome (isl_set * ScopParams) :=
  let Space := Isl.space_set_alloc 0 (getNumIterators stmt) in
  let Domain := Isl.set_universe Space in
  r <- addLoopBoundsToDomain stmt Domain tempScop St ;;
  r <- addConditionsToDomain stmt bb (fst r) tempScop CurRegion (snd r) ;;
  Ret (isl_set_set_tuple_name (fst r) (BaseName stmt), snd r).


(** A counted loop over the given indices. *)
Fixpoint forO {A} (idx : list nat) (body : nat -> A -> outcome A) (a : A) : outcome A :=
  match idx with
  | [] => Ret a
  | i :: idx' => a' <- body i a ;; forO idx' body a'
  end.

(** An [unsigned] result: the arithmetic wraps around at [2^32]. *)
Definition unsigned_wrap (z : Z) : Z := z mod 2 ^ 32.

(** The value of an [unsigned] expression over sizes and positions whose
    exact value is [n]. *)
Definition unsigned_of (n : nat) : nat := Z.to_nat (unsigned_wrap (Z.of_nat n)).

(** An [unsigned] passed for an [int]: its 32 bits read in two's
    complement. *)
Definition int_of_unsigned (u : Z) : Z :=
  let w := unsigned_wrap u in
  if w <? 2 ^ 31 then w else w - 2 ^ 32.

(** [ScopStmt::buildScattering], given the maximal loop depth and the
    parameter space of the parent Scop.  The counters, the number of the
    dimensions and the positions are [unsigned]; [isl_map_fix_si] takes the
    counter as an [int]. *)
Definition buildScattering (stmt : ScopStmt) (ParentMaxLoopDepth : nat)
    (ParentParamSpace : isl_space) (Scatter : list Z) : outcome isl_map :=
  let NbIterators := getNumIterators stmt in
  let NbScatteringDims := unsigned_of (ParentMaxLoopDepth * 2 + 1) in
  let Space := Isl.space_alloc 0 NbIterators NbScatteringDims in
  let Space := Isl.space_set_tuple_name Space Isl.isl_dim_out "scattering" in
  let Space := Isl.space_set_tuple_name Space Isl.isl_dim_in (BaseName stmt) in
  let Scattering := Some (Isl.map_universe Space) in
  (* Loop dimensions. *)
  Scattering <- forO (seq 0 NbIterators)
    (fun i Scattering =>
       isl_map_equate Scattering Isl.isl_dim_out (unsigned_of (2 * i + 1)) Isl.isl_dim_in i)
    Scattering ;;
  (* Constant dimensions. *)
  Scattering <- forO (seq 0 (unsigned_of (NbIterators + 1)))
    (fun i Scattering =>
       match nth_error Scatter i with
       | Some c =>
           isl_map_fix_si Scattering Isl.isl_dim_out (unsigned_of (2 * i)) (int_of_unsigned c)
       | None => Abort
       end) Scattering ;;
  (* Fill scattering dimensions. *)
  Scattering <- forO (seq (unsigned_of (2 * NbIterators + 1))
                          (NbScatteringDims - unsigned_of (2 * NbIterators + 1)))
    (fun i Scattering => isl_map_fix_si Scattering Isl.isl_dim_out i 0) Scattering ;;
  isl_map_align_params Scattering ParentParamSpace.

Fixpoint buildAccesses_loop (this : ScopStmt) (AccFuncs : AccFuncSetType)
    (MemAccs_ : list MemoryAccess) (St : ScopParams)
  : outcome (list MemoryAccess * ScopParams) :=
  match AccFuncs with
  | [] => Ret (MemAccs_, St)
  | AI :: rest =>
      r <- MemoryAccess_ctor (fst AI) this St ;;
      buildAccesses_loop this rest (MemAccs_ ++ [fst r]) (snd r)
  end.

Definition buildAccesses (this : ScopStmt) (bb : BasicBlock) (tempScop : TempScop)
    (St : ScopParams) : outcome (list MemoryAccess * ScopParams) :=
  match getAccessFunctions tempScop bb with
  | None => Abort
  | Some AccFuncs => buildAccesses_loop this AccFuncs (MemAccs this) St
  end.

Fixpoint setupIVS (NestLoops : list Loop) : outcome (list (Value * Loop)) :=
  match NestLoops with
  | [] => Ret []
  | L :: rest =>
      match loop_civ L with
      | None => Abort
      | Some PN => r <- setupIVS rest ;; Ret ((PN, L) :: r)
      end
  end.

Record Scop : Type := mkScop {
  SC_Params : ScopParams;
  Context : isl_set;
  Stmts : list ScopStmt;
  MaxLoopDepth : nat
}.

Definition getParamSpace (Sc : Scop) : isl_space := isl_set_get_space (Context Sc).

(** The constructor of [ScopStmt]; it returns the statement and the
    parameters of the parent, which the translations extend. *)
Definition ScopStmt_ctor (parent : Scop) (tempScop : TempScop) (CurRegion : Region)
    (bb : BasicBlock) (NestLoops : list Loop) (Scatter : list Z)
  : outcome (ScopStmt * ScopParams) :=
  IVS_ <- setupIVS NestLoops ;;
  let BaseName_ := String.append "Stmt_" (makeIslCompatible (bb_operand bb)) in
  let this := mkScopStmt (Some bb) IVS_ BaseName_ None None [] in
  d <- buildDomain this bb tempScop CurRegion (SC_Params parent) ;;
  let this := mkScopStmt (Some bb) IVS_ BaseName_ (fst d) None [] in
  Scattering_ <- buildScattering this (MaxLoopDepth parent) (getParamSpace parent) Scatter ;;
  let this := mkScopStmt (Some bb) IVS_ BaseName_ (fst d) Scattering_ [] in
  a <- buildAccesses this bb tempScop (snd d) ;;
  Ret (mkScopStmt (Some bb) IVS_ BaseName_ (fst d) Scattering_ (fst a), snd a).

Definition MemoryAccess_realignParams (ParamSpace : isl_space) (MA : MemoryAccess)
  : outcome MemoryAccess :=
  R <- isl_map_align_params (AccessRelation MA) ParamSpace ;;
  Ret (mkMemoryAccess (MA_Type MA) (MA_BaseAddr MA) (MA_BaseName MA) R (newAccessRelation MA)).

Fixpoint mapO {A B} (f : A -> outcome B) (l : list A) : outcome (list B) :=
  match l with
  | [] => Ret []
  | a :: l' => b <- f a ;; r <- mapO f l' ;; Ret (b :: r)
  end.

Definition ScopStmt_realignParams (ParamSpace : isl_space) (stmt : ScopStmt)
  : outcome ScopStmt :=
  MemAccs_ <- mapO (MemoryAccess_realignParams ParamSpace) (MemAccs stmt) ;;
  Domain_ <- isl_set_align_params (Domain stmt) ParamSpace ;;
  Scattering_ <- isl_map_align_params (Scattering stmt) ParamSpace ;;
  Ret (mkScopStmt (BB stmt) (IVS stmt) (BaseName stmt) Domain_ Scattering_ MemAccs_).

(** The loop of [Scop::realignParams] that names the dimensions of the
    common space; every key of [ParameterIds] has an identifier. *)
Fixpoint realignParams_space (St : ScopParams) (ids : list (SCEV * nat)) (Space : Isl.space)
  : outcome Isl.space :=
  match ids with
  | [] => Ret Space
  | PI :: rest =>
      match getIdForParam St (fst PI) with
      | Some id => Space <- Isl.space_set_dim_id Space (snd PI) id ;; realignParams_space St rest Space
      | None => Abort
      end
  end.

Definition Scop_realignParams (Sc : Scop) : outcome Scop :=
  let Space := Isl.space_params_alloc (length (ParameterIds (SC_Params Sc))) in
  Space <- realignParams_space (SC_Params Sc) (ParameterIds (SC_Params Sc)) Space ;;
  Context_ <- isl_set_align_params (Context Sc) (Some Space) ;;
  let Sc := mkScop (SC_Params Sc) Context_ (Stmts Sc) (MaxLoopDepth Sc) in
  Stmts_ <- mapO (ScopStmt_realignParams (getParamSpace Sc)) (Stmts Sc) ;;
  Ret (mkScop (SC_Params Sc) (Context Sc) Stmts_ (MaxLoopDepth Sc)).

Definition isTrivialBB (bb : BasicBlock) (tempScop : TempScop) : bool :=
  match getAccessFunctions tempScop bb with
  | Some _ => false
  | None => true
  end.

(** The objects [Scop::buildScop] works on: the Scop under construction and
    the two vectors passed by reference; the counters are [unsigned]. *)
Record BuildState : Type := mkBuildState {
  bs_scop : Scop;
  bs_NestLoops : list Loop;
  bs_Scatter : list Z
}.

(** [++Scatter[i]] *)
Definition Scatter_incr (Scatter : list Z) (i : nat) : outcome (list Z) :=
  match nth_error Scatter i with
  | Some c =>
      match Isl.list_set Scatter i (unsigned_wrap (c + 1)) with
      | Some l => Ret l
      | None => Abort
      end
  | None => Abort
  end.

Definition Scatter_reset (Scatter : list Z) (i : nat) : outcome (list Z) :=
  match Isl.list_set Scatter i 0 with
  | Some l => Ret l
  | None => Abort
  end.

(** A block that is not trivial becomes a statement. *)
Definition buildScop_block (tempScop : TempScop) (CurRegion : Region) (loopDepth : nat)
    (bb : BasicBlock) (bs : BuildState) : outcome BuildState :=
  if isTrivialBB bb tempScop then Ret bs
  else
    r <- ScopStmt_ctor (bs_scop bs) tempScop CurRegion bb (bs_NestLoops bs) (bs_Scatter bs) ;;
    let Sc := bs_scop bs in
    let Sc := mkScop (snd r) (Context Sc) (Stmts Sc ++ [fst r]) (MaxLoopDepth Sc) in
    Scatter <- Scatter_incr (bs_Scatter bs) loopDepth ;;
    Ret (mkBuildState Sc (bs_NestLoops bs) Scatter).

Fixpoint buildScop (tempScop : TempScop) (CurRegion : RegionTree) (bs : BuildState)
    {struct CurRegion} : outcome BuildState :=
  match CurRegion with
  | RegionT R elements =>
      let L := castToLoop A R in
      let NestLoops :=
        match L with
        | Some l => bs_NestLoops bs ++ [l]
        | None => bs_NestLoops bs
        end in
      let loopDepth := length NestLoops in
      assertO (loopDepth <? length (bs_Scatter bs))%nat ;;;
      bs <- (fix elems (l : list (Element RegionTree)) (bs : BuildState) {struct l}
               : outcome BuildState :=
               match l with
               | [] => Ret bs
               | ElemSub sub :: l' => bs <- buildScop tempScop sub bs ;; elems l' bs
               | ElemBlock bb :: l' =>
                   bs <- buildScop_block tempScop R loopDepth bb bs ;; elems l' bs
               end) elements (mkBuildState (bs_scop bs) NestLoops (bs_Scatter bs)) ;;
      match L with
      | None => Ret bs
      | Some _ =>
          (* Exiting a loop region. *)
          Scatter <- Scatter_reset (bs_Scatter bs) loopDepth ;;
          let NestLoops := removelast (bs_NestLoops bs) in
          Scatter <- Scatter_incr Scatter (loopDepth - 1) ;;
          Ret (mkBuildState (bs_scop bs) NestLoops Scatter)
      end
  end.

Definition buildContext : isl_set := Some (Isl.set_universe (Isl.space_params_alloc 0)).

(** The constructor of [Scop]. *)
Definition Scop_ctor (tempScop : TempScop) : outcome Scop :=
  let MaxLoopDepth_ := TS_MaxLoopDepth tempScop in
  let Sc := mkScop (mkScopParams [] []) buildContext [] MaxLoopDepth_ in
  let Scatter := repeat 0 (unsigned_of (MaxLoopDepth_ + 1)) in
  bs <- buildScop tempScop (TS_MaxRegion tempScop) (mkBuildState Sc [] Scatter) ;;
  Sc <- Scop_realignParams (bs_scop bs) ;;
  assertO (match bs_NestLoops bs with [] => true | _ => false end) ;;;
  Ret Sc.

End ScopInfo.

(** ** TempScopInfo.cpp *)

Section TempScopInfo.

Variable P : Passes.

Definition buildIRAccess (Inst : MemInst) (L : option Loop) : outcome IRAccess :=
  let Size := match Inst with LoadInst sz _ => sz | StoreInst sz _ => sz end in
  let Ty := match Inst with LoadInst _ _ => READ | StoreInst _ _ => WRITE end in
  let Pointer := match Inst with LoadInst _ p => p | StoreInst _ p => p end in
  let AccessFunction := getSCEVAtScope P Pointer L in
  match getPointerBase P AccessFunction with
  | scUnknown BasePointer =>
      let AccessFunction := getMinusSCEV P AccessFunction (scUnknown BasePointer) in
      let IsAffine_ := isAffineExpr P AccessFunction BasePointer in
      Ret (mkIRAccess Ty BasePointer AccessFunction Size IsAffine_)
  | _ => Abort
  end.

(** [SE->getConstant(C->getType(), n)] *)
Definition getConstant (C : APInt) (n : Z) : SCEV := scConstant (mkAPInt (BitWidth C) n).

Definition buildAffineCondition (V : CondValue) (inverted : bool) : outcome Comparison :=
  match V with
  | CV_ConstantInt C =>
      let LHS := getConstant C 0 in
      let RHS := getConstant C 1 in
      if Bool.eqb (isOne C) inverted
      then Ret (mkComparison LHS RHS ICMP_SLE)
      else Ret (mkComparison LHS RHS ICMP_SGE)
  | CV_ICmpInst Pred Op0 Op1 Parent =>
      let L := getLoopFor P Parent in
      let LHS := getSCEVAtScope P Op0 L in
      let RHS := getSCEVAtScope P Op1 L in
      let Pred := if inverted then getInversePredicate Pred else Pred in
      Ret (mkComparison LHS RHS Pred)
  | CV_other => Abort
  end.

(** The while loop of [buildCondition]. *)
Fixpoint buildCondition_walk (BB : BasicBlock) (EntryNode : DomTreeNode)
    (BBNode : DomTreeNode) (Cond : BBCond) {struct BBNode} : outcome BBCond :=
  if DomTreeNode_ptr_eqb BBNode EntryNode then Ret Cond
  else
    match BBNode with
    | DTNode CurBB None => Abort
    | DTNode CurBB (Some BBNode) =>
        if PDT_dominates P CurBB (getBlock BBNode)
        then buildCondition_walk BB EntryNode BBNode Cond
        else
          match getTerminator P (getBlock BBNode) with
          | Term_other => Abort
          | Br_unconditional _ => buildCondition_walk BB EntryNode BBNode Cond
          | Br_conditional Condition _ Succ1 =>
              (* Is BB on the ELSE side of the branch? *)
              let inverted := DT_dominates P Succ1 BB in
              Cmp <- buildAffineCondition Condition inverted ;;
              buildCondition_walk BB EntryNode BBNode (Cond ++ [Cmp])
          end
    end.

Definition BBConds_set (m : BasicBlock -> option BBCond) (k : BasicBlock) (v : BBCond)
  : BasicBlock -> option BBCond :=
  fun b => if BasicBlock_eqb b k then Some v else m b.

Definition buildCondition (BB RegionEntry : BasicBlock) (BBConds_ : BasicBlock -> option BBCond)
  : outcome (BasicBlock -> option BBCond) :=
  match DT_getNode P BB, DT_getNode P RegionEntry with
  | Some BBNode, Some EntryNode =>
      Cond <- buildCondition_walk BB EntryNode BBNode [] ;;
      match Cond with
      | [] => Ret BBConds_
      | _ => Ret (BBConds_set BBConds_ BB Cond)
      end
  | _, _ => Abort
  end.

End TempScopInfo.

Unset Implicit Arguments.

(** * Specifications

    Definitions that follow the prose of the specification, to be compared
    with the functions above. *)

(** ** Branch conditions of a block (TempScopInfo) *)

(** The walk up the dominator tree from a node to the region entry: each
    block met on the way, paired with the block of its immediate dominator.
    [None] when the root is reached without meeting the entry. *)
Fixpoint dominator_walk (EntryNode BBNode : DomTreeNode) {struct BBNode}
  : option (list (BasicBlock * BasicBlock)) :=
  if DomTreeNode_ptr_eqb BBNode EntryNode then Some []
  else
    match BBNode with
    | DTNode CurBB None => None
    | DTNode CurBB (Some N) =>
        option_map (cons (CurBB, getBlock N)) (dominator_walk EntryNode N)
    end.

(** What one step of the walk contributes for the block [BB]: nothing when
    the current block post-dominates its immediate dominator or when the
    dominator ends in an unconditional branch, and otherwise the comparison of
    the dominator's conditional branch, inverted when the else-successor
    dominates [BB]. *)
Definition branch_condition (P : Passes) (BB : BasicBlock) (step : BasicBlock * BasicBlock)
  : outcome (list Comparison) :=
  if PDT_dominates P (fst step) (snd step) then Ret []
  else
    match getTerminator P (snd step) with
    | Term_other => Abort
    | Br_unconditional _ => Ret []
    | Br_conditional Condition _ Succ1 =>
        Cmp <- buildAffineCondition P Condition (DT_dominates P Succ1 BB) ;; Ret [Cmp]
    end.

Fixpoint conditions_of_walk (P : Passes) (BB : BasicBlock) (steps : list (BasicBlock * BasicBlock))
  : outcome BBCond :=
  match steps with
  | [] => Ret []
  | s :: rest =>
      c <- branch_condition P BB s ;;
      cs <- conditions_of_walk P BB rest ;;
      Ret (c ++ cs)
  end.

Definition recorded_conditions (P : Passes) (BB RegionEntry : BasicBlock)
    (BBConds_ : BasicBlock -> option BBCond) : outcome (BasicBlock -> option BBCond) :=
  match DT_getNode P BB, DT_getNode P RegionEntry with
  | Some BBNode, Some EntryNode =>
      match dominator_walk EntryNode BBNode with
      | None => Abort
      | Some steps =>
          Cond <- conditions_of_walk P BB steps ;;
          match Cond with
          | [] => Ret BBConds_
          | _ => Ret (BBConds_set BBConds_ BB Cond)
          end
      end
  | _, _ => Abort
  end.

(** * Facts *)

(** ** TempScopInfo: branch conditions *)

Section DomTreeNode_induction.
Variable Q : DomTreeNode -> Prop.
Hypothesis Hroot : forall b, Q (DTNode b None).
Hypothesis Hstep : forall b n, Q n -> Q (DTNode b (Some n)).

Fixpoint DomTreeNode_chain_ind (n : DomTreeNode) : Q n :=
  match n with
  | DTNode b None => Hroot b
  | DTNode b (Some m) => Hstep b m (DomTreeNode_chain_ind m)
  end.
End DomTreeNode_induction.

Lemma bindO_assoc {A B C} (m : outcome A) (f : A -> outcome B) (g : B -> outcome C) :
  bindO (bindO m f) g = bindO m (fun a => bindO (f a) g).
Proof. destruct m; reflexivity. Qed.

Lemma buildCondition_walk_acc (P : Passes) (BB : BasicBlock) (EntryNode BBNode : DomTreeNode) :
  forall Cond,
    buildCondition_walk P BB EntryNode BBNode Cond =
    match dominator_walk EntryNode BBNode with
    | None => Abort
    | Some steps => cs <- conditions_of_walk P BB steps ;; Ret (Cond ++ cs)
    end.
Proof.
  induction BBNode as [b | b n IH] using DomTreeNode_chain_ind; intros Cond; simpl.
  - destruct (DomTreeNode_ptr_eqb (DTNode b None) EntryNode); simpl;
      [rewrite app_nil_r|]; reflexivity.
  - destruct (DomTreeNode_ptr_eqb (DTNode b (Some n)) EntryNode); simpl.
    { rewrite app_nil_r; reflexivity. }
    assert (Hskip : forall c, buildCondition_walk P BB EntryNode n (Cond ++ c) =
              match option_map (cons (b, getBlock n)) (dominator_walk EntryNode n) with
              | Some steps =>
                  match steps with
                  | [] => Abort
                  | _ :: rest => cs <- conditions_of_walk P BB rest ;; Ret (Cond ++ c ++ cs)
                  end
              | None => Abort
              end).
    { intros c. rewrite IH. destruct (dominator_walk EntryNode n) as [steps|]; simpl; [|reflexivity].
      destruct (conditions_of_walk P BB steps); simpl; [reflexivity|].
      rewrite app_assoc. reflexivity. }
    destruct (PDT_dominates P b (getBlock n)) eqn:Hpdt.
    + rewrite <- (app_nil_r Cond) at 1. rewrite Hskip.
      destruct (dominator_walk EntryNode n) as [steps|]; simpl; [|reflexivity].
      unfold branch_condition; simpl. rewrite Hpdt; simpl.
      destruct (conditions_of_walk P BB steps); reflexivity.
    + destruct (getTerminator P (getBlock n)) as [s | c s0 s1 |] eqn:Hterm.
      * rewrite <- (app_nil_r Cond) at 1. rewrite Hskip.
        destruct (dominator_walk EntryNode n) as [steps|]; simpl; [|reflexivity].
        unfold branch_condition; simpl. rewrite Hpdt, Hterm; simpl.
        destruct (conditions_of_walk P BB steps); reflexivity.
      * destruct (buildAffineCondition P c (DT_dominates P s1 BB)) as [|cmp] eqn:Hcmp; simpl.
        -- destruct (dominator_walk EntryNode n) as [steps|]; simpl; [|reflexivity].
           unfold branch_condition; simpl. rewrite Hpdt, Hterm, Hcmp; reflexivity.
        -- rewrite Hskip.
           destruct (dominator_walk EntryNode n) as [steps|]; simpl; [|reflexivity].
           unfold branch_condition; simpl. rewrite Hpdt, Hterm, Hcmp; simpl.
           destruct (conditions_of_walk P BB steps); reflexivity.
      * destruct (dominator_walk EntryNode n) as [steps|]; simpl; [|reflexivity].
        unfold branch_condition; simpl. rewrite Hpdt, Hterm; reflexivity.
Qed.

(** C8.  The conditions [buildCondition] records for a block are those of
    the walk up the dominator tree from the block to the region entry: one
    comparison for each conditional branch of an immediate dominator, none
    for a dominator that the current block post-dominates, in the order of
    the walk; and the comparison of an integer compare carries the inverse
    predicate exactly when the else-successor of the branch dominates the
    block. *)
Theorem buildCondition_records_walk :
  forall (P : Passes) (BB RegionEntry : BasicBlock) (BBConds_ : BasicBlock -> option BBCond),
    buildCondition P BB RegionEntry BBConds_ = recorded_conditions P BB RegionEntry BBConds_
    /\ (forall Pred Op0 Op1 Parent inverted,
          buildAffineCondition P (CV_ICmpInst Pred Op0 Op1 Parent) inverted =
          Ret (mkComparison (getSCEVAtScope P Op0 (getLoopFor P Parent))
                            (getSCEVAtScope P Op1 (getLoopFor P Parent))
                            (if inverted then getInversePredicate Pred else Pred))).
Proof.
  intros P BB RegionEntry m. split; [|reflexivity].
  unfold buildCondition, recorded_conditions.
  destruct (DT_getNode P BB) as [BBNode|]; [|reflexivity].
  destruct (DT_getNode P RegionEntry) as [EntryNode|]; [|reflexivity].
  rewrite buildCondition_walk_acc.
  destruct (dominator_walk EntryNode BBNode) as [steps|]; [|reflexivity].
  destruct (conditions_of_walk P BB steps); reflexivity.
Qed.


(** ** isl: membership in the sets and maps that are built *)

(** The values a piecewise expression takes at a point, as
    (numerator, denominator): one for each piece the point lies in. *)
Definition pieces_at (rho : Isl.valuation) (x : Isl.point) (p : Isl.pieces) : list (Z * Z) :=
  map (fun da => (Isl.aff_num rho x (snd da), Isl.aff_den (snd da)))
      (filter (fun da => Isl.bset_mem rho x (fst da)) p).

Definition pw_aff_at (rho : Isl.valuation) (x : Isl.point) (pa : Isl.pw_aff) : list (Z * Z) :=
  pieces_at rho x (Isl.pa_pieces pa).

(** Comparison of two quotients with positive denominators. *)
Definition quot_cmp (c : Isl.cmp) (u v : Z * Z) : bool :=
  Isl.cmp_holds c (fst u * snd v) (fst v * snd u).

Lemma set_mem_intersect rho x s1 s2 :
  Isl.set_mem rho x (Isl.set_intersect s1 s2) = Isl.set_mem rho x s1 && Isl.set_mem rho x s2.
Proof. reflexivity. Qed.

Lemma set_mem_universe rho x sp : Isl.set_mem rho x (Isl.set_universe sp) = true.
Proof. reflexivity. Qed.

Lemma set_mem_set_tuple_name rho x s n :
  Isl.set_mem rho x (Isl.set_set_tuple_name s n) = Isl.set_mem rho x s.
Proof. reflexivity. Qed.

Lemma set_mem_align_params rho x s model :
  Isl.set_mem rho x (Isl.set_align_params s model) = Isl.set_mem rho x s.
Proof. reflexivity. Qed.

Lemma existsb_map {A B} (f : B -> bool) (g : A -> B) l :
  existsb f (map g l) = existsb (fun a => f (g a)) l.
Proof. induction l; simpl; [reflexivity | rewrite IHl; reflexivity]. Qed.

Lemma existsb_filter {A} (f g : A -> bool) l :
  existsb f (filter g l) = existsb (fun a => g a && f a) l.
Proof.
  induction l as [|a l IH]; simpl; [reflexivity|].
  destruct (g a); simpl; rewrite IH; reflexivity.
Qed.

Lemma existsb_flat_map {A B} (f : B -> bool) (g : A -> list B) l :
  existsb f (flat_map g l) = existsb (fun a => existsb f (g a)) l.
Proof.
  induction l as [|a l IH]; simpl; [reflexivity|].
  rewrite existsb_app, IH. reflexivity.
Qed.

Lemma existsb_ext_eq {A} (f g : A -> bool) l :
  (forall a, f a = g a) -> existsb f l = existsb g l.
Proof. intros H. induction l; simpl; [reflexivity | rewrite H, IHl; reflexivity]. Qed.

Lemma existsb_andb_const {A} (b : bool) (f : A -> bool) l :
  existsb (fun a => b && f a) l = b && existsb f l.
Proof.
  induction l as [|a l IH]; simpl; [rewrite andb_false_r; reflexivity|].
  rewrite IH. destruct b; reflexivity.
Qed.

(** A point is in [{x : pa1(x) c pa2(x)}] exactly when a value of [pa1] and
    a value of [pa2] at the point compare. *)
Lemma set_mem_pw_aff_cmp_set rho x c pa1 pa2 :
  Isl.set_mem rho x (Isl.pw_aff_cmp_set c pa1 pa2) =
  existsb (fun u => existsb (fun v => quot_cmp c u v) (pw_aff_at rho x pa2)) (pw_aff_at rho x pa1).
Proof.
  unfold Isl.set_mem, Isl.pw_aff_cmp_set, pw_aff_at, pieces_at, Isl.on_shared; simpl.
  rewrite Isl.bset_union_mem, existsb_flat_map, existsb_map, existsb_filter.
  apply existsb_ext_eq. intros [d1 a1]; simpl.
  rewrite existsb_map, existsb_map, existsb_filter. simpl.
  rewrite <- existsb_andb_const.
  apply existsb_ext_eq. intros [d2 a2]; simpl.
  unfold quot_cmp, Isl.aff_cmp; simpl.
  destruct (Isl.bset_mem rho x d1), (Isl.bset_mem rho x d2); reflexivity.
Qed.

(** ** ScopInfo: condition sets *)

(** The comparison of isl a supported predicate stands for. *)
Definition cmp_of_predicate (p : Predicate) : option Isl.cmp :=
  match p with
  | ICMP_EQ => Some Isl.CEq
  | ICMP_NE => Some Isl.CNe
  | ICMP_SLT => Some Isl.CLt
  | ICMP_SLE => Some Isl.CLe
  | ICMP_SGT => Some Isl.CGt
  | ICMP_SGE => Some Isl.CGe
  | _ => None
  end.

(** C7.  [buildConditionSet] translates the two operands and, for the
    predicates equal, not equal and the four signed orders, returns the set
    of the points where the two translations compare accordingly; for every
    other predicate, the unsigned orders among them, it aborts. *)
Theorem buildConditionSet_predicates :
  forall (A : Analyses) (stmt : ScopStmt) (Comp : Comparison) (St : ScopParams),
    match cmp_of_predicate (getPred Comp) with
    | Some c =>
        buildConditionSet A stmt Comp St =
        (l <- getPwAff A stmt (getLHS Comp) St ;;
         r <- getPwAff A stmt (getRHS Comp) (snd l) ;;
         Ret (lift2 (Isl.pw_aff_cmp_set c) (fst l) (fst r), snd r))
        /\ (forall L R rho x,
              Isl.set_mem rho x (Isl.pw_aff_cmp_set c L R) =
              existsb (fun u => existsb (fun v => quot_cmp c u v) (pw_aff_at rho x R))
                      (pw_aff_at rho x L))
    | None => buildConditionSet A stmt Comp St = Abort
    end
    /\ (forall p, In p [ICMP_ULT; ICMP_UGT; ICMP_ULE; ICMP_UGE] -> cmp_of_predicate p = None)
    /\ (forall p, In p [ICMP_EQ; ICMP_NE; ICMP_SLT; ICMP_SLE; ICMP_SGT; ICMP_SGE] ->
                  cmp_of_predicate p <> None).
Proof.
  intros A stmt Comp St. split; [|split].
  - unfold buildConditionSet.
    destruct (getPred Comp); simpl;
      try (split; [reflexivity | intros; apply set_mem_pw_aff_cmp_set]);
      destruct (getPwAff A stmt (getLHS Comp) St) as [|l]; simpl; try reflexivity;
      destruct (getPwAff A stmt (getRHS Comp) (snd l)); reflexivity.
  - intros p Hp. simpl in Hp. intuition (subst; reflexivity).
  - intros p Hp. simpl in Hp. intuition (subst; discriminate).
Qed.

(** ** ScopInfo: memory accesses that are not affine *)

(** C3.  For an access fact whose offset is flagged as not affine, the
    constructor of [MemoryAccess] returns, without translating anything and
    without touching the parameters of the Scop, an access whose relation is
    the universal relation from the iteration space of the statement to the
    one-dimensional space named after the base address, and whose kind is
    Read for a read and MayWrite otherwise. *)
Theorem MemoryAccess_nonaffine_universal :
  forall (A : Analyses) (ty : TypeKind) (base : Value) (off : SCEV) (size : Z)
         (Statement : ScopStmt) (St : ScopParams),
    let Access := mkIRAccess ty base off size false in
    exists MA rel,
      MemoryAccess_ctor A Access Statement St = Ret (MA, St)
      /\ MA_Type MA = (if isRead Access then Read else MayWrite)
      /\ MA_BaseAddr MA = base
      /\ AccessRelation MA = Some rel
      /\ Isl.map_nin rel = getNumIterators Statement
      /\ Isl.map_nout rel = 1%nat
      /\ Isl.map_in_name rel = Some (BaseName Statement)
      /\ Isl.map_out_name rel = Some (String.append "MemRef_" (makeIslCompatible (val_operand base)))
      /\ Isl.map_params rel = []
      /\ forall rho x y,
           Isl.map_mem rho x y rel =
           (length x =? getNumIterators Statement)%nat && (length y =? 1)%nat.
Proof.
  intros A ty base off size Statement St Access.
  eexists. eexists. unfold MemoryAccess_ctor. simpl.
  split; [reflexivity|]. simpl.
  split; [destruct (isRead Access); reflexivity|].
  repeat (split; [reflexivity|]).
  intros rho x y. unfold Isl.map_mem; simpl. rewrite andb_true_r. reflexivity.
Qed.

(** ** ScopInfo: the scattering of a statement *)

Definition map_same_space (m m' : Isl.map) : Prop :=
  Isl.map_params m' = Isl.map_params m /\ Isl.map_nin m' = Isl.map_nin m
  /\ Isl.map_nout m' = Isl.map_nout m /\ Isl.map_in_name m' = Isl.map_in_name m
  /\ Isl.map_out_name m' = Isl.map_out_name m.

Lemma map_same_space_refl m : map_same_space m m.
Proof. repeat split. Qed.

Lemma map_same_space_trans m1 m2 m3 :
  map_same_space m1 m2 -> map_same_space m2 m3 -> map_same_space m1 m3.
Proof. unfold map_same_space. intuition congruence. Qed.

(** A loop each of whose steps adds one constraint to a map. *)
Lemma forO_constrain (step : nat -> isl_map -> outcome isl_map) (c : nat -> Isl.bmap) idx :
  forall m,
    (forall i m0, In i idx -> map_same_space m m0 ->
                  step i (Some m0) = Ret (Some (Isl.map_constrain m0 (c i)))) ->
    exists m', forO idx step (Some m) = Ret (Some m')
               /\ map_same_space m m'
               /\ forall ps rho x y,
                    Isl.bmap_mem ps rho x y (Isl.map_body m') =
                    Isl.bmap_mem ps rho x y (Isl.map_body m)
                    && forallb (fun i => Isl.bmap_mem ps rho x y (c i)) idx.
Proof.
  induction idx as [|i idx IH]; intros m Hstep; simpl.
  - exists m. split; [reflexivity|]. split; [apply map_same_space_refl|].
    intros. rewrite andb_true_r. reflexivity.
  - rewrite (Hstep i m (or_introl eq_refl) (map_same_space_refl m)). simpl.
    destruct (IH (Isl.map_constrain m (c i))) as [m' [E [Hs Hm]]].
    { intros j m0 Hj Hs0. apply Hstep; [right; exact Hj|].
      eapply map_same_space_trans; [|exact Hs0]. repeat split. }
    exists m'. split; [exact E|]. split.
    { eapply map_same_space_trans; [|exact Hs]. repeat split. }
    intros ps rho x y. rewrite Hm. simpl. rewrite andb_assoc. reflexivity.
Qed.

Lemma isl_map_equate_in_range m t1 p1 t2 p2 :
  (p1 < Isl.map_dim m t1)%nat -> (p2 < Isl.map_dim m t2)%nat ->
  isl_map_equate (Some m) t1 p1 t2 p2 = Ret (Some (Isl.map_constrain m (Isl.MEquate t1 p1 t2 p2))).
Proof.
  intros H1 H2. unfold isl_map_equate, Isl.map_equate.
  apply Nat.ltb_lt in H1, H2. rewrite H1, H2. reflexivity.
Qed.

Lemma isl_map_fix_si_in_range m t p v :
  (p < Isl.map_dim m t)%nat ->
  isl_map_fix_si (Some m) t p v = Ret (Some (Isl.map_constrain m (Isl.MFix t p v))).
Proof.
  intros H. unfold isl_map_fix_si, Isl.map_fix_si.
  apply Nat.ltb_lt in H. rewrite H. reflexivity.
Qed.

Lemma nth_error_length_Some {T} (l : list T) i :
  (i < length l)%nat -> exists v, nth_error l i = Some v.
Proof.
  intros H. destruct (nth_error l i) eqn:E; [eauto|].
  apply nth_error_None in E. lia.
Qed.

Lemma has_named_params_map_Some l : Isl.has_named_params (map Some l) = true.
Proof. induction l; simpl; auto. Qed.

Lemma named_map_Some l : Isl.named (map Some l) = l.
Proof. induction l; simpl; congruence. Qed.

Lemma forallb_seq_iff (f : nat -> bool) a n :
  forallb f (seq a n) = true <-> forall i, (a <= i < a + n)%nat -> f i = true.
Proof.
  rewrite forallb_forall. split; intros H i Hi; apply H; apply in_seq; exact Hi.
Qed.

Lemma unsigned_of_small n : Z.of_nat n < 2 ^ 32 -> unsigned_of n = n.
Proof.
  intros H. unfold unsigned_of, unsigned_wrap. rewrite Z.mod_small by lia. apply Nat2Z.id.
Qed.

Lemma unsigned_of_le n : (unsigned_of n <= n)%nat.
Proof.
  unfold unsigned_of, unsigned_wrap.
  assert (H : 0 <= Z.of_nat n mod 2 ^ 32 <= Z.of_nat n).
  { split; [apply Z.mod_pos_bound; lia | apply Z.mod_le; lia]. }
  lia.
Qed.

Lemma int_of_unsigned_small c : 0 <= c < 2 ^ 31 -> int_of_unsigned c = c.
Proof.
  intros H. unfold int_of_unsigned, unsigned_wrap. cbv zeta.
  rewrite Z.mod_small by lia.
  destruct (c <? 2 ^ 31) eqn:E; [reflexivity|]. apply Z.ltb_ge in E. lia.
Qed.

(** The scattering [buildScattering] builds when its number of dimensions
    fits an [unsigned]: what it relates, whatever the counters are.  A
    counter reaches the relation as the [int] it is passed for. *)
Lemma buildScattering_relation stmt D ctx (Scatter : list Z) :
  length Scatter = (D + 1)%nat ->
  (getNumIterators stmt <= D)%nat ->
  Z.of_nat (2 * D + 1) < 2 ^ 32 ->
  exists m,
    buildScattering stmt D (isl_set_get_space (Some ctx)) Scatter = Ret (Some m)
    /\ Isl.map_nout m = (2 * D + 1)%nat
    /\ Isl.map_nin m = getNumIterators stmt
    /\ forall ps rho x y,
         (length x =? Isl.map_nin m)%nat && (length y =? Isl.map_nout m)%nat
         && Isl.bmap_mem ps rho x y (Isl.map_body m) = true <->
         (length x = getNumIterators stmt
          /\ length y = (2 * D + 1)%nat
          /\ (forall i, (i < getNumIterators stmt)%nat ->
                        nth_error y (2 * i + 1) = nth_error x i)
          /\ (forall i, (i <= getNumIterators stmt)%nat ->
                        nth_error y (2 * i) = option_map int_of_unsigned (nth_error Scatter i))
          /\ (forall j, (2 * getNumIterators stmt < j < 2 * D + 1)%nat ->
                        nth_error y j = Some 0)).
Proof.
  intros Hlen Hnb HD.
  unfold buildScattering.
  set (nb := getNumIterators stmt) in *.
  rewrite (unsigned_of_small (D * 2 + 1)) by lia.
  rewrite (unsigned_of_small (nb + 1)) by lia.
  rewrite (unsigned_of_small (2 * nb + 1)) by lia.
  set (m0 := Isl.map_universe _).
  assert (Hin0 : Isl.map_nin m0 = nb) by reflexivity.
  assert (Hout0 : Isl.map_nout m0 = (D * 2 + 1)%nat) by reflexivity.
  assert (Hbody0 : Isl.map_body m0 = Isl.MUniv) by reflexivity.
  clearbody m0.
  (* Loop dimensions. *)
  destruct (@forO_constrain
              (fun i s => isl_map_equate s Isl.isl_dim_out (unsigned_of (2 * i + 1))
                                         Isl.isl_dim_in i)
              (fun i => Isl.MEquate Isl.isl_dim_out (2 * i + 1) Isl.isl_dim_in i)
              (seq 0 nb) m0) as [m1 [E1 [S1 M1]]].
  { intros i m' Hi [_ [Hi' [Ho' _]]]. apply in_seq in Hi.
    rewrite (unsigned_of_small (2 * i + 1)) by lia.
    apply isl_map_equate_in_range; simpl; lia. }
  rewrite E1; cbn [bindO].
  (* Constant dimensions. *)
  destruct (@forO_constrain
              (fun i s => match nth_error Scatter i with
                          | Some c => isl_map_fix_si s Isl.isl_dim_out (unsigned_of (2 * i))
                                                     (int_of_unsigned c)
                          | None => Abort
                          end)
              (fun i => Isl.MFix Isl.isl_dim_out (2 * i) (int_of_unsigned (nth i Scatter 0)))
              (seq 0 (nb + 1)) m1) as [m2 [E2 [S2 M2]]].
  { intros i m' Hi [_ [_ [Ho' _]]]. apply in_seq in Hi.
    destruct (nth_error_length_Some Scatter i) as [c Hc]; [lia|].
    rewrite Hc. rewrite (nth_error_nth _ _ _ Hc).
    destruct S1 as [_ [_ [Ho1 _]]].
    rewrite (unsigned_of_small (2 * i)) by lia.
    apply isl_map_fix_si_in_range; simpl; lia. }
  rewrite E2; cbn [bindO].
  (* Fill scattering dimensions. *)
  destruct (@forO_constrain
              (fun i s => isl_map_fix_si s Isl.isl_dim_out i 0)
              (fun i => Isl.MFix Isl.isl_dim_out i 0)
              (seq (2 * nb + 1) (D * 2 + 1 - (2 * nb + 1))) m2) as [m3 [E3 [S3 M3]]].
  { intros i m' Hi [_ [_ [Ho' _]]]. apply in_seq in Hi.
    destruct S1 as [_ [_ [Ho1 _]]]. destruct S2 as [_ [_ [Ho2 _]]].
    apply isl_map_fix_si_in_range; simpl; lia. }
  rewrite E3; cbn [bindO].
  cbn [isl_set_get_space option_map isl_map_align_params Isl.set_get_space Isl.sp_params].
  rewrite has_named_params_map_Some.
  eexists. split; [reflexivity|].
  pose proof (map_same_space_trans _ _ _ S1 (map_same_space_trans _ _ _ S2 S3)) as [Hp [Hi [Ho _]]].
  cbn [Isl.map_nin Isl.map_nout Isl.map_align_params]. split; [lia|]. split; [congruence|].
  intros ps rho x y.
  cbn [Isl.map_nin Isl.map_nout Isl.map_params Isl.map_body Isl.map_align_params].
  rewrite Hi, Ho, Hin0, Hout0, M3, M2, M1, Hbody0. cbn [Isl.bmap_mem andb].
  rewrite !andb_true_iff, !Nat.eqb_eq, !forallb_seq_iff.
  split.
  - intros [[Hx Hy] [[He Hc] Hz]].
    split; [exact Hx|]. split; [lia|]. split; [|split].
    + intros i Hlt. specialize (He i ltac:(lia)). cbn [Isl.bmap_mem Isl.coord] in He.
      destruct (nth_error y (2 * i + 1)) as [u|] eqn:Eu; [|discriminate].
      destruct (nth_error x i) as [v|] eqn:Ev; [|discriminate].
      apply Z.eqb_eq in He. congruence.
    + intros i Hle. specialize (Hc i ltac:(lia)). cbn [Isl.bmap_mem Isl.coord] in Hc.
      destruct (nth_error y (2 * i)) as [u|] eqn:Eu; [|discriminate].
      apply Z.eqb_eq in Hc. subst u.
      destruct (nth_error_length_Some Scatter i) as [c Hs]; [lia|].
      rewrite Hs. simpl. rewrite (nth_error_nth _ _ _ Hs). reflexivity.
    + intros j Hj. specialize (Hz j ltac:(lia)). cbn [Isl.bmap_mem Isl.coord] in Hz.
      destruct (nth_error y j) as [u|] eqn:Eu; [|discriminate].
      apply Z.eqb_eq in Hz. congruence.
  - intros [Hx [Hy [He [Hc Hz]]]].
    split; [split; [exact Hx | lia]|]. split; [split|].
    + intros i Hlt. cbn [Isl.bmap_mem Isl.coord]. rewrite (He i ltac:(lia)).
      destruct (nth_error_length_Some x i) as [v Hv]; [lia|].
      rewrite Hv. apply Z.eqb_refl.
    + intros i Hle. cbn [Isl.bmap_mem Isl.coord]. rewrite (Hc i ltac:(lia)).
      destruct (nth_error_length_Some Scatter i) as [c Hs]; [lia|].
      rewrite Hs. simpl. rewrite (nth_error_nth _ _ _ Hs). apply Z.eqb_refl.
    + intros j Hj. cbn [Isl.bmap_mem Isl.coord]. rewrite (Hz j ltac:(lia)). reflexivity.
Qed.

(** C1.  The scattering [buildScattering] builds for a statement with
    [NbIterators] iterators, not more than the maximal loop depth of the
    Scop, given the vector [Scatter] of [MaxLoopDepth + 1] counters.  The
    number [2 * MaxLoopDepth + 1] of the dimensions fits the [unsigned] it is
    computed in, and every counter the [int] it is passed for.  The
    scattering has [2 * MaxLoopDepth + 1] output dimensions whatever
    [NbIterators] is, and a pair of tuples is in it exactly when output [2i+1]
    equals input [i] for every iterator [i], output [2i] is the counter
    [Scatter[i]] for every [i <= NbIterators], and every output beyond
    [2 * NbIterators] is 0. *)
Theorem buildScattering_dimensions :
  forall (stmt : ScopStmt) (parent : Scop) (ctx : Isl.set) (Scatter : list Z),
    Context parent = Some ctx ->
    length Scatter = (MaxLoopDepth parent + 1)%nat ->
    (getNumIterators stmt <= MaxLoopDepth parent)%nat ->
    Z.of_nat (2 * MaxLoopDepth parent + 1) < 2 ^ 32 ->
    Forall (fun c => 0 <= c < 2 ^ 31) Scatter ->
    exists m,
      buildScattering stmt (MaxLoopDepth parent) (getParamSpace parent) Scatter = Ret (Some m)
      /\ Isl.map_nout m = (2 * MaxLoopDepth parent + 1)%nat
      /\ Isl.map_nin m = getNumIterators stmt
      /\ forall rho x y,
           Isl.map_mem rho x y m = true <->
           (length x = getNumIterators stmt
            /\ length y = (2 * MaxLoopDepth parent + 1)%nat
            /\ (forall i, (i < getNumIterators stmt)%nat ->
                          nth_error y (2 * i + 1) = nth_error x i)
            /\ (forall i, (i <= getNumIterators stmt)%nat ->
                          nth_error y (2 * i) = nth_error Scatter i)
            /\ (forall j, (2 * getNumIterators stmt < j < 2 * MaxLoopDepth parent + 1)%nat ->
                          nth_error y j = Some 0)).
Proof.
  intros stmt parent ctx Scatter Hctx Hlen Hnb HD Hc.
  destruct (buildScattering_relation stmt (MaxLoopDepth parent) ctx Scatter Hlen Hnb HD)
    as [m [E [Ho [Hi Hm]]]].
  exists m. unfold getParamSpace. rewrite Hctx.
  split; [exact E|]. split; [exact Ho|]. split; [exact Hi|].
  assert (Hint : forall i, option_map int_of_unsigned (nth_error Scatter i) = nth_error Scatter i).
  { intros i. destruct (nth_error Scatter i) as [c|] eqn:Ec; [|reflexivity].
    cbn [option_map]. rewrite Forall_forall in Hc.
    rewrite (int_of_unsigned_small c); [reflexivity|].
    apply Hc. eapply nth_error_In. exact Ec. }
  intros rho x y. unfold Isl.map_mem. rewrite (Hm (Isl.map_params m) rho x y).
  split; intros [H1 [H2 [H3 [H4 H5]]]]; (split; [exact H1|]; split; [exact H2|];
    split; [exact H3|]; split; [|exact H5]); intros i Hle.
  - rewrite <- Hint. apply H4. exact Hle.
  - rewrite Hint. apply H4. exact Hle.
Qed.

(** ** ScopInfo: the translation of a parameter *)

(** The expression a parameter stands for in an affine expression: one
    piece, defined everywhere, whose only term is the parameter [Id] with
    coefficient 1, over the space with this one parameter. *)
Definition param_pw_aff (Id : Isl.id) (n : nat) : Isl.pw_aff :=
  Isl.mkPwAff [Id] n [(Isl.BUniv, Isl.mkAff 1 0 [(Id, 1)] (repeat 0 n))].

Lemma dot_repeat_0 n x : Isl.dot (repeat 0 n) x = 0.
Proof.
  revert x. induction n as [|n IH]; intros [|v x]; simpl; try reflexivity.
  rewrite IH. reflexivity.
Qed.

Lemma visitParameter_param_pw_aff n Id :
  visitParameter n Id = Ret (Some (param_pw_aff Id n)).
Proof. reflexivity. Qed.

Lemma visitUnknown_param_pw_aff n V :
  visitUnknown n V = Ret (Some (param_pw_aff (Isl.mkId (val_name V) (Isl.UserValue V)) n)).
Proof. reflexivity. Qed.

Lemma visit_unfold A St n scev :
  visit A St n scev =
  match getIdForParam St scev with
  | Some Id => visitParameter n Id
  | None =>
      match scev with
      | scConstant V => visitConstant n V
      | scTruncate _ => Abort
      | scZeroExtend _ => Abort
      | scSignExtend Op => visit A St n Op
      | scAddExpr Ops => visitAddExpr (map (visit A St n) Ops)
      | scMulExpr Ops => visitMulExpr (map (visit A St n) Ops)
      | scUDivExpr _ _ => Abort
      | scAddRecExpr Ops L => visitAddRecExpr A n (map (visit A St n) Ops) L
      | scSMaxExpr Ops => visitSMaxExpr (map (visit A St n) Ops)
      | scUMaxExpr _ => Abort
      | scUnknown V => visitUnknown n V
      | scCouldNotCompute => Abort
      end
  end.
Proof. destruct scev; reflexivity. Qed.

Lemma ParamIds_find_head m k d : ParamIds_find ((k, d) :: m) k = Some d.
Proof. simpl. rewrite SCEV_eqb_refl. reflexivity. Qed.

Lemma getIdForParam_user St scev Id :
  getIdForParam St scev = Some Id -> Isl.id_user Id = Isl.UserSCEV scev.
Proof.
  unfold getIdForParam. destruct (ParamIds_find (ParameterIds St) scev); [|discriminate].
  intros [= <-]. reflexivity.
Qed.

(** ** ScopInfo: products *)

(** A translated factor that is a constant other than 0: it has a piece,
    and each piece is a constant expression with a non-zero constant. *)
Definition nonzero_constant (pa : Isl.pw_aff) : bool :=
  match Isl.pa_pieces pa with
  | [] => false
  | _ => forallb (fun da => Isl.aff_is_cst (snd da) && negb (Isl.aff_cst (snd da) =? 0))
                 (Isl.pa_pieces pa)
  end.

(** The product [isl_aff_mul] returns when it does not fail. *)
Definition aff_mul_result (a b : Isl.aff) : Isl.aff :=
  if Isl.aff_is_cst b then
    Isl.mkAff (Isl.aff_den a * Isl.aff_den b) (Isl.aff_cst b * Isl.aff_cst a)
              (Isl.par_scale (Isl.aff_cst b) (Isl.aff_par a))
              (map (Z.mul (Isl.aff_cst b)) (Isl.aff_in a))
  else
    Isl.mkAff (Isl.aff_den b * Isl.aff_den a) (Isl.aff_cst a * Isl.aff_cst b)
              (Isl.par_scale (Isl.aff_cst a) (Isl.aff_par b))
              (map (Z.mul (Isl.aff_cst a)) (Isl.aff_in b)).

Lemma aff_mul_one_constant a b :
  Isl.aff_is_cst a || Isl.aff_is_cst b = true -> Isl.aff_mul a b = Ret (aff_mul_result a b).
Proof.
  unfold Isl.aff_mul, aff_mul_result. intros H.
  destruct (Isl.aff_is_cst b); [reflexivity|].
  rewrite orb_false_r in H. rewrite H. reflexivity.
Qed.

Lemma forallb_par_scale k l :
  forallb (fun ic : Isl.id * Z => snd ic =? 0) (Isl.par_scale k l) =
  (k =? 0) || forallb (fun ic : Isl.id * Z => snd ic =? 0) l.
Proof.
  induction l as [|[i c] l IH]; simpl; [rewrite orb_true_r; reflexivity|].
  rewrite IH. destruct (Z.eqb_spec k 0) as [->|Hk]; simpl; [reflexivity|].
  destruct (Z.eqb_spec c 0) as [->|Hc].
  - rewrite Z.mul_0_r. reflexivity.
  - destruct (Z.eqb_spec (k * c) 0) as [E|E]; [|reflexivity]. nia.
Qed.

Lemma forallb_vec_scale k (l : list Z) :
  forallb (fun c => c =? 0) (map (Z.mul k) l) = (k =? 0) || forallb (fun c => c =? 0) l.
Proof.
  induction l as [|c l IH]; simpl; [rewrite orb_true_r; reflexivity|].
  rewrite IH. destruct (Z.eqb_spec k 0) as [->|Hk]; simpl; [reflexivity|].
  destruct (Z.eqb_spec c 0) as [->|Hc].
  - rewrite Z.mul_0_r. reflexivity.
  - destruct (Z.eqb_spec (k * c) 0) as [E|E]; [|reflexivity]. nia.
Qed.

(** Whether a product of two expressions, one of them constant, is
    constant. *)
Lemma aff_is_cst_mul_result a b :
  Isl.aff_is_cst (aff_mul_result a b) =
  if Isl.aff_is_cst b then (Isl.aff_cst b =? 0) || Isl.aff_is_cst a
  else (Isl.aff_cst a =? 0) || Isl.aff_is_cst b.
Proof.
  unfold aff_mul_result. destruct (Isl.aff_is_cst b) eqn:Eb.
  - unfold Isl.aff_is_cst; simpl. rewrite forallb_par_scale, forallb_vec_scale.
    destruct (Isl.aff_cst b =? 0); reflexivity.
  - unfold Isl.aff_is_cst; simpl. rewrite forallb_par_scale, forallb_vec_scale.
    destruct (Isl.aff_cst a =? 0); simpl; [reflexivity | exact Eb].
Qed.

Lemma sequence_map_Ret {T} (l : list T) : Isl.sequence (map Ret l) = Ret l.
Proof. induction l; simpl; [reflexivity | rewrite IHl; reflexivity]. Qed.

(** The pieces of a product of two piecewise expressions. *)
Definition pieces_mul (p1 p2 : Isl.pieces) : Isl.pieces :=
  Isl.on_shared (fun d a b => (d, aff_mul_result a b)) p1 p2.

Lemma on_shared_mul_Ret p1 p2 :
  (forall da1 da2, In da1 p1 -> In da2 p2 ->
                   Isl.aff_is_cst (snd da1) || Isl.aff_is_cst (snd da2) = true) ->
  Isl.on_shared (fun d a b => p <- Isl.aff_mul a b ;; Ret (d, p)) p1 p2 =
  map Ret (pieces_mul p1 p2).
Proof.
  unfold pieces_mul, Isl.on_shared. induction p1 as [|da1 p1 IH]; intros H; simpl; [reflexivity|].
  rewrite map_app, IH; [|intros; apply H; [right|]; assumption].
  f_equal. rewrite map_map. apply map_ext_in. intros da2 H2.
  rewrite aff_mul_one_constant; [reflexivity | apply H; [left; reflexivity | exact H2]].
Qed.

Lemma pw_aff_mul_one_constant pa1 pa2 :
  Isl.pw_aff_is_cst pa1 || Isl.pw_aff_is_cst pa2 = true ->
  Isl.pw_aff_mul pa1 pa2 =
  Ret (Isl.mkPwAff (Isl.merge_params (Isl.pa_params pa1) (Isl.pa_params pa2)) (Isl.pa_nin pa1)
                   (pieces_mul (Isl.pa_pieces pa1) (Isl.pa_pieces pa2))).
Proof.
  intros H. unfold Isl.pw_aff_mul. rewrite on_shared_mul_Ret, sequence_map_Ret; [reflexivity|].
  intros da1 da2 H1 H2. unfold Isl.pw_aff_is_cst in H.
  apply orb_true_iff in H. apply orb_true_iff. destruct H as [H|H];
    rewrite forallb_forall in H; [left; apply (H da1 H1) | right; apply (H da2 H2)].
Qed.

Lemma nonzero_constant_is_cst pa : nonzero_constant pa = true -> Isl.pw_aff_is_cst pa = true.
Proof.
  unfold nonzero_constant, Isl.pw_aff_is_cst. destruct (Isl.pa_pieces pa) as [|da l]; [discriminate|].
  intros H. rewrite forallb_forall in *. intros x Hx. specialize (H x Hx).
  apply andb_true_iff in H. apply H.
Qed.

Lemma nonzero_constant_pieces pa :
  nonzero_constant pa = true ->
  Isl.pa_pieces pa <> [] /\
  forall da, In da (Isl.pa_pieces pa) ->
             Isl.aff_is_cst (snd da) = true /\ Isl.aff_cst (snd da) <> 0.
Proof.
  unfold nonzero_constant. destruct (Isl.pa_pieces pa) as [|da0 l] eqn:E; [discriminate|].
  intros H. split; [discriminate|]. intros da Hda. rewrite forallb_forall in H.
  specialize (H da Hda). apply andb_true_iff in H. destruct H as [H1 H2].
  split; [exact H1|]. apply negb_true_iff in H2. apply Z.eqb_neq. exact H2.
Qed.

Lemma in_pieces_mul p1 p2 da :
  In da (pieces_mul p1 p2) <->
  exists da1 da2, In da1 p1 /\ In da2 p2 /\
                  da = (Isl.BAnd (fst da1) (fst da2), aff_mul_result (snd da1) (snd da2)).
Proof.
  unfold pieces_mul, Isl.on_shared. rewrite in_flat_map. split.
  - intros [da1 [H1 H]]. apply in_map_iff in H. destruct H as [da2 [E H2]].
    exists da1, da2. auto.
  - intros [da1 [da2 [H1 [H2 E]]]]. exists da1. split; [exact H1|].
    apply in_map_iff. exists da2. auto.
Qed.

Lemma pw_aff_is_cst_false pa :
  Isl.pw_aff_is_cst pa = false <->
  exists da, In da (Isl.pa_pieces pa) /\ Isl.aff_is_cst (snd da) = false.
Proof.
  unfold Isl.pw_aff_is_cst. split.
  - intros H. induction (Isl.pa_pieces pa) as [|da l IH]; [discriminate|].
    simpl in H. destruct (Isl.aff_is_cst (snd da)) eqn:E.
    + destruct (IH H) as [x [Hx Ex]]. exists x. split; [right; exact Hx | exact Ex].
    + exists da. split; [left; reflexivity | exact E].
  - intros [da [Hda E]]. destruct (forallb _ _) eqn:F; [|reflexivity].
    rewrite forallb_forall in F. rewrite (F da Hda) in E. discriminate.
Qed.

(** A constant other than 0 times a constant other than 0. *)
Lemma nonzero_constant_mul pa1 pa2 :
  nonzero_constant pa1 = true -> nonzero_constant pa2 = true ->
  exists p, Isl.pw_aff_mul pa1 pa2 = Ret p /\ nonzero_constant p = true.
Proof.
  intros H1 H2.
  rewrite pw_aff_mul_one_constant by (rewrite (nonzero_constant_is_cst _ H1); reflexivity).
  eexists. split; [reflexivity|].
  destruct (nonzero_constant_pieces _ H1) as [N1 C1].
  destruct (nonzero_constant_pieces _ H2) as [N2 C2].
  unfold nonzero_constant; simpl.
  destruct (pieces_mul (Isl.pa_pieces pa1) (Isl.pa_pieces pa2)) as [|q l] eqn:E.
  - exfalso. destruct (Isl.pa_pieces pa1) as [|a1 l1]; [congruence|].
    destruct (Isl.pa_pieces pa2) as [|a2 l2]; [congruence|]. discriminate.
  - rewrite <- E. apply forallb_forall. intros da Hda.
    apply in_pieces_mul in Hda. destruct Hda as [da1 [da2 [I1 [I2 ->]]]]. simpl.
    destruct (C1 da1 I1) as [K1 Z1]. destruct (C2 da2 I2) as [K2 Z2].
    rewrite aff_is_cst_mul_result, K2, K1, orb_true_r. simpl.
    unfold aff_mul_result. rewrite K2. simpl.
    apply negb_true_iff, Z.eqb_neq. nia.
Qed.

(** An expression that is not constant times a constant other than 0, and
    the other way round. *)
Lemma nonconstant_mul_constant pa1 pa2 :
  Isl.pw_aff_is_cst pa1 = false -> nonzero_constant pa2 = true ->
  exists p, Isl.pw_aff_mul pa1 pa2 = Ret p /\ Isl.pw_aff_is_cst p = false.
Proof.
  intros H1 H2.
  rewrite pw_aff_mul_one_constant
    by (rewrite (nonzero_constant_is_cst _ H2); apply orb_true_r).
  eexists. split; [reflexivity|].
  apply pw_aff_is_cst_false in H1. destruct H1 as [da1 [I1 K1]].
  destruct (nonzero_constant_pieces _ H2) as [N2 C2].
  destruct (Isl.pa_pieces pa2) as [|da2 l2] eqn:E2; [congruence|].
  apply pw_aff_is_cst_false. cbn [Isl.pa_pieces].
  exists (Isl.BAnd (fst da1) (fst da2), aff_mul_result (snd da1) (snd da2)). split.
  - apply in_pieces_mul. exists da1, da2. simpl. auto.
  - simpl. destruct (C2 da2 (or_introl eq_refl)) as [K2 Z2].
    rewrite aff_is_cst_mul_result, K2, K1, orb_false_r. apply Z.eqb_neq. exact Z2.
Qed.

Lemma constant_mul_nonconstant pa1 pa2 :
  nonzero_constant pa1 = true -> Isl.pw_aff_is_cst pa2 = false ->
  exists p, Isl.pw_aff_mul pa1 pa2 = Ret p /\ Isl.pw_aff_is_cst p = false.
Proof.
  intros H1 H2.
  rewrite pw_aff_mul_one_constant by (rewrite (nonzero_constant_is_cst _ H1); reflexivity).
  eexists. split; [reflexivity|].
  apply pw_aff_is_cst_false in H2. destruct H2 as [da2 [I2 K2]].
  destruct (nonzero_constant_pieces _ H1) as [N1 C1].
  destruct (Isl.pa_pieces pa1) as [|da1 l1] eqn:E1; [congruence|].
  apply pw_aff_is_cst_false. cbn [Isl.pa_pieces].
  exists (Isl.BAnd (fst da1) (fst da2), aff_mul_result (snd da1) (snd da2)). split.
  - apply in_pieces_mul. exists da1, da2. simpl. auto.
  - simpl. destruct (C1 da1 (or_introl eq_refl)) as [K1 Z1].
    rewrite aff_is_cst_mul_result, K2, orb_false_r. apply Z.eqb_neq. exact Z1.
Qed.

Definition translated (ps : list Isl.pw_aff) : list (outcome isl_pw_aff) :=
  map (fun p => Ret (Some p)) ps.

Lemma visitMulExpr_loop_constants ps : forall P rest,
  nonzero_constant P = true ->
  forallb nonzero_constant ps = true ->
  exists P', visitMulExpr_loop (Some P) (translated ps ++ rest) = visitMulExpr_loop (Some P') rest
             /\ nonzero_constant P' = true.
Proof.
  induction ps as [|c ps IH]; intros P rest HP Hps; simpl.
  - exists P. auto.
  - simpl in Hps. apply andb_true_iff in Hps. destruct Hps as [Hc Hps].
    rewrite (nonzero_constant_is_cst _ HP). simpl.
    destruct (nonzero_constant_mul _ _ HP Hc) as [p [E Hp]]. rewrite E. simpl.
    apply IH; assumption.
Qed.

Lemma visitMulExpr_loop_nonconstant ps : forall P rest,
  Isl.pw_aff_is_cst P = false ->
  forallb nonzero_constant ps = true ->
  exists P', visitMulExpr_loop (Some P) (translated ps ++ rest) = visitMulExpr_loop (Some P') rest
             /\ Isl.pw_aff_is_cst P' = false.
Proof.
  induction ps as [|c ps IH]; intros P rest HP Hps; simpl.
  - exists P. auto.
  - simpl in Hps. apply andb_true_iff in Hps. destruct Hps as [Hc Hps].
    rewrite HP, (nonzero_constant_is_cst _ Hc). simpl.
    destruct (nonconstant_mul_constant _ _ HP Hc) as [p [E Hp]]. rewrite E. simpl.
    apply IH; assumption.
Qed.

Lemma visitMulExpr_loop_second_nonconstant P pb rest :
  Isl.pw_aff_is_cst P = false -> Isl.pw_aff_is_cst pb = false ->
  visitMulExpr_loop (Some P) (Ret (Some pb) :: rest) = Ret None.
Proof. intros HP Hb. simpl. rewrite HP, Hb. reflexivity. Qed.

(** A product in which two factors are not constant, the factors before the
    second of them being constants other than 0, in terms of the translated
    factors. *)
Lemma visitMulExpr_two_nonconstant pcs1 pa pcs2 pb rest :
  forallb nonzero_constant pcs1 = true -> Isl.pw_aff_is_cst pa = false ->
  forallb nonzero_constant pcs2 = true -> Isl.pw_aff_is_cst pb = false ->
  visitMulExpr (translated pcs1 ++ Ret (Some pa) :: translated pcs2 ++ Ret (Some pb) :: rest)
  = Ret None.
Proof.
  intros H1 Ha H2 Hb. destruct pcs1 as [|c pcs1]; simpl.
  - destruct (visitMulExpr_loop_nonconstant pcs2 pa (Ret (Some pb) :: rest) Ha H2) as [P' [E HP']].
    rewrite E. apply visitMulExpr_loop_second_nonconstant; assumption.
  - simpl in H1. apply andb_true_iff in H1. destruct H1 as [Hc H1].
    destruct (visitMulExpr_loop_constants pcs1 c
                (Ret (Some pa) :: translated pcs2 ++ Ret (Some pb) :: rest) Hc H1)
      as [P [E HP]].
    rewrite E. simpl. rewrite (nonzero_constant_is_cst _ HP). simpl.
    destruct (constant_mul_nonconstant _ _ HP Ha) as [p [Em Hp]]. rewrite Em. simpl.
    destruct (visitMulExpr_loop_nonconstant pcs2 p (Ret (Some pb) :: rest) Hp H2) as [P' [E' HP']].
    rewrite E'. apply visitMulExpr_loop_second_nonconstant; assumption.
Qed.

(** C6, as the code has it.  A product that is not itself a parameter on
    record, two of whose factors translate to expressions that are not
    constant while the factors before the second of them translate to
    constants other than 0, has no affine translation: [visit] returns NULL.
    It does not abort, and the factors after the second one are not
    visited. *)
Theorem visit_product_of_nonconstants_is_null :
  forall (A : Analyses) (St : ScopParams) (n : nat)
         (cs1 : list SCEV) (a : SCEV) (cs2 : list SCEV) (b : SCEV) (rest : list SCEV)
         (pcs1 : list Isl.pw_aff) (pa : Isl.pw_aff) (pcs2 : list Isl.pw_aff) (pb : Isl.pw_aff),
    getIdForParam St (scMulExpr (cs1 ++ a :: cs2 ++ b :: rest)) = None ->
    map (visit A St n) cs1 = translated pcs1 -> forallb nonzero_constant pcs1 = true ->
    visit A St n a = Ret (Some pa) -> Isl.pw_aff_is_cst pa = false ->
    map (visit A St n) cs2 = translated pcs2 -> forallb nonzero_constant pcs2 = true ->
    visit A St n b = Ret (Some pb) -> Isl.pw_aff_is_cst pb = false ->
    visit A St n (scMulExpr (cs1 ++ a :: cs2 ++ b :: rest)) = Ret None.
Proof.
  intros A St n cs1 a cs2 b rest pcs1 pa pcs2 pb Hrec E1 H1 Ea Ha E2 H2 Eb Hb.
  rewrite visit_unfold, Hrec.
  rewrite map_app. simpl. rewrite map_app. simpl.
  rewrite E1, Ea, E2, Eb.
  apply visitMulExpr_two_nonconstant; assumption.
Qed.

(** *** Two unknown values, and their product *)

Definition ex_Analyses : Analyses :=
  mkAnalyses (fun _ => true) (fun L => Some L) (fun _ => []) (fun _ => None).

Definition ex_n : Value := mkValue 1 "n" "%n".
Definition ex_m : Value := mkValue 2 "m" "%m".
Definition ex_no_params : ScopParams := mkScopParams [] [].

(** The product [n * m] of two values not on record translates to NULL, the
    outcome of a call that returns; it does not abort. *)
Lemma visit_product_n_m_returns_null :
  visit ex_Analyses ex_no_params 0 (scMulExpr [scUnknown ex_n; scUnknown ex_m]) = Ret None
  /\ visit ex_Analyses ex_no_params 0 (scMulExpr [scUnknown ex_n; scUnknown ex_m]) <> Abort.
Proof. split; [reflexivity | discriminate]. Qed.

(** The translation of a constant outside every loop. *)
Definition ex_constant (v : Z) : Isl.pw_aff :=
  Isl.pw_aff_alloc (Isl.set_universe (Isl.space_set_alloc 0 0))
                   (Isl.aff_add_constant (Isl.aff_zero_on_domain 0) v).

(** The product [4 * n * 8 * m]. *)
Lemma visit_product_of_nonconstants_is_null_witness :
  visit ex_Analyses ex_no_params 0
        (scMulExpr ([scConstant (mkAPInt 64 4)] ++ scUnknown ex_n
                    :: [scConstant (mkAPInt 64 8)] ++ scUnknown ex_m :: [])) = Ret None.
Proof.
  apply (visit_product_of_nonconstants_is_null ex_Analyses ex_no_params 0%nat
           [scConstant (mkAPInt 64 4)] (scUnknown ex_n)
           [scConstant (mkAPInt 64 8)] (scUnknown ex_m) []
           [ex_constant 4] (param_pw_aff (Isl.mkId "n" (Isl.UserValue ex_n)) 0)
           [ex_constant 8] (param_pw_aff (Isl.mkId "m" (Isl.UserValue ex_m)) 0));
    reflexivity.
Defined.

(** ** ScopInfo: what every translation satisfies *)

(** The identifier [visitUnknown] makes for a value. *)
Definition value_id (V : Value) : Isl.id := Isl.mkId (val_name V) (Isl.UserValue V).

(** The unknown values [visit] can reach in an expression: those below no
    sub-expression that is a parameter on record. *)
Fixpoint unrecorded_unknowns (St : ScopParams) (scev : SCEV) {struct scev} : list Value :=
  match getIdForParam St scev with
  | Some _ => []
  | None =>
      match scev with
      | scUnknown V => [V]
      | scSignExtend Op => unrecorded_unknowns St Op
      | scAddExpr Ops => flat_map (unrecorded_unknowns St) Ops
      | scMulExpr Ops => flat_map (unrecorded_unknowns St) Ops
      | scAddRecExpr Ops _ => flat_map (unrecorded_unknowns St) Ops
      | scSMaxExpr Ops => flat_map (unrecorded_unknowns St) Ops
      | _ => []
      end
  end.

Lemma unrecorded_unknowns_unfold St scev :
  unrecorded_unknowns St scev =
  match getIdForParam St scev with
  | Some _ => []
  | None =>
      match scev with
      | scUnknown V => [V]
      | scSignExtend Op => unrecorded_unknowns St Op
      | scAddExpr Ops => flat_map (unrecorded_unknowns St) Ops
      | scMulExpr Ops => flat_map (unrecorded_unknowns St) Ops
      | scAddRecExpr Ops _ => flat_map (unrecorded_unknowns St) Ops
      | scSMaxExpr Ops => flat_map (unrecorded_unknowns St) Ops
      | _ => []
      end
  end.
Proof. destruct scev; reflexivity. Qed.

Section VisitInvariant.

Variable A : Analyses.
Variable St : ScopParams.
Variable n : nat.
Variable Q : Isl.pw_aff -> Prop.

Hypothesis Q_param : forall s Id, getIdForParam St s = Some Id -> Q (param_pw_aff Id n).
Hypothesis Q_const : forall V pa, visitConstant n V = Ret (Some pa) -> Q pa.
Hypothesis Q_iter : forall LAff, Q (Isl.pw_aff_from_aff (Isl.space_set_alloc 0 n) LAff).
Hypothesis Q_add : forall a b, Q a -> Q b -> Q (Isl.pw_aff_add a b).
Hypothesis Q_mul : forall a b p, Q a -> Q b -> Isl.pw_aff_mul a b = Ret p -> Q p.
Hypothesis Q_max : forall a b, Q a -> Q b -> Q (Isl.pw_aff_max a b).

(** The operand results that are not NULL satisfy [Q]. *)
Definition operands_ok (rs : list (outcome isl_pw_aff)) : Prop :=
  Forall (fun r => forall pa, r = Ret (Some pa) -> Q pa) rs.

Lemma visitAddExpr_loop_invariant rs : forall Sum pa,
  operands_ok rs ->
  visitAddExpr_loop Sum rs = Ret (Some pa) ->
  (forall s, Sum = Some s -> Q s) -> Q pa.
Proof.
  induction rs as [|r rs IH]; intros Sum pa Hrs E HS; simpl in E.
  - injection E as ->. apply HS. reflexivity.
  - inversion Hrs as [|? ? Hr Hrs']; subst.
    destruct r as [|Next]; [discriminate|]. simpl in E.
    apply (IH _ _ Hrs' E). intros s Es.
    destruct Sum as [s0|], Next as [nx|]; try discriminate. simpl in Es.
    injection Es as <-. apply Q_add; [apply HS | apply Hr]; reflexivity.
Qed.

Lemma visitSMaxExpr_loop_invariant rs : forall Max pa,
  operands_ok rs ->
  visitSMaxExpr_loop Max rs = Ret (Some pa) ->
  (forall s, Max = Some s -> Q s) -> Q pa.
Proof.
  induction rs as [|r rs IH]; intros Max pa Hrs E HS; simpl in E.
  - injection E as ->. apply HS. reflexivity.
  - inversion Hrs as [|? ? Hr Hrs']; subst.
    destruct r as [|Next]; [discriminate|]. simpl in E.
    apply (IH _ _ Hrs' E). intros s Es.
    destruct Max as [s0|], Next as [nx|]; try discriminate. simpl in Es.
    injection Es as <-. apply Q_max; [apply HS | apply Hr]; reflexivity.
Qed.

Lemma isl_pw_aff_mul_invariant a b p :
  (forall s, a = Some s -> Q s) -> (forall s, b = Some s -> Q s) ->
  isl_pw_aff_mul a b = Ret (Some p) -> Q p.
Proof.
  intros Ha Hb E. destruct a as [x|], b as [y|]; simpl in E; try discriminate.
  destruct (Isl.pw_aff_mul x y) as [|q] eqn:Em; [discriminate|]. simpl in E.
  injection E as <-. eapply Q_mul; [apply Ha | apply Hb | exact Em]; reflexivity.
Qed.

Lemma visitMulExpr_loop_invariant rs : forall Product pa,
  operands_ok rs ->
  visitMulExpr_loop Product rs = Ret (Some pa) ->
  (forall s, Product = Some s -> Q s) -> Q pa.
Proof.
  induction rs as [|r rs IH]; intros Product pa Hrs E HS; simpl in E.
  - injection E as ->. apply HS. reflexivity.
  - inversion Hrs as [|? ? Hr Hrs']; subst.
    destruct r as [|Next]; [discriminate|]. simpl in E.
    destruct (lnot (isl_pw_aff_is_cst Product) && lnot (isl_pw_aff_is_cst Next));
      [discriminate|].
    destruct (isl_pw_aff_mul Product Next) as [|P'] eqn:Em; [discriminate|]. simpl in E.
    apply (IH _ _ Hrs' E). intros s Es. subst P'.
    eapply isl_pw_aff_mul_invariant; [exact HS | | exact Em].
    intros s0 E0. apply Hr. rewrite E0. reflexivity.
Qed.

Lemma visitAddRecExpr_invariant rs L pa :
  operands_ok rs -> visitAddRecExpr A n rs L = Ret (Some pa) -> Q pa.
Proof.
  intros Hrs E. unfold visitAddRecExpr in E.
  destruct rs as [|r0 [|r1 [|r2 rs]]]; try discriminate.
  cbn [length Nat.eqb assertO bindO nth] in E.
  destruct (Region_contains A L); [|discriminate]. cbn [assertO bindO] in E.
  inversion Hrs as [|? ? H0 Hrs1]; subst. inversion Hrs1 as [|? ? H1 _]; subst.
  destruct r0 as [|Start]; [discriminate|]. cbn [bindO] in E.
  destruct r1 as [|Step]; [discriminate|]. cbn [bindO] in E.
  destruct (getLoopDepth A L) as [|d]; [discriminate|]. cbn [bindO] in E.
  destruct (0 <=? d); [|discriminate]. cbn [assertO bindO] in E.
  destruct (Isl.aff_set_coefficient_si _ _ _ _ _) as [|LAff]; [discriminate|].
  cbn [bindO] in E.
  destruct (isl_pw_aff_mul Step _) as [|P] eqn:Em; [discriminate|]. cbn [bindO] in E.
  injection E as E. destruct Start as [s|], P as [p|]; try discriminate.
  simpl in E. injection E as <-. apply Q_add; [apply H0; reflexivity|].
  eapply isl_pw_aff_mul_invariant; [| |exact Em].
  - intros s0 ->. apply H1. reflexivity.
  - intros s0 [= <-]. apply Q_iter.
Qed.

Lemma operands_ok_map (Ops : list SCEV) :
  Forall (fun s => forall pa,
            (forall V, In V (unrecorded_unknowns St s) -> Q (param_pw_aff (value_id V) n)) ->
            visit A St n s = Ret (Some pa) -> Q pa) Ops ->
  (forall V, In V (flat_map (unrecorded_unknowns St) Ops) -> Q (param_pw_aff (value_id V) n)) ->
  operands_ok (map (visit A St n) Ops).
Proof.
  intros HF HU. unfold operands_ok. rewrite Forall_map.
  rewrite Forall_forall in *. intros s Hs pa E. apply (HF s Hs); [|exact E].
  intros V HV. apply HU. apply in_flat_map. exists s. auto.
Qed.

(** Every translation that is not NULL satisfies [Q], when the unknown
    values it can reach do. *)
Lemma visit_invariant (scev : SCEV) : forall pa,
  (forall V, In V (unrecorded_unknowns St scev) -> Q (param_pw_aff (value_id V) n)) ->
  visit A St n scev = Ret (Some pa) -> Q pa.
Proof.
  induction scev as [V | Op IH | Op IH | Op IH | Ops IH | Ops IH | L R IHL IHR | Ops L IH
                     | Ops IH | Ops IH | V | ] using SCEV_nested_ind;
    intros pa HU E; rewrite visit_unfold in E; rewrite unrecorded_unknowns_unfold in HU;
    destruct (getIdForParam St _) as [Id|] eqn:EId;
    try (injection E as <-; eapply Q_param; exact EId);
    try discriminate.
  - eapply Q_const; exact E.
  - apply IH; assumption.
  - pose proof (operands_ok_map _ IH HU) as Hok.
    destruct (map (visit A St n) Ops) as [|r0 rs]; [discriminate|]. simpl in E.
    inversion Hok as [|? ? H0 Hrs]; subst.
    destruct r0 as [|Sum]; [discriminate|]. simpl in E.
    eapply visitAddExpr_loop_invariant; [exact Hrs | exact E|].
    intros s ->. apply H0. reflexivity.
  - pose proof (operands_ok_map _ IH HU) as Hok.
    destruct (map (visit A St n) Ops) as [|r0 rs]; [discriminate|]. simpl in E.
    inversion Hok as [|? ? H0 Hrs]; subst.
    destruct r0 as [|Product]; [discriminate|]. simpl in E.
    eapply visitMulExpr_loop_invariant; [exact Hrs | exact E|].
    intros s ->. apply H0. reflexivity.
  - eapply visitAddRecExpr_invariant; [|exact E]. apply operands_ok_map; assumption.
  - pose proof (operands_ok_map _ IH HU) as Hok.
    destruct (map (visit A St n) Ops) as [|r0 rs]; [discriminate|]. simpl in E.
    inversion Hok as [|? ? H0 Hrs]; subst.
    destruct r0 as [|Max]; [discriminate|]. simpl in E.
    eapply visitSMaxExpr_loop_invariant; [exact Hrs | exact E|].
    intros s ->. apply H0. reflexivity.
  - rewrite visitUnknown_param_pw_aff in E. injection E as <-.
    apply HU. left. reflexivity.
Qed.

End VisitInvariant.

(** A translation has as many input dimensions as the statement has
    iterators. *)
Lemma visit_nin A St n scev pa :
  visit A St n scev = Ret (Some pa) -> Isl.pa_nin pa = n.
Proof.
  apply (@visit_invariant A St n (fun pa => Isl.pa_nin pa = n)); try reflexivity.
  - intros V p [= <-]. reflexivity.
  - intros a b Ha _. exact Ha.
  - intros a b p Ha _ E. unfold Isl.pw_aff_mul in E.
    destruct (Isl.sequence _); [discriminate|]. injection E as <-. exact Ha.
  - intros a b Ha _. exact Ha.
Qed.

(** ** ScopInfo: affine memory accesses *)

Lemma existsb_pieces_at (f : Z * Z -> bool) rho x (p : Isl.pieces) :
  existsb (fun da => Isl.bset_mem rho x (fst da)
                     && f (Isl.aff_num rho x (snd da), Isl.aff_den (snd da))) p =
  existsb f (pieces_at rho x p).
Proof. unfold pieces_at. rewrite existsb_map, existsb_filter. reflexivity. Qed.

Lemma getPwAff_nin A stmt scev St pa St' :
  getPwAff A stmt scev St = Ret (Some pa, St') -> Isl.pa_nin pa = getNumIterators stmt.
Proof.
  unfold getPwAff. intros E.
  destruct (visit A _ _ scev) as [|r] eqn:Ev; [discriminate|]. simpl in E.
  injection E as -> _. eapply visit_nin; exact Ev.
Qed.

(** C4, as the code has it.  For an access fact flagged affine whose offset
    translates to [pa], with a positive element size, the access relation
    holds of a point [x] of the iteration space and a coordinate [o] exactly
    when the element size times [o] is the value of the offset at [x]: the
    coordinate is the offset divided by the element size where that division
    is exact, and a point where it is not has no coordinate at all. *)
Theorem MemoryAccess_affine_relation :
  forall (A : Analyses) (ty : TypeKind) (base : Value) (off : SCEV) (size : Z)
         (Statement : ScopStmt) (St St' : ScopParams) (pa : Isl.pw_aff),
    0 < size ->
    getPwAff A Statement off St = Ret (Some pa, St') ->
    exists MA rel,
      MemoryAccess_ctor A (mkIRAccess ty base off size true) Statement St = Ret (MA, St')
      /\ AccessRelation MA = Some rel
      /\ Isl.map_nin rel = getNumIterators Statement
      /\ Isl.map_nout rel = 1%nat
      /\ (forall rho x o,
            Isl.map_mem rho x [o] rel = true <->
            length x = getNumIterators Statement
            /\ exists v, In v (pw_aff_at rho x pa) /\ fst v = snd v * size * o)
      /\ (forall rho x o v,
            Isl.map_mem rho x [o] rel = true -> pw_aff_at rho x pa = [v] ->
            (snd v * size | fst v)).
Proof.
  intros A ty base off size Statement St St' pa Hsize E.
  pose proof (getPwAff_nin _ _ _ _ _ _ E) as Hnin.
  unfold MemoryAccess_ctor. cbn [IsAffine negb Offset BaseAddress ElemBytes]. rewrite E.
  cbn [bindO fst snd].
  unfold isl_pw_aff_scale_down, Isl.pw_aff_scale_down. cbn [ElemBytes].
  replace (size =? 0) with false by (symmetry; apply Z.eqb_neq; lia).
  cbn [bindO]. eexists. eexists. split; [reflexivity|].
  cbn [AccessRelation isl_map_from_pw_aff isl_map_set_tuple_name option_map].
  split; [reflexivity|]. split; [exact Hnin|]. split; [reflexivity|].
  assert (Hmem : forall rho x o,
             Isl.map_mem rho x [o]
               (Isl.map_set_tuple_name
                  (Isl.map_set_tuple_name
                     (Isl.map_from_pw_aff
                        (Isl.mkPwAff (Isl.pa_params pa) (Isl.pa_nin pa)
                           (map (fun da => (fst da, Isl.aff_scale_down (snd da) size))
                                (Isl.pa_pieces pa))))
                     Isl.isl_dim_in (BaseName Statement))
                  Isl.isl_dim_out (MemoryAccess_setBaseName base)) = true <->
             length x = getNumIterators Statement
             /\ exists v, In v (pw_aff_at rho x pa) /\ fst v = snd v * size * o).
  { intros rho x o. unfold Isl.map_mem. simpl. rewrite andb_true_r, Hnin.
    rewrite andb_true_iff, Nat.eqb_eq, existsb_map. simpl.
    rewrite (existsb_pieces_at (fun v => snd v * size * o =? fst v)).
    rewrite existsb_exists. unfold pw_aff_at.
    split; intros [Hx [v [Hv Ev]]]; (split; [exact Hx|]); exists v; (split; [exact Hv|]).
    - apply Z.eqb_eq in Ev. lia.
    - apply Z.eqb_eq. lia. }
  split; [exact Hmem|].
  intros rho x o v Hm Hv. apply Hmem in Hm. destruct Hm as [_ [v' [Hin Ev]]].
  rewrite Hv in Hin. destruct Hin as [<-|[]]. exists o. lia.
Qed.

(** *** A four-byte load two bytes past its base *)

Definition ex_base : Value := mkValue 3 "B" "%B".

Definition ex_stmt0 : ScopStmt := mkScopStmt (Some (mkBB 0 "%bb")) [] "Stmt_bb" None None [].

Definition ex_offset2_access : IRAccess :=
  mkIRAccess READ ex_base (scConstant (mkAPInt 64 2)) 4 true.

(** The offset 2 is no multiple of the element size 4: the division is not
    exact, and the access relation that is built holds of no coordinate. *)
Lemma MemoryAccess_offset_not_multiple :
  exists MA rel,
    MemoryAccess_ctor ex_Analyses ex_offset2_access ex_stmt0 ex_no_params = Ret (MA, ex_no_params)
    /\ AccessRelation MA = Some rel
    /\ pw_aff_at (fun _ => 0) []
         (Isl.mkPwAff [] 0 [(Isl.BUniv, Isl.mkAff 1 2 [] [])]) = [(2, 1)]
    /\ 2 mod 4 <> 0
    /\ forall rho o, Isl.map_mem rho [] [o] rel = false.
Proof.
  eexists. eexists. split; [reflexivity|]. split; [reflexivity|].
  split; [reflexivity|]. split; [discriminate|].
  intros rho o. unfold Isl.map_mem. cbn. rewrite orb_false_r.
  destruct o as [|p|p]; reflexivity.
Qed.

Definition ex_offset8_access : IRAccess :=
  mkIRAccess READ ex_base (scConstant (mkAPInt 64 8)) 4 true.

Lemma MemoryAccess_affine_relation_witness :
  exists MA rel,
    MemoryAccess_ctor ex_Analyses (mkIRAccess READ ex_base (scConstant (mkAPInt 64 8)) 4 true)
                      ex_stmt0 ex_no_params = Ret (MA, ex_no_params)
    /\ AccessRelation MA = Some rel
    /\ Isl.map_nin rel = getNumIterators ex_stmt0
    /\ Isl.map_nout rel = 1%nat
    /\ (forall rho x o,
          Isl.map_mem rho x [o] rel = true <->
          length x = getNumIterators ex_stmt0
          /\ exists v, In v (pw_aff_at rho x (Isl.mkPwAff [] 0 [(Isl.BUniv, Isl.mkAff 1 8 [] [])]))
                       /\ fst v = snd v * 4 * o)
    /\ (forall rho x o v,
          Isl.map_mem rho x [o] rel = true ->
          pw_aff_at rho x (Isl.mkPwAff [] 0 [(Isl.BUniv, Isl.mkAff 1 8 [] [])]) = [v] ->
          (snd v * 4 | fst v)).
Proof.
  apply (@MemoryAccess_affine_relation ex_Analyses READ ex_base (scConstant (mkAPInt 64 8)) 4
           ex_stmt0 ex_no_params ex_no_params
           (Isl.mkPwAff [] 0 [(Isl.BUniv, Isl.mkAff 1 8 [] [])])).
  - lia.
  - reflexivity.
Defined.

(** ** ScopInfo: the iteration domain of a statement *)

(** The translated trip counts of the loops of a statement, outermost
    first: for each dimension the bound on record for its loop, translated in
    the context of the statement. *)
Definition translate_bound (A : Analyses) (stmt : ScopStmt) (tempScop : TempScop) (i : nat)
    (St : ScopParams) : outcome (isl_pw_aff * ScopParams) :=
  match getLoopForDimension stmt i with
  | None => Abort
  | Some L => LatchExecutions <- getLoopBound tempScop L ;; getPwAff A stmt LatchExecutions St
  end.

Fixpoint translate_bounds (A : Analyses) (stmt : ScopStmt) (tempScop : TempScop)
    (dims : list nat) (St : ScopParams) : outcome (list isl_pw_aff * ScopParams) :=
  match dims with
  | [] => Ret ([], St)
  | i :: dims' =>
      b <- translate_bound A stmt tempScop i St ;;
      bs <- translate_bounds A stmt tempScop dims' (snd b) ;;
      Ret (fst b :: fst bs, snd bs)
  end.

(** The condition sets of a list of comparisons, translated in order. *)
Fixpoint translate_conditions (A : Analyses) (stmt : ScopStmt) (cs : list Comparison)
    (St : ScopParams) : outcome (list isl_set * ScopParams) :=
  match cs with
  | [] => Ret ([], St)
  | c :: cs' =>
      s <- buildConditionSet A stmt c St ;;
      ss <- translate_conditions A stmt cs' (snd s) ;;
      Ret (fst s :: fst ss, snd ss)
  end.

(** The branch conditions that reach a block: along the regions from the
    current one up to the maximal one, the conditions on record for the block
    and then for the entry of each region left, a block that is the entry of
    the region entered contributing none. *)
Fixpoint reaching_conditions (tempScop : TempScop) (TopRegion : option Region)
    (CurrentRegion : Region) (BranchingBB : BasicBlock) {struct CurrentRegion}
  : outcome (list Comparison) :=
  let here :=
    if negb (BasicBlock_eqb BranchingBB (getEntry CurrentRegion)) then
      match getBBCond tempScop BranchingBB with
      | Some Condition => Condition
      | None => []
      end
    else [] in
  match CurrentRegion with
  | mkRegion _ _ Parent =>
      if Region_ptr_eqb TopRegion Parent then Ret here
      else
        match Parent with
        | Some P =>
            above <- reaching_conditions tempScop TopRegion P (getEntry CurrentRegion) ;;
            Ret (here ++ above)
        | None => Abort
        end
  end.

(** [v <= pa(x)]: a value of [pa] at the point is at least [v]. *)
Definition le_pw_aff_at (v : Z) (pa : Isl.pw_aff) (rho : Isl.valuation) (x : Isl.point) : bool :=
  existsb (fun u => quot_cmp Isl.CLe (v, 1) u) (pw_aff_at rho x pa).

(** The constraint of one loop level: [0 <= iv_i] and [iv_i <= B_i]. *)
Definition loop_level_holds (rho : Isl.valuation) (x : Isl.point) (iu : nat * Isl.pw_aff) : bool :=
  (0 <=? nth (fst iu) x 0) && le_pw_aff_at (nth (fst iu) x 0) (snd iu) rho x.

Lemma dot_unit n : forall i v l x,
  Isl.list_set (repeat 0 n) i v = Some l -> Isl.dot l x = v * nth i x 0.
Proof.
  induction n as [|n IH]; intros i v l x E; simpl in E; [discriminate|].
  destruct i as [|i].
  - injection E as <-. destruct x as [|x0 x]; simpl; [lia|].
    rewrite dot_repeat_0. lia.
  - destruct (Isl.list_set (repeat 0 n) i v) as [l'|] eqn:E'; [|discriminate].
    simpl in E. injection E as <-.
    destruct x as [|x0 x]; simpl; [lia|]. rewrite (IH _ _ _ x E'). lia.
Qed.

Lemma list_set_in_range {T} (l : list T) i v :
  (i < length l)%nat -> exists l', Isl.list_set l i v = Some l'.
Proof.
  revert i. induction l as [|a l IH]; intros i H; simpl in H; [lia|].
  destruct i as [|i]; simpl; [eauto|].
  destruct (IH i) as [l' E]; [lia|]. rewrite E. simpl. eauto.
Qed.

(** The iterator of dimension [i] as a piecewise expression. *)
Lemma iterator_pw_aff n i (LocalSpace : Isl.space) :
  Isl.sp_nout LocalSpace = n -> (i < n)%nat ->
  exists IVaff,
    Isl.aff_set_coefficient_si LocalSpace (Isl.aff_zero_on_domain n) Isl.isl_dim_in i 1
    = Ret IVaff
    /\ forall rho x, Isl.aff_num rho x IVaff = nth i x 0 /\ Isl.aff_den IVaff = 1.
Proof.
  intros Hn Hi. unfold Isl.aff_set_coefficient_si, Isl.aff_zero_on_domain.
  cbn [Isl.aff_in Isl.aff_den Isl.aff_cst Isl.aff_par].
  destruct (list_set_in_range (repeat 0 n) i (1 * 1)) as [l El].
  { rewrite repeat_length. exact Hi. }
  rewrite El. eexists. split; [reflexivity|].
  intros rho x. unfold Isl.aff_num. cbn [Isl.aff_in Isl.aff_den Isl.aff_cst Isl.aff_par Isl.par_sum].
  rewrite (dot_unit _ _ _ _ x El). split; [lia | reflexivity].
Qed.

Lemma set_mem_nonneg_iterator rho x ps n a :
  Isl.aff_den a = 1 ->
  Isl.set_mem rho x (Isl.pw_aff_nonneg_set (Isl.mkPwAff ps n [(Isl.BUniv, a)])) =
  (0 <=? Isl.aff_num rho x a).
Proof.
  intros Hden. unfold Isl.set_mem, Isl.pw_aff_nonneg_set. cbn.
  rewrite orb_false_r. unfold Isl.aff_cmp, Isl.cmp_holds, Isl.aff_num.
  cbn [Isl.aff_zero_on_domain Isl.aff_cst Isl.aff_par Isl.aff_in Isl.aff_den Isl.par_sum].
  rewrite dot_repeat_0, Hden. f_equal; lia.
Qed.

Lemma pw_aff_at_single rho x ps n a :
  pw_aff_at rho x (Isl.mkPwAff ps n [(Isl.BUniv, a)]) = [(Isl.aff_num rho x a, Isl.aff_den a)].
Proof. reflexivity. Qed.

Lemma addLoopBounds_loop_Some A stmt tempScop LocalSpace dims :
  forall D0 St D St',
    (forall i, In i dims -> (i < Isl.sp_nout LocalSpace)%nat) ->
    addLoopBounds_loop A stmt tempScop LocalSpace dims D0 St = Ret (Some D, St') ->
    exists d0 UBs,
      D0 = Some d0
      /\ translate_bounds A stmt tempScop dims St = Ret (map Some UBs, St')
      /\ Isl.set_dim D = Isl.set_dim d0
      /\ forall rho x,
           Isl.set_mem rho x D =
           Isl.set_mem rho x d0 && forallb (loop_level_holds rho x) (combine dims UBs).
Proof.
  induction dims as [|i dims IH]; intros D0 St D St' Hdims E.
  - simpl in E. injection E as -> ->. exists D, []. repeat split.
    intros. simpl. rewrite andb_true_r. reflexivity.
  - cbn [addLoopBounds_loop] in E.
    destruct (iterator_pw_aff (Isl.sp_nout LocalSpace) i LocalSpace eq_refl
                (Hdims i (or_introl eq_refl))) as [IVaff [EIV HIV]].
    rewrite EIV in E. cbn [bindO] in E.
    cbn [translate_bounds]. unfold translate_bound.
    destruct (getLoopForDimension stmt i) as [L|]; [|discriminate].
    destruct (getLoopBound tempScop L) as [|B]; [discriminate|]. cbn [bindO] in *.
    destruct (getPwAff A stmt B St) as [|[UB St1]]; [discriminate|]. cbn [bindO fst snd] in *.
    apply IH in E; [|intros j Hj; apply Hdims; right; exact Hj].
    destruct E as [d1 [UBs [E1 [Etr [Hdim Hmem]]]]].
    destruct D0 as [d0|]; [|discriminate].
    destruct UB as [ub|]; [|discriminate].
    cbn [isl_pw_aff_nonneg_set option_map isl_pw_aff_le_set isl_set_intersect lift2] in E1.
    injection E1 as <-.
    exists d0, (ub :: UBs). split; [reflexivity|]. rewrite Etr. cbn [bindO fst snd map].
    split; [reflexivity|]. split; [exact Hdim|].
    intros rho x. rewrite Hmem. cbn [combine forallb].
    rewrite !set_mem_intersect, set_mem_pw_aff_cmp_set.
    unfold Isl.pw_aff_from_aff.
    rewrite set_mem_nonneg_iterator by (apply (proj2 (HIV rho x))).
    rewrite pw_aff_at_single. cbn [existsb].
    unfold loop_level_holds at 2. unfold le_pw_aff_at. cbn [fst snd].
    destruct (HIV rho x) as [-> ->]. rewrite orb_false_r, !andb_assoc. reflexivity.
Qed.

Lemma addConditions_of_Some A stmt cs :
  forall D0 St D St',
    addConditions_of A stmt cs D0 St = Ret (Some D, St') ->
    exists d0 CSs,
      D0 = Some d0
      /\ translate_conditions A stmt cs St = Ret (map Some CSs, St')
      /\ Isl.set_dim D = Isl.set_dim d0
      /\ forall rho x,
           Isl.set_mem rho x D = Isl.set_mem rho x d0 && forallb (Isl.set_mem rho x) CSs.
Proof.
  induction cs as [|c cs IH]; intros D0 St D St' E.
  - simpl in E. injection E as -> ->. exists D, []. repeat split.
    intros. simpl. rewrite andb_true_r. reflexivity.
  - cbn [addConditions_of translate_conditions] in *.
    destruct (buildConditionSet A stmt c St) as [|[S1 St1]]; [discriminate|].
    cbn [bindO fst snd] in *.
    apply IH in E. destruct E as [d1 [CSs [E1 [Etr [Hdim Hmem]]]]].
    destruct D0 as [d0|]; [|discriminate]. destruct S1 as [s1|]; [|discriminate].
    cbn [isl_set_intersect lift2] in E1. injection E1 as <-.
    exists d0, (s1 :: CSs). split; [reflexivity|]. rewrite Etr. cbn [bindO fst snd map].
    split; [reflexivity|]. split; [exact Hdim|].
    intros rho x. rewrite Hmem, set_mem_intersect. cbn [forallb].
    rewrite andb_assoc. reflexivity.
Qed.

Lemma translate_conditions_app A stmt cs1 : forall cs2 St S1 St1 S2 St2,
  translate_conditions A stmt cs1 St = Ret (S1, St1) ->
  translate_conditions A stmt cs2 St1 = Ret (S2, St2) ->
  translate_conditions A stmt (cs1 ++ cs2) St = Ret (S1 ++ S2, St2).
Proof.
  induction cs1 as [|c cs1 IH]; intros cs2 St S1 St1 S2 St2 E1 E2.
  - simpl in E1. injection E1 as <- <-. exact E2.
  - cbn [translate_conditions app] in *.
    destruct (buildConditionSet A stmt c St) as [|[s St']]; [discriminate|].
    cbn [bindO fst snd] in *.
    destruct (translate_conditions A stmt cs1 St') as [|[ss St'']] eqn:E; [discriminate|].
    cbn [bindO fst snd] in *. injection E1 as <- <-.
    rewrite (IH _ _ _ _ _ _ E E2). reflexivity.
Qed.

Section Region_induction.
Variable Q : Region -> Prop.
Hypothesis Htop : forall i e, Q (mkRegion i e None).
Hypothesis Hsub : forall i e p, Q p -> Q (mkRegion i e (Some p)).

Fixpoint Region_chain_ind (r : Region) : Q r :=
  match r with
  | mkRegion i e None => Htop i e
  | mkRegion i e (Some p) => Hsub i e p (Region_chain_ind p)
  end.
End Region_induction.

Lemma addConditions_walk_Some A stmt tempScop TopRegion CurrentRegion :
  forall BranchingBB D0 St D St',
    addConditions_walk A stmt tempScop TopRegion CurrentRegion BranchingBB D0 St
    = Ret (Some D, St') ->
    exists d0 cs CSs,
      D0 = Some d0
      /\ reaching_conditions tempScop TopRegion CurrentRegion BranchingBB = Ret cs
      /\ translate_conditions A stmt cs St = Ret (map Some CSs, St')
      /\ Isl.set_dim D = Isl.set_dim d0
      /\ forall rho x,
           Isl.set_mem rho x D = Isl.set_mem rho x d0 && forallb (Isl.set_mem rho x) CSs.
Proof.
  assert (Hhere : forall R BranchingBB D0 St D1 St1,
             (if negb (BasicBlock_eqb BranchingBB (getEntry R)) then
                match getBBCond tempScop BranchingBB with
                | Some Condition => addConditions_of A stmt Condition D0 St
                | None => Ret (D0, St)
                end
              else Ret (D0, St)) = Ret (Some D1, St1) ->
             exists d0 CSs,
               D0 = Some d0
               /\ translate_conditions A stmt
                    (if negb (BasicBlock_eqb BranchingBB (getEntry R)) then
                       match getBBCond tempScop BranchingBB with
                       | Some Condition => Condition
                       | None => []
                       end
                     else []) St = Ret (map Some CSs, St1)
               /\ Isl.set_dim D1 = Isl.set_dim d0
               /\ forall rho x,
                    Isl.set_mem rho x D1 =
                    Isl.set_mem rho x d0 && forallb (Isl.set_mem rho x) CSs).
  { intros R B D0 St D1 St1 E.
    destruct (negb (BasicBlock_eqb B (getEntry R))).
    - destruct (getBBCond tempScop B) as [Condition|].
      + apply addConditions_of_Some. exact E.
      + injection E as -> ->. exists D1, []. repeat split.
        intros. simpl. rewrite andb_true_r. reflexivity.
    - injection E as -> ->. exists D1, []. repeat split.
      intros. simpl. rewrite andb_true_r. reflexivity. }
  induction CurrentRegion as [i e | i e p IH] using Region_chain_ind;
    intros B D0 St D St' E; cbn [addConditions_walk reaching_conditions] in *.
  - destruct (if negb (BasicBlock_eqb B (getEntry (mkRegion i e None))) then _ else _)
      as [|[D1 St1]] eqn:E1; [discriminate|]. cbn [bindO fst snd] in E.
    destruct (Region_ptr_eqb TopRegion None); [|discriminate].
    injection E as -> ->.
    destruct (Hhere _ _ _ _ _ _ E1) as [d0 [CSs [Ed [Etr [Hdim Hmem]]]]].
    exists d0. eexists. exists CSs. split; [exact Ed|]. split; [reflexivity|]. auto.
  - destruct (if negb (BasicBlock_eqb B (getEntry (mkRegion i e (Some p)))) then _ else _)
      as [|[D1 St1]] eqn:E1; [discriminate|]. cbn [bindO fst snd] in E.
    destruct (Region_ptr_eqb TopRegion (Some p)).
    + injection E as -> ->.
      destruct (Hhere _ _ _ _ _ _ E1) as [d0 [CSs [Ed [Etr [Hdim Hmem]]]]].
      exists d0. eexists. exists CSs. split; [exact Ed|]. split; [reflexivity|]. auto.
    + apply IH in E. destruct E as [d1 [cs [CSs2 [Ed1 [Er [Etr2 [Hdim2 Hmem2]]]]]]].
      subst D1.
      destruct (Hhere _ _ _ _ _ _ E1) as [d0 [CSs1 [Ed [Etr1 [Hdim1 Hmem1]]]]].
      exists d0. eexists. exists (CSs1 ++ CSs2). split; [exact Ed|].
      rewrite Er. cbn [bindO]. split; [reflexivity|]. split.
      { rewrite map_app. eapply translate_conditions_app; eassumption. }
      split; [congruence|].
      intros rho x. rewrite Hmem2, Hmem1, forallb_app, andb_assoc. reflexivity.
Qed.

Lemma translate_bounds_length A stmt tempScop dims : forall St UBs St',
  translate_bounds A stmt tempScop dims St = Ret (UBs, St') -> length UBs = length dims.
Proof.
  induction dims as [|i dims IH]; intros St UBs St' E; simpl in E.
  - injection E as <- _. reflexivity.
  - destruct (translate_bound A stmt tempScop i St) as [|b]; [discriminate|]. simpl in E.
    destruct (translate_bounds A stmt tempScop dims (snd b)) as [|bs] eqn:Eb; [discriminate|].
    simpl in E. injection E as <- _. simpl. f_equal. destruct bs. eapply IH. exact Eb.
Qed.

(** C5.  The iteration domain [buildDomain] builds for a statement with [d]
    iterators is a set of [d] dimensions that holds of a point exactly when,
    for every loop level [i] from the outermost one, [0 <= x_i] and
    [x_i <= B_i(x)], [B_i] being the translation of the trip count on record
    for the loop of level [i], and the point lies in the condition set of
    every branch condition that reaches the block, the bounds being
    translated first and the conditions after them, in this order.  With no
    iterator the domain has no dimension and only the condition sets
    constrain it. *)
Theorem buildDomain_constraints :
  forall (A : Analyses) (stmt : ScopStmt) (bb : BasicBlock) (tempScop : TempScop)
         (CurRegion : Region) (St St' : ScopParams) (D : Isl.set),
    buildDomain A stmt bb tempScop CurRegion St = Ret (Some D, St') ->
    exists (UBs : list Isl.pw_aff) (cs : list Comparison) (CSs : list Isl.set) (St1 : ScopParams),
      translate_bounds A stmt tempScop (seq 0 (getNumIterators stmt)) St = Ret (map Some UBs, St1)
      /\ length UBs = getNumIterators stmt
      /\ reaching_conditions tempScop (getParent (getMaxRegion tempScop)) CurRegion bb = Ret cs
      /\ translate_conditions A stmt cs St1 = Ret (map Some CSs, St')
      /\ Isl.set_dim D = getNumIterators stmt
      /\ Isl.set_name D = Some (BaseName stmt)
      /\ (forall rho x,
            Isl.set_mem rho x D =
            forallb (loop_level_holds rho x) (combine (seq 0 (getNumIterators stmt)) UBs)
            && forallb (Isl.set_mem rho x) CSs)
      /\ (getNumIterators stmt = 0%nat ->
          forall rho x, Isl.set_mem rho x D = forallb (Isl.set_mem rho x) CSs).
Proof.
  intros A stmt bb tempScop CurRegion St St' D E.
  unfold buildDomain, addLoopBoundsToDomain, addConditionsToDomain in E.
  destruct (addLoopBounds_loop _ _ _ _ _ _ _) as [|[D1 St1]] eqn:E1; [discriminate|].
  cbn [bindO fst snd] in E.
  destruct (addConditions_walk _ _ _ _ _ _ _ _) as [|[D2 St2]] eqn:E2; [discriminate|].
  cbn [bindO fst snd] in E. injection E as E ->.
  destruct D2 as [d2|]; [|discriminate]. cbn in E. injection E as <-.
  apply addConditions_walk_Some in E2.
  destruct E2 as [d1 [cs [CSs [-> [Er [Etc [Hdim2 Hmem2]]]]]]].
  apply addLoopBounds_loop_Some in E1;
    [|intros i Hi; apply in_seq in Hi; cbn; lia].
  destruct E1 as [d0 [UBs [Ed0 [Etb [Hdim1 Hmem1]]]]]. injection Ed0 as <-.
  exists UBs, cs, CSs, St1. split; [exact Etb|].
  assert (Hlen : length UBs = getNumIterators stmt).
  { apply translate_bounds_length in Etb. rewrite length_map, length_seq in Etb. exact Etb. }
  split; [exact Hlen|]. split; [exact Er|]. split; [exact Etc|].
  split; [cbn; rewrite Hdim2, Hdim1; reflexivity|]. split; [reflexivity|].
  assert (Hmem : forall rho x,
             Isl.set_mem rho x (Isl.set_set_tuple_name d2 (BaseName stmt)) =
             forallb (loop_level_holds rho x) (combine (seq 0 (getNumIterators stmt)) UBs)
             && forallb (Isl.set_mem rho x) CSs).
  { intros rho x. rewrite set_mem_set_tuple_name, Hmem2, Hmem1, set_mem_universe. reflexivity. }
  split; [exact Hmem|].
  intros H0 rho x. rewrite Hmem, H0. reflexivity.
Qed.

(** *** A statement in one loop *)

Definition ex_civ : Value := mkValue 4 "indvar" "%indvar".
Definition ex_L : Loop := mkLoop 1 1 (Some ex_civ).
Definition ex_entry : BasicBlock := mkBB 0 "%entry".
Definition ex_bb : BasicBlock := mkBB 1 "%loop.body".

Definition ex_stmt1 : ScopStmt :=
  mkScopStmt (Some ex_bb) [(ex_civ, ex_L)] "Stmt_loop_body" None None [].

(** A Scop under construction, of maximal loop depth 2. *)
Definition ex_parent : Scop := mkScop ex_no_params buildContext [] 2.

Lemma buildScattering_dimensions_witness :
  exists m,
    buildScattering ex_stmt1 (MaxLoopDepth ex_parent) (getParamSpace ex_parent) [3; 1; 0]
    = Ret (Some m)
    /\ Isl.map_nout m = (2 * MaxLoopDepth ex_parent + 1)%nat
    /\ Isl.map_nin m = getNumIterators ex_stmt1
    /\ forall rho x y,
         Isl.map_mem rho x y m = true <->
         (length x = getNumIterators ex_stmt1
          /\ length y = (2 * MaxLoopDepth ex_parent + 1)%nat
          /\ (forall i, (i < getNumIterators ex_stmt1)%nat ->
                        nth_error y (2 * i + 1) = nth_error x i)
          /\ (forall i, (i <= getNumIterators ex_stmt1)%nat ->
                        nth_error y (2 * i) = nth_error [3; 1; 0] i)
          /\ (forall j, (2 * getNumIterators ex_stmt1 < j < 2 * MaxLoopDepth ex_parent + 1)%nat ->
                        nth_error y j = Some 0)).
Proof.
  apply (buildScattering_dimensions ex_stmt1 ex_parent
           (Isl.set_universe (Isl.space_params_alloc 0)) [3; 1; 0]).
  - reflexivity.
  - reflexivity.
  - vm_compute. lia.
  - vm_compute. reflexivity.
  - repeat constructor; vm_compute; congruence.
Defined.

(** The instance [7] of the statement is scheduled at [(3, 7, 1, 0, 0)], and
    not at a tuple with another last coordinate. *)
Example buildScattering_example :
  match buildScattering ex_stmt1 2 (getParamSpace ex_parent) [3; 1; 0] with
  | Ret (Some m) =>
      Isl.map_mem (fun _ => 0) [7] [3; 7; 1; 0; 0] m = true
      /\ Isl.map_mem (fun _ => 0) [7] [3; 7; 1; 0; 1] m = false
  | _ => False
  end.
Proof. vm_compute. split; reflexivity. Qed.

(** A counter beyond the largest [int] reaches the relation as a negative
    number: with the counter [4294967295] the first coordinate is [-1]. *)
Example buildScattering_counter_as_int :
  match buildScattering ex_stmt1 2 (getParamSpace ex_parent) [4294967295; 1; 0] with
  | Ret (Some m) =>
      Isl.map_mem (fun _ => 0) [7] [-1; 7; 1; 0; 0] m = true
      /\ Isl.map_mem (fun _ => 0) [7] [4294967295; 7; 1; 0; 0] m = false
  | _ => False
  end.
Proof. vm_compute. split; reflexivity. Qed.

(** *** A statement in one loop, below a branch *)

(** The validator of the example finds an unknown value as a parameter. *)
Definition ex_Analyses_unknowns : Analyses :=
  mkAnalyses (fun _ => true) (fun L => Some L)
             (fun s => match s with scUnknown _ => [s] | _ => [] end) (fun _ => None).

Definition ex_region : Region := mkRegion 0 ex_entry None.

(** One loop with trip count [n], one block under the condition [m > 0]. *)
Definition ex_tempScop : TempScop :=
  mkTempScop (RegionT ex_region [ElemBlock ex_bb])
             (fun L => if Loop_eqb L ex_L then Some (scUnknown ex_n) else None)
             (fun b => if BasicBlock_eqb b ex_bb
                       then Some [mkComparison (scUnknown ex_m) (scConstant (mkAPInt 64 0)) ICMP_SGT]
                       else None)
             (fun b => if BasicBlock_eqb b ex_bb
                       then Some [(mkIRAccess WRITE ex_base (scUnknown ex_n) 1 true, ex_civ)]
                       else None)
             1.

Definition ex_domain : Isl.set * ScopParams :=
  Eval vm_compute in
    match buildDomain ex_Analyses_unknowns ex_stmt1 ex_bb ex_tempScop ex_region ex_no_params with
    | Ret (Some D, St) => (D, St)
    | _ => (Isl.set_universe (Isl.space_set_alloc 0 0), ex_no_params)
    end.

Lemma buildDomain_constraints_witness :
  exists (UBs : list Isl.pw_aff) (cs : list Comparison) (CSs : list Isl.set) (St1 : ScopParams),
    translate_bounds ex_Analyses_unknowns ex_stmt1 ex_tempScop
                     (seq 0 (getNumIterators ex_stmt1)) ex_no_params = Ret (map Some UBs, St1)
    /\ length UBs = getNumIterators ex_stmt1
    /\ reaching_conditions ex_tempScop (getParent (getMaxRegion ex_tempScop)) ex_region ex_bb
       = Ret cs
    /\ translate_conditions ex_Analyses_unknowns ex_stmt1 cs St1
       = Ret (map Some CSs, snd ex_domain)
    /\ Isl.set_dim (fst ex_domain) = getNumIterators ex_stmt1
    /\ Isl.set_name (fst ex_domain) = Some (BaseName ex_stmt1)
    /\ (forall rho x,
          Isl.set_mem rho x (fst ex_domain) =
          forallb (loop_level_holds rho x) (combine (seq 0 (getNumIterators ex_stmt1)) UBs)
          && forallb (Isl.set_mem rho x) CSs)
    /\ (getNumIterators ex_stmt1 = 0%nat ->
        forall rho x, Isl.set_mem rho x (fst ex_domain) = forallb (Isl.set_mem rho x) CSs).
Proof.
  apply (buildDomain_constraints ex_Analyses_unknowns ex_stmt1 ex_bb ex_tempScop ex_region
           ex_no_params (snd ex_domain) (fst ex_domain)).
  vm_compute. reflexivity.
Defined.

(** With [n = 10] and [m = 1] the domain holds of the iterations 0 to 10 and
    of no other; with [m = 0] it is empty. *)
Example buildDomain_example :
  let rho := fun i : Isl.id =>
               if String.eqb (Isl.id_name i) "n" then 10
               else if String.eqb (Isl.id_name i) "m" then 1 else 0 in
  Isl.set_mem rho [0] (fst ex_domain) = true
  /\ Isl.set_mem rho [10] (fst ex_domain) = true
  /\ Isl.set_mem rho [11] (fst ex_domain) = false
  /\ Isl.set_mem rho [-1] (fst ex_domain) = false
  /\ Isl.set_mem (fun i => if String.eqb (Isl.id_name i) "n" then 10 else 0) [3] (fst ex_domain)
     = false.
Proof. vm_compute. repeat split. Qed.

(** ** ScopInfo: the parameters on record *)

(** The identifier [getIdForParam] makes for the parameter [s] of dimension
    [dim]. *)
Definition param_id (s : SCEV) (dim : nat) : Isl.id :=
  let ParameterName :=
    match s with
    | scUnknown Val => val_name Val
    | _ => EmptyString
    end in
  Isl.mkId (if String.eqb ParameterName "" || String.eqb (substring 0 2 ParameterName) "p_"
            then String.append "p_" (convertInt (Z.of_nat dim))
            else ParameterName)
           (Isl.UserSCEV s).

(** The parameter space of a Scop: the identifiers of its parameters in the
    order of their dimensions. *)
Definition global_params (St : ScopParams) : list Isl.id :=
  map (fun sd => param_id (fst sd) (snd sd))
      (combine (Parameters St) (seq 0 (length (Parameters St)))).

(** The two containers agree: the map holds each parameter of the vector
    once, with its position as dimension. *)
Definition params_wf (St : ScopParams) : Prop :=
  ParameterIds St = rev (combine (Parameters St) (seq 0 (length (Parameters St))))
  /\ NoDup (Parameters St).

(** [St'] is [St] after more parameters were put on record. *)
Definition extends (St St' : ScopParams) : Prop := exists ps, St' = addParams ps St.

Lemma getIdForParam_find St s :
  getIdForParam St s = option_map (param_id s) (ParamIds_find (ParameterIds St) s).
Proof. unfold getIdForParam. destruct (ParamIds_find _ _); reflexivity. Qed.

Lemma addParams_app ps1 : forall ps2 St,
  addParams (ps1 ++ ps2) St = addParams ps2 (addParams ps1 St).
Proof.
  induction ps1 as [|p ps1 IH]; intros ps2 St; simpl; [reflexivity|].
  destruct (ParamIds_find (ParameterIds St) p); apply IH.
Qed.

Lemma extends_refl St : extends St St.
Proof. exists []. reflexivity. Qed.

Lemma extends_trans St1 St2 St3 : extends St1 St2 -> extends St2 St3 -> extends St1 St3.
Proof.
  intros [ps1 ->] [ps2 ->]. exists (ps1 ++ ps2). symmetry. apply addParams_app.
Qed.

Lemma extends_addParams ps St : extends St (addParams ps St).
Proof. exists ps. reflexivity. Qed.

Lemma addParams_find ps : forall St s d,
  ParamIds_find (ParameterIds St) s = Some d ->
  ParamIds_find (ParameterIds (addParams ps St)) s = Some d.
Proof.
  induction ps as [|p ps IH]; intros St s d H; simpl; [exact H|].
  destruct (ParamIds_find (ParameterIds St) p) eqn:Ep; [apply IH; exact H|].
  apply IH. simpl. destruct (SCEV_eqb s p) eqn:E; [|exact H].
  apply SCEV_eqb_eq in E. subst. congruence.
Qed.



Lemma ParamIds_find_None m s :
  ParamIds_find m s = None <-> ~ In s (map fst m).
Proof.
  induction m as [|[k d] m IH]; simpl; [tauto|].
  destruct (SCEV_eqb s k) eqn:E.
  - apply SCEV_eqb_eq in E. subst. split; [discriminate | intros H; exfalso; apply H; auto].
  - apply SCEV_eqb_neq in E. rewrite IH. split; [intros H [H1|H1]; [congruence | auto] | tauto].
Qed.

Lemma ParamIds_find_In m s d :
  NoDup (map fst m) -> In (s, d) m -> ParamIds_find m s = Some d.
Proof.
  induction m as [|[k e] m IH]; simpl; intros ND H; [contradiction|].
  inversion ND as [|? ? Hk ND']; subst.
  destruct H as [[= -> ->]|H].
  - rewrite SCEV_eqb_refl. reflexivity.
  - destruct (SCEV_eqb s k) eqn:E; [|apply IH; assumption].
    apply SCEV_eqb_eq in E. subst. exfalso. apply Hk.
    apply in_map_iff. exists (k, d). auto.
Qed.

Lemma ParamIds_find_Some_In m s d : ParamIds_find m s = Some d -> In (s, d) m.
Proof.
  induction m as [|[k e] m IH]; simpl; [discriminate|].
  destruct (SCEV_eqb s k) eqn:E.
  - apply SCEV_eqb_eq in E. intros [= ->]. subst. auto.
  - auto.
Qed.

Lemma map_fst_combine_seq {T} (l : list T) a :
  map fst (combine l (seq a (length l))) = l.
Proof.
  revert a. induction l as [|x l IH]; intros a; simpl; [reflexivity|]. rewrite IH. reflexivity.
Qed.

Lemma combine_app_eq {T U} (l1 : list T) : forall (m1 : list U) l2 m2,
  length l1 = length m1 ->
  combine (l1 ++ l2) (m1 ++ m2) = combine l1 m1 ++ combine l2 m2.
Proof.
  induction l1 as [|a l1 IH]; intros [|b m1] l2 m2 H; simpl in *; try discriminate;
    [reflexivity|]. rewrite IH by lia. reflexivity.
Qed.

Lemma combine_snoc_seq {T} (l : list T) (x : T) :
  combine (l ++ [x]) (seq 0 (length (l ++ [x]))) =
  combine l (seq 0 (length l)) ++ [(x, length l)].
Proof.
  rewrite length_app. simpl. rewrite seq_app. simpl.
  rewrite combine_app_eq by (rewrite length_seq; reflexivity). reflexivity.
Qed.

Lemma params_wf_keys St :
  params_wf St -> map fst (ParameterIds St) = rev (Parameters St).
Proof. intros [E _]. rewrite E, map_rev, map_fst_combine_seq. reflexivity. Qed.

Lemma addParams_wf ps : forall St, params_wf St -> params_wf (addParams ps St).
Proof.
  induction ps as [|p ps IH]; intros St Hwf; simpl; [exact Hwf|].
  destruct (ParamIds_find (ParameterIds St) p) eqn:Ep; [apply IH; exact Hwf|].
  apply IH. destruct Hwf as [E ND]. split; simpl.
  - rewrite combine_snoc_seq, rev_app_distr. simpl. rewrite E. reflexivity.
  - apply ParamIds_find_None in Ep. rewrite (params_wf_keys _ (conj E ND)) in Ep.
    rewrite <- in_rev in Ep.
    apply NoDup_app; [exact ND | repeat constructor; intros [] |].
    intros x Hx [<-|[]]. contradiction.
Qed.

Lemma extends_wf St St' : extends St St' -> params_wf St -> params_wf St'.
Proof. intros [ps ->]. apply addParams_wf. Qed.

Lemma params_wf_empty : params_wf (mkScopParams [] []).
Proof. split; [reflexivity | constructor]. Qed.


Lemma list_set_middle {T} (l1 : list T) x l2 v :
  Isl.list_set (l1 ++ x :: l2) (length l1) v = Some (l1 ++ v :: l2).
Proof.
  induction l1 as [|a l1 IH]; simpl; [reflexivity|]. rewrite IH. reflexivity.
Qed.

Lemma global_params_snoc P p :
  map (fun sd => param_id (fst sd) (snd sd)) (combine (P ++ [p]) (seq 0 (length (P ++ [p])))) =
  map (fun sd => param_id (fst sd) (snd sd)) (combine P (seq 0 (length P)))
  ++ [param_id p (length P)].
Proof. rewrite combine_snoc_seq, map_app. reflexivity. Qed.

(** The loop of [Scop::realignParams] names every dimension. *)
Lemma realignParams_space_fill St (P : list SCEV) : forall tail nin nout iname oname,
  (forall s k, In (s, k) (combine P (seq 0 (length P))) ->
               getIdForParam St s = Some (param_id s k)) ->
  realignParams_space St (rev (combine P (seq 0 (length P))))
    (Isl.mkSpace (repeat None (length P) ++ tail) nin nout iname oname) =
  Ret (Isl.mkSpace
         (map Some (map (fun sd => param_id (fst sd) (snd sd)) (combine P (seq 0 (length P))))
          ++ tail) nin nout iname oname).
Proof.
  induction P as [|p P IH] using rev_ind; intros tail nin nout iname oname Hid.
  - reflexivity.
  - rewrite combine_snoc_seq, rev_app_distr. cbn [rev app realignParams_space fst snd].
    rewrite (Hid p (length P)) by (rewrite combine_snoc_seq; apply in_or_app; right; left; reflexivity).
    unfold Isl.space_set_dim_id. cbn [Isl.sp_params Isl.sp_nin Isl.sp_nout Isl.sp_in_name Isl.sp_out_name].
    rewrite length_app. cbn [length]. rewrite repeat_app. cbn [repeat]. rewrite <- app_assoc.
    cbn [app].
    replace (Isl.list_set (repeat None (length P) ++ None :: tail) (length P)
               (Some (param_id p (length P))))
      with (Some (repeat (@None Isl.id) (length P) ++ Some (param_id p (length P)) :: tail)).
    2:{ symmetry. rewrite <- (repeat_length (@None Isl.id) (length P)) at 2.
        apply list_set_middle. }
    cbn [bindO]. rewrite IH.
    + rewrite map_app, map_app. cbn [map]. rewrite <- app_assoc. reflexivity.
    + intros s k Hk. apply Hid. rewrite combine_snoc_seq. apply in_or_app. left. exact Hk.
Qed.

Lemma length_combine_seq {T} (l : list T) : length (combine l (seq 0 (length l))) = length l.
Proof. rewrite length_combine, length_seq. lia. Qed.

Lemma realignParams_space_global St :
  params_wf St ->
  realignParams_space St (ParameterIds St)
    (Isl.space_params_alloc (length (ParameterIds St))) =
  Ret (Isl.mkSpace (map Some (global_params St)) 0 0 None None).
Proof.
  intros Hwf. destruct Hwf as [E ND].
  assert (Hlen : length (ParameterIds St) = length (Parameters St)).
  { rewrite E, length_rev. apply length_combine_seq. }
  rewrite Hlen. rewrite E at 1. unfold Isl.space_params_alloc, Isl.space_alloc.
  rewrite <- (app_nil_r (repeat None (length (Parameters St)))).
  rewrite realignParams_space_fill.
  - rewrite app_nil_r. reflexivity.
  - intros s k Hk. rewrite getIdForParam_find.
    rewrite (ParamIds_find_In (ParameterIds St) s k); [reflexivity| |].
    + rewrite (params_wf_keys _ (conj E ND)). apply NoDup_rev. exact ND.
    + rewrite E. apply -> in_rev. exact Hk.
Qed.

(** *** Identifiers of the objects that are built *)







(** *** Expressions whose unknown values are all on record *)


Lemma addParams_recorded ps : forall St s,
  ParamIds_find (ParameterIds (addParams ps St)) s <> None <->
  In s ps \/ ParamIds_find (ParameterIds St) s <> None.
Proof.
  induction ps as [|p ps IH]; intros St s; simpl; [tauto|].
  destruct (ParamIds_find (ParameterIds St) p) eqn:Ep; rewrite IH.
  - split; [tauto|]. intros [[<-|H]|H]; [right; congruence | tauto | tauto].
  - simpl. destruct (SCEV_eqb s p) eqn:E.
    + apply SCEV_eqb_eq in E. subst. split; [tauto|]. intros _. right. discriminate.
    + apply SCEV_eqb_neq in E. split; [tauto|]. intros [[->|H]|H]; [congruence|tauto|tauto].
Qed.

Lemma addParams_In ps : forall St s,
  In s ps ->
  exists d,
    ParamIds_find (ParameterIds (addParams ps St)) s = Some d
    /\ match ParamIds_find (ParameterIds St) s with
       | Some d0 => d = d0
       | None => (length (Parameters St) <= d)%nat
       end.
Proof.
  induction ps as [|a ps IH]; intros St s Hin; [destruct Hin|].
  cbn [addParams]. destruct (ParamIds_find (ParameterIds St) a) as [da|] eqn:Ea.
  - destruct Hin as [<- | Hin]; [|apply IH; exact Hin].
    exists da. split; [apply addParams_find; exact Ea | rewrite Ea; reflexivity].
  - set (St1 := mkScopParams (Parameters St ++ [a])
                             ((a, length (Parameters St)) :: ParameterIds St)).
    destruct (SCEV_eqb s a) eqn:Es.
    + apply SCEV_eqb_eq in Es. subst s. exists (length (Parameters St)). split.
      * apply addParams_find. apply ParamIds_find_head.
      * rewrite Ea. apply Nat.le_refl.
    + destruct Hin as [<- | Hin]; [rewrite SCEV_eqb_refl in Es; discriminate|].
      destruct (IH St1 s Hin) as [d [Hd Hm]]. exists d. split; [exact Hd|].
      unfold St1 in Hm. cbn [ParameterIds Parameters ParamIds_find] in Hm. rewrite Es in Hm.
      destruct (ParamIds_find (ParameterIds St) s); [exact Hm|].
      rewrite length_app in Hm. simpl in Hm. lia.
Qed.

(** C9.  An expression the validator reports as a parameter is put on record
    by [getPwAff] before it is visited: one that is on record already keeps
    its dimension, one that is not gets a dimension that no parameter had,
    and in both cases the translation is the expression whose only term is
    that parameter, with coefficient 1, whatever the shape of the expression.
    [visit] itself translates an expression on record to the term of its
    recorded identifier, and an unknown value that is not on record to the
    term of a new identifier made of the name and the address of the value;
    the value of such a translation at every point is the value of the
    parameter. *)
Theorem visit_opaque_parameter :
  forall (A : Analyses) (St : ScopParams) (stmt : ScopStmt) (scev : SCEV),
    (In scev (getParamsInAffineExpr A scev) ->
     exists d,
       ParamIds_find (ParameterIds (addParams (getParamsInAffineExpr A scev) St)) scev = Some d
       /\ getPwAff A stmt scev St =
          Ret (Some (param_pw_aff (param_id scev d) (getNumIterators stmt)),
               addParams (getParamsInAffineExpr A scev) St)
       /\ match ParamIds_find (ParameterIds St) scev with
          | Some d0 => d = d0
          | None => (length (Parameters St) <= d)%nat
          end)
    /\ (forall Id, getIdForParam St scev = Some Id ->
                   visit A St (getNumIterators stmt) scev =
                   Ret (Some (param_pw_aff Id (getNumIterators stmt)))
                   /\ Isl.id_user Id = Isl.UserSCEV scev)
    /\ (forall V, scev = scUnknown V -> getIdForParam St scev = None ->
                  visit A St (getNumIterators stmt) scev =
                  Ret (Some (param_pw_aff (Isl.mkId (val_name V) (Isl.UserValue V))
                                          (getNumIterators stmt))))
    /\ (forall Id n rho x, pw_aff_at rho x (param_pw_aff Id n) = [(rho Id, 1)])
    /\ (match ParamIds_find (ParameterIds St) scev with
        | Some d => addParams [scev] St = St
        | None =>
            Parameters (addParams [scev] St) = Parameters St ++ [scev]
            /\ ParamIds_find (ParameterIds (addParams [scev] St)) scev
               = Some (length (Parameters St))
            /\ forall p, p <> scev ->
                         ParamIds_find (ParameterIds (addParams [scev] St)) p =
                         ParamIds_find (ParameterIds St) p
        end).
Proof.
  intros A St stmt scev. split; [|split; [|split; [|split]]].
  - intros Hin.
    destruct (addParams_In (getParamsInAffineExpr A scev) St scev Hin) as [d [Hd Hm]].
    exists d. split; [exact Hd|]. split; [|exact Hm].
    unfold getPwAff. rewrite visit_unfold, getIdForParam_find, Hd. reflexivity.
  - intros Id E. rewrite visit_unfold, E.
    split; [reflexivity | eapply getIdForParam_user; exact E].
  - intros V -> E. rewrite visit_unfold, E. reflexivity.
  - intros Id n rho x. unfold pw_aff_at, pieces_at, param_pw_aff, Isl.aff_num.
    cbn [Isl.pa_pieces filter Isl.bset_mem fst snd map Isl.aff_cst Isl.aff_par Isl.aff_in
         Isl.aff_den Isl.par_sum].
    rewrite dot_repeat_0. do 2 f_equal. lia.
  - simpl. destruct (ParamIds_find (ParameterIds St) scev) eqn:E; [reflexivity|].
    simpl. rewrite SCEV_eqb_refl. repeat split.
    intros p Hp. apply SCEV_eqb_neq in Hp. rewrite Hp. reflexivity.
Qed.

(** The value [n], which the validator of the example reports and which is
    not on record, gets dimension 0; translated again, it keeps it. *)
Example getPwAff_example :
  getPwAff ex_Analyses_unknowns ex_stmt0 (scUnknown ex_n) ex_no_params
  = Ret (Some (param_pw_aff (Isl.mkId "n" (Isl.UserSCEV (scUnknown ex_n))) 0),
         mkScopParams [scUnknown ex_n] [(scUnknown ex_n, 0%nat)])
  /\ getPwAff ex_Analyses_unknowns ex_stmt0 (scUnknown ex_n)
              (mkScopParams [scUnknown ex_n] [(scUnknown ex_n, 0%nat)])
     = Ret (Some (param_pw_aff (Isl.mkId "n" (Isl.UserSCEV (scUnknown ex_n))) 0),
            mkScopParams [scUnknown ex_n] [(scUnknown ex_n, 0%nat)]).
Proof. split; reflexivity. Qed.








(** *** The objects of a statement *)





Ltac bind_inv E :=
  match type of E with
  | bindO ?m _ = Ret _ =>
      let r := fresh "r" in
      let Er := fresh "Er" in
      destruct m as [|r] eqn:Er; [discriminate|]; cbn [bindO] in E
  end.


















(** *** The Scop under construction *)


Section RegionTree_induction.

Variable Q : RegionTree -> Prop.

Hypothesis Q_region : forall R elements,
  Forall (fun e => match e with ElemSub sub => Q sub | ElemBlock _ => True end) elements ->
  Q (RegionT R elements).

Fixpoint RegionTree_nested_ind (T : RegionTree) : Q T :=
  match T with
  | RegionT R elements =>
      Q_region R elements
        ((fix go (l : list (Element RegionTree))
            : Forall (fun e => match e with ElemSub sub => Q sub | ElemBlock _ => True end) l :=
            match l with
            | [] => Forall_nil _
            | e :: l' =>
                Forall_cons e
                  (match e as e0
                         return match e0 with ElemSub sub => Q sub | ElemBlock _ => True end with
                   | ElemSub sub => RegionTree_nested_ind sub
                   | ElemBlock _ => I
                   end)
                  (go l')
            end) elements)
  end.

End RegionTree_induction.

(** What every statement construction preserves, the whole traversal of
    the region tree preserves. *)
Section buildScop_invariant.

Variable A : Analyses.
Variable tempScop : TempScop.
Variable Inv : Scop -> Prop.

Hypothesis Inv_block : forall CurRegion loopDepth bb bs bs',
  Inv (bs_scop bs) ->
  buildScop_block A tempScop CurRegion loopDepth bb bs = Ret bs' ->
  Inv (bs_scop bs').

Lemma buildScop_invariant :
  forall T bs bs',
    Inv (bs_scop bs) ->
    buildScop A tempScop T bs = Ret bs' ->
    Inv (bs_scop bs').
Proof.
  intros T. induction T as [R elements IH] using RegionTree_nested_ind.
  intros bs bs' Hok E.
  assert (Hel : forall depth l,
             Forall (fun e => match e with
                              | ElemSub sub =>
                                  forall bs bs', Inv (bs_scop bs) ->
                                                 buildScop A tempScop sub bs = Ret bs' ->
                                                 Inv (bs_scop bs')
                              | ElemBlock _ => True
                              end) l ->
             forall bs0 bs1, Inv (bs_scop bs0) ->
               (fix elems (l : list (Element RegionTree)) (bs : BuildState) {struct l}
                  : outcome BuildState :=
                  match l with
                  | [] => Ret bs
                  | ElemSub sub :: l' => bs <- buildScop A tempScop sub bs ;; elems l' bs
                  | ElemBlock bb :: l' =>
                      bs <- buildScop_block A tempScop R depth bb bs ;; elems l' bs
                  end) l bs0 = Ret bs1 ->
               Inv (bs_scop bs1)).
  { intros depth l Hl. induction Hl as [|e l He Hl IHl]; intros bs0 bs1 H0 El.
    - injection El as <-. exact H0.
    - destruct e as [bb | sub].
      + destruct (buildScop_block A tempScop R depth bb bs0) as [|b1] eqn:Eb; [discriminate|].
        cbn [bindO] in El. eapply IHl; [|exact El].
        eapply Inv_block; eassumption.
      + destruct (buildScop A tempScop sub bs0) as [|b1] eqn:Eb; [discriminate|].
        cbn [bindO] in El. eapply IHl; [|exact El].
        eapply He; eassumption. }
  cbn [buildScop] in E.
  destruct (assertO _) as [|[]]; [discriminate|]. cbn [bindO] in E.
  bind_inv E.
  apply Hel in Er; [| exact IH | exact Hok].
  destruct (castToLoop A R).
  - bind_inv E. bind_inv E. injection E as <-. exact Er.
  - injection E as <-. exact Er.
Qed.

End buildScop_invariant.





Lemma mapO_In {T U} (f : T -> outcome U) l : forall r,
  mapO f l = Ret r -> forall b, In b r -> exists a, In a l /\ f a = Ret b.
Proof.
  induction l as [|a l IH]; intros r E b Hb; simpl in E.
  - injection E as <-. destruct Hb.
  - destruct (f a) as [|b0] eqn:Ea; [discriminate|]. cbn [bindO] in E.
    destruct (mapO f l) as [|r0] eqn:El; [discriminate|]. cbn [bindO] in E.
    injection E as <-. destruct Hb as [<- | Hb].
    + exists a. split; [left; reflexivity | exact Ea].
    + destruct (IH r0 eq_refl b Hb) as [a' [Ha' Ef]]. exists a'. split; [right|]; assumption.
Qed.







(** The Scop of the example: one statement, under the condition [m > 0],
    that writes [B[n]]. *)
Definition ex_scop : Scop :=
  Eval vm_compute in
    match Scop_ctor ex_Analyses_unknowns ex_tempScop with
    | Ret Sc => Sc
    | Abort => ex_parent
    end.


(** The space of the example: [m], met in the condition, then [n], met in
    the access; the domain, which mentions [m] only, and the access
    relation, which mentions [n] only, have both. *)
Example Scop_ctor_example :
  global_params (SC_Params ex_scop)
  = [Isl.mkId "m" (Isl.UserSCEV (scUnknown ex_m)); Isl.mkId "n" (Isl.UserSCEV (scUnknown ex_n))]
  /\ map (fun stmt => (option_map Isl.set_params (Domain stmt),
                       option_map Isl.map_params (Scattering stmt),
                       map (fun MA => option_map Isl.map_params (AccessRelation MA))
                           (MemAccs stmt)))
         (Stmts ex_scop)
     = [(Some (global_params (SC_Params ex_scop)),
         Some (global_params (SC_Params ex_scop)),
         [Some (global_params (SC_Params ex_scop))])].
Proof. split; reflexivity. Qed.

(** Before the realignment the domain of that statement has the parameter
    [m] only. *)
Example ScopStmt_ctor_example :
  match ScopStmt_ctor ex_Analyses_unknowns
          (mkScop ex_no_params buildContext [] 1) ex_tempScop ex_region ex_bb [] [0; 0] with
  | Ret (stmt, St) =>
      option_map Isl.set_params (Domain stmt)
      = Some [Isl.mkId "m" (Isl.UserSCEV (scUnknown ex_m))]
      /\ option_map Isl.map_params (Scattering stmt) = Some []
  | Abort => False
  end.
Proof. vm_compute. split; reflexivity. Qed.

(** ** The scattering of every statement of a Scop *)

(** A statement has a scattering, of [2 * D + 1] output dimensions, over its
    own iterators. *)
Definition scattering_dims (D : nat) (stmt : ScopStmt) : Prop :=
  exists s, Scattering stmt = Some s
            /\ Isl.map_nout s = (2 * D + 1)%nat
            /\ Isl.map_nin s = getNumIterators stmt.

Definition map_dims (nin nout : nat) (m : isl_map) : Prop :=
  exists x, m = Some x /\ Isl.map_nin x = nin /\ Isl.map_nout x = nout.

Lemma forO_invariant (Inv : isl_map -> Prop) (step : nat -> isl_map -> outcome isl_map) idx :
  (forall i m r, step i m = Ret r -> Inv m -> Inv r) ->
  forall m r, forO idx step m = Ret r -> Inv m -> Inv r.
Proof.
  intros Hstep. induction idx as [|i idx IH]; intros m r E Hm; simpl in E.
  - injection E as <-. exact Hm.
  - bind_inv E. eapply IH; [exact E|]. eapply Hstep; eassumption.
Qed.

Lemma isl_map_equate_dims nin nout m t1 p1 t2 p2 r :
  isl_map_equate m t1 p1 t2 p2 = Ret r -> map_dims nin nout m -> map_dims nin nout r.
Proof.
  intros E [x [-> [Hi Ho]]]. simpl in E. unfold Isl.map_equate in E.
  destruct (_ && _); [|discriminate]. simpl in E. injection E as <-.
  eexists. split; [reflexivity|]. split; assumption.
Qed.

Lemma isl_map_fix_si_dims nin nout m t p v r :
  isl_map_fix_si m t p v = Ret r -> map_dims nin nout m -> map_dims nin nout r.
Proof.
  intros E [x [-> [Hi Ho]]]. simpl in E. unfold Isl.map_fix_si in E.
  destruct (_ <? _)%nat; [|discriminate]. simpl in E. injection E as <-.
  eexists. split; [reflexivity|]. split; assumption.
Qed.

Lemma buildScattering_dims stmt depth Scatter r :
  Z.of_nat (2 * depth + 1) < 2 ^ 32 ->
  buildScattering stmt depth (isl_set_get_space buildContext) Scatter = Ret r ->
  map_dims (getNumIterators stmt) (2 * depth + 1) r.
Proof.
  unfold buildScattering. intros HD E.
  rewrite (unsigned_of_small (depth * 2 + 1)) in E by lia.
  destruct (forO (seq 0 (getNumIterators stmt)) _ _) as [|m1] eqn:E1; [discriminate|].
  cbn [bindO] in E.
  destruct (forO (seq 0 (unsigned_of (getNumIterators stmt + 1))) _ _) as [|m2] eqn:E2;
    [discriminate|].
  cbn [bindO] in E.
  destruct (forO (seq (unsigned_of (2 * getNumIterators stmt + 1)) _) _ _) as [|m3] eqn:E3;
    [discriminate|].
  cbn [bindO] in E.
  assert (H3 : map_dims (getNumIterators stmt) (2 * depth + 1) m3).
  { eapply forO_invariant; [|exact E3|].
    - intros i m r' Es. eapply isl_map_fix_si_dims. exact Es.
    - eapply forO_invariant; [|exact E2|].
      + intros i m r' Es. cbv beta in Es. destruct (nth_error Scatter i); [|discriminate].
        eapply isl_map_fix_si_dims. exact Es.
      + eapply forO_invariant; [|exact E1|].
        * intros i m r' Es. eapply isl_map_equate_dims. exact Es.
        * eexists. split; [reflexivity|]. split; [reflexivity|]. simpl. lia. }
  destruct H3 as [x [-> [Hi Ho]]]. simpl in E. injection E as <-.
  eexists. split; [reflexivity|]. split; assumption.
Qed.

Lemma ScopStmt_ctor_scattering_dims A parent tempScop CurRegion bb NestLoops Scatter stmt St' :
  Z.of_nat (2 * MaxLoopDepth parent + 1) < 2 ^ 32 ->
  Context parent = buildContext ->
  ScopStmt_ctor A parent tempScop CurRegion bb NestLoops Scatter = Ret (stmt, St') ->
  scattering_dims (MaxLoopDepth parent) stmt.
Proof.
  intros Hfit Hctx E. unfold ScopStmt_ctor in E.
  bind_inv E.
  destruct (buildDomain _ _ _ _ _ _) as [|[D St1]] eqn:ED; [discriminate|].
  cbn [bindO fst snd] in E.
  destruct (buildScattering _ _ _ _) as [|Sc] eqn:ES; [discriminate|]. cbn [bindO] in E.
  destruct (buildAccesses _ _ _ _ _) as [|[Ms St2]] eqn:EAcc; [discriminate|].
  cbn [bindO fst snd] in E. injection E as <- <-.
  unfold getParamSpace in ES. rewrite Hctx in ES.
  destruct (buildScattering_dims _ _ _ _ Hfit ES) as [x [-> [Hi Ho]]].
  exists x. split; [reflexivity|]. split; [exact Ho | exact Hi].
Qed.

(** Every statement of a Scop that was built has a scattering of
    [2 * MaxLoopDepth + 1] output dimensions, a number that fits the
    [unsigned] it is computed in, over its own iterators, however deep in the
    loops the statement is. *)
Lemma Scop_ctor_scattering_dimensions A tempScop scop :
  Z.of_nat (2 * TS_MaxLoopDepth tempScop + 1) < 2 ^ 32 ->
  Scop_ctor A tempScop = Ret scop ->
  MaxLoopDepth scop = TS_MaxLoopDepth tempScop
  /\ forall stmt, In stmt (Stmts scop) -> scattering_dims (MaxLoopDepth scop) stmt.
Proof.
  intros Hfit E. unfold Scop_ctor in E.
  destruct (buildScop _ _ _ _) as [|bs] eqn:EB; [discriminate|]. cbn [bindO] in E.
  destruct (Scop_realignParams (bs_scop bs)) as [|Sc] eqn:ER; [discriminate|].
  cbn [bindO] in E.
  destruct (assertO _) as [|[]]; [discriminate|]. cbn [bindO] in E. injection E as <-.
  set (D := TS_MaxLoopDepth tempScop) in *.
  assert (Hinv : Context (bs_scop bs) = buildContext /\ MaxLoopDepth (bs_scop bs) = D
                 /\ Forall (scattering_dims D) (Stmts (bs_scop bs))).
  { revert EB.
    apply (buildScop_invariant A tempScop
             (fun Sc0 => Context Sc0 = buildContext /\ MaxLoopDepth Sc0 = D
                         /\ Forall (scattering_dims D) (Stmts Sc0))).
    - intros CurRegion loopDepth bb bs0 bs1 [Hctx [HD Hst]] Eb. unfold buildScop_block in Eb.
      destruct (isTrivialBB bb tempScop).
      + injection Eb as <-. split; [|split]; assumption.
      + destruct (ScopStmt_ctor _ _ _ _ _ _ _) as [|[stmt St']] eqn:EC; [discriminate|].
        cbn [bindO fst snd] in Eb. bind_inv Eb. injection Eb as <-.
        cbn [bs_scop Context MaxLoopDepth Stmts].
        split; [exact Hctx|]. split; [exact HD|].
        apply Forall_app. split; [exact Hst|]. constructor; [|constructor].
        rewrite <- HD. eapply ScopStmt_ctor_scattering_dims; [|eassumption..].
        rewrite HD. exact Hfit.
    - cbn [bs_scop Context MaxLoopDepth Stmts]. split; [reflexivity|].
      split; [reflexivity | constructor]. }
  destruct Hinv as [Hctx [HD Hst]].
  unfold Scop_realignParams in ER.
  destruct (realignParams_space _ _ _) as [|Space] eqn:ESp; [discriminate|]. cbn [bindO] in ER.
  destruct (isl_set_align_params _ _) as [|Ctx] eqn:EC; [discriminate|]. cbn [bindO] in ER.
  assert (HC : exists c, Ctx = Some c).
  { rewrite Hctx in EC. unfold buildContext in EC. cbn [isl_set_align_params] in EC.
    destruct (Isl.has_named_params _); [|discriminate]. injection EC as <-.
    eexists. reflexivity. }
  destruct HC as [c ->].
  cbn [SC_Params Context Stmts MaxLoopDepth getParamSpace isl_set_get_space option_map] in ER.
  destruct (mapO _ (Stmts (bs_scop bs))) as [|Ss] eqn:EM; [discriminate|]. cbn [bindO] in ER.
  injection ER as <-. cbn [MaxLoopDepth Stmts]. split; [exact HD|].
  intros stmt Hin. destruct (mapO_In _ _ _ EM stmt Hin) as [stmt0 [Hin0 Es]].
  rewrite Forall_forall in Hst. destruct (Hst stmt0 Hin0) as [s [Hs [Ho Hi]]].
  unfold ScopStmt_realignParams in Es.
  destruct (mapO _ (MemAccs stmt0)) as [|Ms] eqn:EMs; [discriminate|]. cbn [bindO] in Es.
  destruct (isl_set_align_params (Domain stmt0) _) as [|Dm] eqn:EDm; [discriminate|].
  cbn [bindO] in Es. rewrite Hs in Es.
  cbn [isl_map_align_params] in Es.
  destruct (Isl.has_named_params _); [|discriminate]. cbn [bindO] in Es. injection Es as <-.
  eexists. split; [reflexivity|]. rewrite HD. split; [exact Ho|].
  unfold getNumIterators in *. exact Hi.
Qed.

(** ** A constant condition in a domain *)

(** The comparison recorded for the constant true on the then side, [0 >= 1]
    in the one-bit type of the condition, translates with the bits of the
    constants read as signed numbers, the one-bit 1 as -1: the condition set
    holds of the point of a statement outside every loop. *)
Example buildConditionSet_constant_true_then_side :
  getSExtValue (mkAPInt 1 1) = -1
  /\ match buildConditionSet ex_Analyses ex_stmt0
              (mkComparison (scConstant (mkAPInt 1 0)) (scConstant (mkAPInt 1 1)) ICMP_SGE)
              ex_no_params with
     | Ret (Some CS, _) => Isl.set_mem (fun _ => 0) [] CS = true
     | _ => False
     end.
Proof. split; reflexivity. Qed.

(** ** A diamond

    The entry branches on [n > m] to a then block and an else block, which
    both go on to the join block. *)

Definition dia_entry : BasicBlock := mkBB 10 "%entry".
Definition dia_then : BasicBlock := mkBB 11 "%then".
Definition dia_else : BasicBlock := mkBB 12 "%else".
Definition dia_join : BasicBlock := mkBB 13 "%join".

Definition dia_Passes : Passes :=
  mkPasses
    (fun _ => None)
    (fun v _ => scUnknown v)
    (fun s => s)
    (fun a _ => a)
    (fun _ _ => true)
    (fun b => if BasicBlock_eqb b dia_entry then Some (DTNode dia_entry None)
              else Some (DTNode b (Some (DTNode dia_entry None))))
    (fun a b => BasicBlock_eqb a b || BasicBlock_eqb a dia_entry)
    (fun a b => BasicBlock_eqb a b || BasicBlock_eqb a dia_join)
    (fun b => if BasicBlock_eqb b dia_entry
              then Br_conditional (CV_ICmpInst ICMP_SGT ex_n ex_m dia_entry) dia_then dia_else
              else Br_unconditional dia_join).

(** The then block is under [n > m], the else block under the inverse
    condition [n <= m], and the join block, which post-dominates the entry,
    under no condition. *)
Example buildCondition_diamond :
  match buildCondition dia_Passes dia_then dia_entry (fun _ => None) with
  | Ret m => m dia_then = Some [mkComparison (scUnknown ex_n) (scUnknown ex_m) ICMP_SGT]
  | Abort => False
  end
  /\ match buildCondition dia_Passes dia_else dia_entry (fun _ => None) with
     | Ret m => m dia_else = Some [mkComparison (scUnknown ex_n) (scUnknown ex_m) ICMP_SLE]
     | Abort => False
     end
  /\ match buildCondition dia_Passes dia_join dia_entry (fun _ => None) with
     | Ret m => m dia_join = None
     | Abort => False
     end.
Proof. repeat split; reflexivity. Qed.

(** * Further properties of the code *)

(** ** ScopInfo: [convertInt] *)

(** The number a string of decimal digits denotes. *)
Definition decimal_value (s : string) : Z :=
  fold_left (fun acc c => 10 * acc + (Z.of_nat (nat_of_ascii c) - 48))
            (list_ascii_of_string s) 0.

Definition is_digit (c : ascii) : bool :=
  (48 <=? nat_of_ascii c)%nat && (nat_of_ascii c <=? 57)%nat.

(** The value of digits given least significant first. *)
Definition digits_value (ds : list ascii) : Z :=
  fold_right (fun c acc => (Z.of_nat (nat_of_ascii c) - 48) + 10 * acc) 0 ds.

Lemma convertInt_digits_value fuel : forall number temp,
  0 <= number -> (Z.to_nat number <= fuel)%nat ->
  exists ds, convertInt_digits fuel number temp = temp ++ ds
             /\ forallb is_digit ds = true
             /\ digits_value ds = number.
Proof.
  induction fuel as [|fuel IH]; intros number temp Hn Hf.
  - exists []. simpl. rewrite app_nil_r. repeat split. lia.
  - cbn [convertInt_digits]. destruct (0 <? number) eqn:Epos.
    + apply Z.ltb_lt in Epos.
      assert (Hdiv : 0 <= number / 10 < number).
      { split; [apply Z.div_pos; lia | apply Z.div_lt; lia]. }
      assert (Hmod : 0 <= number mod 10 < 10) by (apply Z.mod_pos_bound; lia).
      destruct (IH (number / 10)
                   (temp ++ [ascii_of_nat (Z.to_nat (number mod 10 + 48))]))
        as [ds [E [Hd Hv]]]; [lia | lia |].
      exists (ascii_of_nat (Z.to_nat (number mod 10 + 48)) :: ds).
      assert (Hc : nat_of_ascii (ascii_of_nat (Z.to_nat (number mod 10 + 48)))
                   = Z.to_nat (number mod 10 + 48)).
      { apply nat_ascii_embedding. lia. }
      split; [rewrite E, <- app_assoc; reflexivity|]. split.
      * cbn [forallb]. rewrite Hd, andb_true_r. unfold is_digit. rewrite Hc.
        apply andb_true_iff. split; apply Nat.leb_le; lia.
      * unfold digits_value in *. cbn [fold_right]. rewrite Hv, Hc.
        rewrite Z2Nat.id by lia.
        pose proof (Z.div_mod number 10 ltac:(lia)). lia.
    + apply Z.ltb_ge in Epos. exists []. rewrite app_nil_r. repeat split.
      unfold digits_value. simpl. lia.
Qed.

Lemma decimal_value_rev ds :
  decimal_value (string_of_list_ascii (rev ds)) = digits_value ds.
Proof.
  unfold decimal_value, digits_value.
  rewrite list_ascii_of_string_of_list_ascii.
  rewrite <- fold_left_rev_right, rev_involutive.
  induction ds as [|c ds IH]; cbn [fold_right]; [reflexivity|]. rewrite IH. lia.
Qed.

Lemma convertInt_spec (n : nat) :
  decimal_value (convertInt (Z.of_nat n)) = Z.of_nat n
  /\ forallb is_digit (list_ascii_of_string (convertInt (Z.of_nat n))) = true.
Proof.
  unfold convertInt. destruct (Z.of_nat n =? 0) eqn:E0.
  - apply Z.eqb_eq in E0. rewrite E0. split; reflexivity.
  - destruct (convertInt_digits_value (Z.to_nat (Z.of_nat n)) (Z.of_nat n) [])
      as [ds [E [Hd Hv]]]; [lia | lia |].
    rewrite E. cbn [app]. split.
    + rewrite decimal_value_rev. exact Hv.
    + rewrite list_ascii_of_string_of_list_ascii, forallb_forall.
      intros c Hc. apply in_rev in Hc. rewrite forallb_forall in Hd. apply Hd. exact Hc.
Qed.

(** X1. [convertInt] writes a number that is not negative in decimal digits: the
    digits read back give the number, so two numbers have the same text only
    when they are equal; for a negative number the loop is not entered and
    the text is empty. *)
Theorem convertInt_decimal :
  (forall n : nat,
      decimal_value (convertInt (Z.of_nat n)) = Z.of_nat n
      /\ forallb is_digit (list_ascii_of_string (convertInt (Z.of_nat n))) = true)
  /\ (forall a b : nat, convertInt (Z.of_nat a) = convertInt (Z.of_nat b) -> a = b)
  /\ (forall p : positive, convertInt (Z.neg p) = EmptyString).
Proof.
  split; [exact convertInt_spec|]. split.
  - intros a b E. apply Nat2Z.inj.
    rewrite <- (proj1 (convertInt_spec a)), <- (proj1 (convertInt_spec b)), E. reflexivity.
  - intros p. reflexivity.
Qed.

(** ** ScopInfo: [replace] and [makeIslCompatible] *)

(** Each character of a string replaced by a text. *)
Fixpoint expand (f : ascii -> string) (s : string) : string :=
  match s with
  | EmptyString => EmptyString
  | String c rest => String.append (f c) (expand f rest)
  end.

Fixpoint map_string (f : ascii -> ascii) (s : string) : string :=
  match s with
  | EmptyString => EmptyString
  | String c rest => String (f c) (map_string f rest)
  end.

Definition string_tail (s : string) : string :=
  match s with
  | EmptyString => EmptyString
  | String _ rest => rest
  end.

(** The character [makeIslCompatible] leaves for a character of the name. *)
Definition isl_char (c : ascii) : ascii :=
  if ascii_dec c "."%char then "_"%char
  else if ascii_dec c (ascii_of_nat 34) then "_"%char
  else c.

Lemma replace_one_char s c repl :
  replace s (String c EmptyString) repl =
  expand (fun x => if ascii_dec c x then repl else String x EmptyString) s.
Proof.
  unfold replace. induction s as [|x s IH]; [reflexivity|].
  cbn [replace_from String.prefix expand String.length Nat.sub].
  destruct (ascii_dec c x) as [->|Hne].
  - destruct s; cbn [String.prefix]; rewrite IH; reflexivity.
  - rewrite IH. reflexivity.
Qed.

Lemma replace_char_by_char s c r :
  replace s (String c EmptyString) (String r EmptyString) =
  map_string (fun x => if ascii_dec c x then r else x) s.
Proof.
  rewrite replace_one_char.
  induction s as [|x s IH]; simpl; [reflexivity|].
  rewrite IH. destruct (ascii_dec c x); reflexivity.
Qed.

Lemma map_string_map_string f g s :
  map_string g (map_string f s) = map_string (fun x => g (f x)) s.
Proof. induction s as [|x s IH]; simpl; [reflexivity | rewrite IH; reflexivity]. Qed.

Lemma map_string_ext f g s :
  (forall x, f x = g x) -> map_string f s = map_string g s.
Proof. intros H. induction s as [|x s IH]; simpl; [reflexivity | rewrite H, IH; reflexivity]. Qed.

Lemma map_string_length f s : String.length (map_string f s) = String.length s.
Proof. induction s as [|x s IH]; simpl; [reflexivity | rewrite IH; reflexivity]. Qed.

Lemma map_string_In f s c :
  In c (list_ascii_of_string (map_string f s)) -> exists x, c = f x.
Proof.
  induction s as [|x s IH]; simpl; [intros []|].
  intros [<- | H]; [exists x; reflexivity | exact (IH H)].
Qed.

(** X2. [replace] of a one-character text puts the replacement in place of every
    occurrence and never looks again at what it put in; [makeIslCompatible]
    drops the first character of a name and writes an underscore for every
    dot and every double quote of the rest, so that the result is one
    character shorter and has neither of the two characters. *)
Theorem makeIslCompatible_chars :
  (forall s c repl,
      replace s (String c EmptyString) repl =
      expand (fun x => if ascii_dec c x then repl else String x EmptyString) s)
  /\ (forall s,
         makeIslCompatible s = map_string isl_char (string_tail s)
         /\ String.length (makeIslCompatible s) = (String.length s - 1)%nat
         /\ forall c, In c (list_ascii_of_string (makeIslCompatible s)) ->
                      c <> "."%char /\ c <> ascii_of_nat 34).
Proof.
  split; [exact replace_one_char|]. intros s.
  assert (E : makeIslCompatible s = map_string isl_char (string_tail s)).
  { unfold makeIslCompatible, dquote. fold (string_tail s).
    rewrite !replace_char_by_char, map_string_map_string.
    apply map_string_ext. intros x. unfold isl_char.
    destruct (ascii_dec "."%char x) as [<-|H1]; [reflexivity|].
    destruct (ascii_dec x "."%char) as [->|_]; [contradiction H1; reflexivity|].
    destruct (ascii_dec (ascii_of_nat 34) x) as [<-|H2]; [reflexivity|].
    destruct (ascii_dec x (ascii_of_nat 34)) as [->|_]; [contradiction H2; reflexivity|].
    reflexivity. }
  split; [exact E|]. rewrite E. split.
  - rewrite map_string_length. destruct s; simpl; [reflexivity | lia].
  - intros c Hc. apply map_string_In in Hc. destruct Hc as [x ->]. unfold isl_char.
    destruct (ascii_dec x "."%char); [split; discriminate|].
    destruct (ascii_dec x (ascii_of_nat 34)); [split; discriminate|].
    split; assumption.
Qed.

(** ** ScopInfo: the record of the parameters *)

Lemma addParams_all_recorded ps : forall St,
  (forall s, In s ps -> ParamIds_find (ParameterIds St) s <> None) ->
  addParams ps St = St.
Proof.
  induction ps as [|p ps IH]; intros St H; [reflexivity|].
  cbn [addParams]. destruct (ParamIds_find (ParameterIds St) p) eqn:E.
  - apply IH. intros s Hs. apply H. right. exact Hs.
  - exfalso. apply (H p (or_introl eq_refl)). exact E.
Qed.

Lemma addParams_appends ps : forall St,
  exists new, Parameters (addParams ps St) = Parameters St ++ new /\ incl new ps.
Proof.
  induction ps as [|p ps IH]; intros St.
  - exists []. split; [rewrite app_nil_r; reflexivity | intros x []].
  - cbn [addParams]. destruct (ParamIds_find (ParameterIds St) p).
    + destruct (IH St) as [new [E Hi]]. exists new. split; [exact E|].
      intros x Hx. right. apply Hi. exact Hx.
    + destruct (IH (mkScopParams (Parameters St ++ [p])
                                 ((p, length (Parameters St)) :: ParameterIds St)))
        as [new [E Hi]].
      exists (p :: new). split.
      * rewrite E. cbn [Parameters]. rewrite <- app_assoc. reflexivity.
      * intros x [<- | Hx]; [left; reflexivity | right; apply Hi; exact Hx].
Qed.

Lemma In_combine_seq_nth {T} (l : list T) : forall a s d,
  In (s, d) (combine l (seq a (length l))) -> (a <= d)%nat /\ nth_error l (d - a) = Some s.
Proof.
  induction l as [|x l IH]; intros a s d H; [destruct H|].
  cbn [length seq combine] in H. destruct H as [E | H].
  - injection E as -> ->. split; [lia|]. rewrite Nat.sub_diag. reflexivity.
  - apply IH in H. destruct H as [Hle Hn]. split; [lia|].
    replace (d - a)%nat with (S (d - S a)) by lia. exact Hn.
Qed.

Lemma params_wf_lookup St s d :
  params_wf St ->
  ParamIds_find (ParameterIds St) s = Some d -> nth_error (Parameters St) d = Some s.
Proof.
  intros [Hids _] E. apply ParamIds_find_Some_In in E. rewrite Hids in E.
  apply in_rev in E. apply In_combine_seq_nth in E. destruct E as [_ E].
  rewrite Nat.sub_0_r in E. exact E.
Qed.

(** X3. [Scop::addParams] keeps the two containers of the parameters in step:
    no parameter is entered twice, the map gives each parameter its position
    in the vector, a parameter on record keeps its dimension, the new ones
    are appended, every parameter of the argument is on record afterwards,
    and adding the same parameters again changes nothing. *)
Theorem addParams_keeps_record :
  forall (ps : list SCEV) (St : ScopParams),
    params_wf St ->
    params_wf (addParams ps St)
    /\ (forall s d, ParamIds_find (ParameterIds (addParams ps St)) s = Some d ->
                    nth_error (Parameters (addParams ps St)) d = Some s)
    /\ (forall s d, ParamIds_find (ParameterIds St) s = Some d ->
                    ParamIds_find (ParameterIds (addParams ps St)) s = Some d)
    /\ (forall s, ParamIds_find (ParameterIds (addParams ps St)) s <> None <->
                  In s ps \/ ParamIds_find (ParameterIds St) s <> None)
    /\ (exists new, Parameters (addParams ps St) = Parameters St ++ new /\ incl new ps)
    /\ addParams ps (addParams ps St) = addParams ps St.
Proof.
  intros ps St Hwf.
  assert (Hwf' : params_wf (addParams ps St)) by (apply addParams_wf; exact Hwf).
  split; [exact Hwf'|]. split.
  { intros s d. apply params_wf_lookup. exact Hwf'. }
  split; [intros s d; apply addParams_find|].
  split; [intros s; apply addParams_recorded|].
  split; [apply addParams_appends|].
  apply addParams_all_recorded. intros s Hs. apply addParams_recorded. left. exact Hs.
Qed.

Lemma addParams_keeps_record_witness :
  params_wf (addParams [scUnknown ex_n; scUnknown ex_m; scUnknown ex_n] ex_no_params)
  /\ Parameters (addParams [scUnknown ex_n; scUnknown ex_m; scUnknown ex_n] ex_no_params)
     = [scUnknown ex_n; scUnknown ex_m].
Proof.
  split; [|reflexivity].
  apply (addParams_keeps_record [scUnknown ex_n; scUnknown ex_m; scUnknown ex_n] ex_no_params).
  exact params_wf_empty.
Defined.

(** ** ScopInfo: the statements of a Scop *)

(** Every translation leaves the parameters on record in place and adds to
    them. *)
Lemma getPwAff_extends A stmt scev St r St' :
  getPwAff A stmt scev St = Ret (r, St') -> extends St St'.
Proof.
  unfold getPwAff. intros E.
  destruct (visit A _ _ scev) as [|pa]; [discriminate|]. cbn [bindO] in E.
  injection E as _ <-. apply extends_addParams.
Qed.

Lemma buildConditionSet_extends A stmt Comp St S St' :
  buildConditionSet A stmt Comp St = Ret (S, St') -> extends St St'.
Proof.
  intros E. unfold buildConditionSet in E.
  destruct (getPwAff A stmt (getLHS Comp) St) as [|[L St1]] eqn:EL; [discriminate|].
  cbn [bindO fst snd] in E.
  destruct (getPwAff A stmt (getRHS Comp) St1) as [|[R St2]] eqn:ER; [discriminate|].
  cbn [bindO fst snd] in E.
  assert (H : extends St St2).
  { eapply extends_trans; eapply getPwAff_extends; eassumption. }
  destruct (getPred Comp); try discriminate; injection E as _ <-; exact H.
Qed.

Lemma addLoopBounds_loop_extends A stmt tempScop LocalSpace dims :
  forall D0 St D St',
    addLoopBounds_loop A stmt tempScop LocalSpace dims D0 St = Ret (D, St') -> extends St St'.
Proof.
  induction dims as [|i dims IH]; intros D0 St D St' E.
  - simpl in E. injection E as _ <-. apply extends_refl.
  - cbn [addLoopBounds_loop] in E. bind_inv E.
    destruct (getLoopForDimension stmt i) as [L|]; [|discriminate].
    destruct (getLoopBound tempScop L) as [|B]; [discriminate|]. cbn [bindO] in E.
    destruct (getPwAff A stmt B St) as [|[UB St1]] eqn:EU; [discriminate|].
    cbn [bindO fst snd] in E. apply IH in E.
    eapply extends_trans; [eapply getPwAff_extends; exact EU | exact E].
Qed.

Lemma addConditions_of_extends A stmt cs :
  forall D0 St D St',
    addConditions_of A stmt cs D0 St = Ret (D, St') -> extends St St'.
Proof.
  induction cs as [|c cs IH]; intros D0 St D St' E.
  - simpl in E. injection E as _ <-. apply extends_refl.
  - cbn [addConditions_of] in E.
    destruct (buildConditionSet A stmt c St) as [|[S1 St1]] eqn:EC; [discriminate|].
    cbn [bindO fst snd] in E. apply IH in E.
    eapply extends_trans; [eapply buildConditionSet_extends; exact EC | exact E].
Qed.

Lemma addConditions_walk_extends A stmt tempScop TopRegion CurrentRegion :
  forall BranchingBB D0 St D St',
    addConditions_walk A stmt tempScop TopRegion CurrentRegion BranchingBB D0 St = Ret (D, St') ->
    extends St St'.
Proof.
  assert (Hhere : forall R B D0 St D1 St1,
             (if negb (BasicBlock_eqb B (getEntry R)) then
                match getBBCond tempScop B with
                | Some Condition => addConditions_of A stmt Condition D0 St
                | None => Ret (D0, St)
                end
              else Ret (D0, St)) = Ret (D1, St1) ->
             extends St St1).
  { intros R B D0 St D1 St1 E.
    destruct (negb (BasicBlock_eqb B (getEntry R))).
    - destruct (getBBCond tempScop B) as [Condition|].
      + eapply addConditions_of_extends; exact E.
      + injection E as _ <-. apply extends_refl.
    - injection E as _ <-. apply extends_refl. }
  induction CurrentRegion as [i e | i e p IH] using Region_chain_ind;
    intros B D0 St D St' E; cbn [addConditions_walk] in E.
  - destruct (if negb (BasicBlock_eqb B (getEntry (mkRegion i e None))) then _ else _)
      as [|[D1 St1]] eqn:E1; [discriminate|]. cbn [bindO fst snd] in E.
    destruct (Region_ptr_eqb TopRegion None); [|discriminate].
    injection E as _ <-. eapply Hhere; exact E1.
  - destruct (if negb (BasicBlock_eqb B (getEntry (mkRegion i e (Some p)))) then _ else _)
      as [|[D1 St1]] eqn:E1; [discriminate|]. cbn [bindO fst snd] in E.
    pose proof (Hhere _ _ _ _ _ _ E1) as He1.
    destruct (Region_ptr_eqb TopRegion (Some p)).
    + injection E as _ <-. exact He1.
    + apply IH in E. eapply extends_trans; eassumption.
Qed.

Lemma buildDomain_extends A stmt bb tempScop CurRegion St D St' :
  buildDomain A stmt bb tempScop CurRegion St = Ret (D, St') -> extends St St'.
Proof.
  intros E. unfold buildDomain, addLoopBoundsToDomain, addConditionsToDomain in E.
  destruct (addLoopBounds_loop _ _ _ _ _ _ _) as [|[D1 St1]] eqn:E1; [discriminate|].
  cbn [bindO fst snd] in E.
  destruct (addConditions_walk _ _ _ _ _ _ _ _) as [|[D2 St2]] eqn:E2; [discriminate|].
  cbn [bindO fst snd] in E. injection E as _ <-.
  eapply extends_trans;
    [eapply addLoopBounds_loop_extends; exact E1 | eapply addConditions_walk_extends; exact E2].
Qed.

Lemma MemoryAccess_ctor_extends A Access Statement St MA St' :
  MemoryAccess_ctor A Access Statement St = Ret (MA, St') -> extends St St'.
Proof.
  intros E. unfold MemoryAccess_ctor in E. destruct (negb (IsAffine Access)).
  - injection E as _ <-. apply extends_refl.
  - destruct (getPwAff A Statement (Offset Access) St) as [|[Aff St1]] eqn:EA; [discriminate|].
    cbn [bindO fst snd] in E. bind_inv E. injection E as _ <-.
    eapply getPwAff_extends; exact EA.
Qed.

Lemma buildAccesses_loop_extends A this accs :
  forall Ms St Ms' St',
    buildAccesses_loop A this accs Ms St = Ret (Ms', St') -> extends St St'.
Proof.
  induction accs as [|a accs IH]; intros Ms St Ms' St' E.
  - simpl in E. injection E as _ <-. apply extends_refl.
  - cbn [buildAccesses_loop] in E.
    destruct (MemoryAccess_ctor A (fst a) this St) as [|[MA St1]] eqn:EM; [discriminate|].
    cbn [bindO fst snd] in E. apply IH in E.
    eapply extends_trans; [eapply MemoryAccess_ctor_extends; exact EM | exact E].
Qed.

Lemma setupIVS_loops NestLoops : forall ivs,
  setupIVS NestLoops = Ret ivs ->
  map snd ivs = NestLoops /\ map (fun vl => Some (fst vl)) ivs = map loop_civ NestLoops.
Proof.
  induction NestLoops as [|L rest IH]; intros ivs E; simpl in E.
  - injection E as <-. split; reflexivity.
  - destruct (loop_civ L) as [PN|] eqn:EL; [|discriminate].
    destruct (setupIVS rest) as [|r]; [discriminate|]. cbn [bindO] in E.
    injection E as <-. destruct (IH r eq_refl) as [H1 H2].
    simpl. rewrite H1, H2, EL. split; reflexivity.
Qed.

Lemma setupIVS_Abort NestLoops :
  setupIVS NestLoops = Abort <-> exists L, In L NestLoops /\ loop_civ L = None.
Proof.
  induction NestLoops as [|L rest IH]; simpl.
  - split; [discriminate | intros [L [[] _]]].
  - destruct (loop_civ L) as [PN|] eqn:EL.
    + destruct (setupIVS rest) as [|r]; cbn [bindO].
      * split; [intros _|reflexivity].
        destruct (proj1 IH eq_refl) as [L' [Hin Hc]]. exists L'. split; [right|]; assumption.
      * split; [discriminate|]. intros [L' [[<- | Hin] Hc]]; [congruence|].
        exfalso. assert (Hr : Ret r = (Abort : outcome (list (Value * Loop)))).
        { apply (proj2 IH). exists L'. split; assumption. }
        discriminate Hr.
    + split; [intros _; exists L; split; [left; reflexivity | exact EL] | reflexivity].
Qed.

(** What the constructor of [ScopStmt] fixes of a statement whatever its
    domain and accesses are. *)
Lemma ScopStmt_ctor_fields A parent tempScop CurRegion bb NestLoops Scatter stmt St' :
  ScopStmt_ctor A parent tempScop CurRegion bb NestLoops Scatter = Ret (stmt, St') ->
  BB stmt = Some bb
  /\ map snd (IVS stmt) = NestLoops
  /\ map (fun vl => Some (fst vl)) (IVS stmt) = map loop_civ NestLoops
  /\ BaseName stmt = String.append "Stmt_" (makeIslCompatible (bb_operand bb))
  /\ extends (SC_Params parent) St'.
Proof.
  intros E. unfold ScopStmt_ctor in E.
  destruct (setupIVS NestLoops) as [|ivs] eqn:EI; [discriminate|]. cbn [bindO] in E.
  destruct (buildDomain _ _ _ _ _ _) as [|[D St1]] eqn:ED; [discriminate|].
  cbn [bindO fst snd] in E.
  destruct (buildScattering _ _ _ _) as [|Sc] eqn:ES; [discriminate|]. cbn [bindO] in E.
  destruct (buildAccesses _ _ _ _ _) as [|[Ms St2]] eqn:EAcc; [discriminate|].
  cbn [bindO fst snd] in E. injection E as <- <-. cbn [BB IVS BaseName].
  destruct (setupIVS_loops _ _ EI) as [H1 H2].
  split; [reflexivity|]. split; [exact H1|]. split; [exact H2|]. split; [reflexivity|].
  unfold buildAccesses in EAcc. destruct (getAccessFunctions tempScop bb); [|discriminate].
  eapply extends_trans;
    [eapply buildDomain_extends; exact ED | eapply buildAccesses_loop_extends; exact EAcc].
Qed.

(** The blocks of a region tree in the order of the traversal, each with the
    region it is an element of and the loops of the loop regions around it,
    outermost first, after the loops [nest] around the tree. *)
Fixpoint blocks_with_nest (A : Analyses) (T : RegionTree) (nest : list Loop) {struct T}
  : list (Region * BasicBlock * list Loop) :=
  match T with
  | RegionT R elements =>
      let nest' :=
        match castToLoop A R with
        | Some l => nest ++ [l]
        | None => nest
        end in
      flat_map (fun e => match e with
                         | ElemBlock b => [(R, b, nest')]
                         | ElemSub sub => blocks_with_nest A sub nest'
                         end) elements
  end.

Definition nontrivial (tempScop : TempScop) (rbn : Region * BasicBlock * list Loop) : bool :=
  negb (isTrivialBB (snd (fst rbn)) tempScop).

(** A statement is the one the constructor builds for a block in a region
    under a loop nest, from a Scop with the given context and depth and a
    vector of [len] counters, more than there are loops in the nest. *)
Definition built_stmt (A : Analyses) (tempScop : TempScop) (Ctx : isl_set) (D len : nat)
    (stmt : ScopStmt) (rbn : Region * BasicBlock * list Loop) : Prop :=
  exists parent Scatter St',
    ScopStmt_ctor A parent tempScop (fst (fst rbn)) (snd (fst rbn)) (snd rbn) Scatter
    = Ret (stmt, St')
    /\ Context parent = Ctx /\ MaxLoopDepth parent = D
    /\ length Scatter = len /\ (length (snd rbn) < len)%nat.

Definition buildScop_trace (A : Analyses) (tempScop : TempScop)
    (blocks : list (Region * BasicBlock * list Loop)) (bs bs' : BuildState) : Prop :=
  bs_NestLoops bs' = bs_NestLoops bs
  /\ length (bs_Scatter bs') = length (bs_Scatter bs)
  /\ Context (bs_scop bs') = Context (bs_scop bs)
  /\ MaxLoopDepth (bs_scop bs') = MaxLoopDepth (bs_scop bs)
  /\ extends (SC_Params (bs_scop bs)) (SC_Params (bs_scop bs'))
  /\ exists new,
       Stmts (bs_scop bs') = Stmts (bs_scop bs) ++ new
       /\ Forall2 (built_stmt A tempScop (Context (bs_scop bs)) (MaxLoopDepth (bs_scop bs))
                              (length (bs_Scatter bs)))
                  new (filter (nontrivial tempScop) blocks).

Lemma list_set_length {T} (l : list T) : forall i v l',
  Isl.list_set l i v = Some l' -> length l' = length l.
Proof.
  induction l as [|a l IH]; intros i v l' E; simpl in E; [discriminate|].
  destruct i as [|i].
  - injection E as <-. reflexivity.
  - destruct (Isl.list_set l i v) as [l0|] eqn:E0; [|discriminate].
    simpl in E. injection E as <-. simpl. f_equal. eapply IH. exact E0.
Qed.

Lemma Scatter_incr_length Scatter i Scatter' :
  Scatter_incr Scatter i = Ret Scatter' -> length Scatter' = length Scatter.
Proof.
  unfold Scatter_incr. destruct (nth_error Scatter i) as [c|]; [|discriminate].
  destruct (Isl.list_set Scatter i (unsigned_wrap (c + 1))) as [l|] eqn:E; [|discriminate].
  intros [= <-]. eapply list_set_length. exact E.
Qed.

Lemma Scatter_reset_length Scatter i Scatter' :
  Scatter_reset Scatter i = Ret Scatter' -> length Scatter' = length Scatter.
Proof.
  unfold Scatter_reset. destruct (Isl.list_set Scatter i 0) as [l|] eqn:E; [|discriminate].
  intros [= <-]. eapply list_set_length. exact E.
Qed.

Lemma buildScop_trace_refl A tempScop bs : buildScop_trace A tempScop [] bs bs.
Proof.
  repeat (split; [reflexivity|]). split; [apply extends_refl|].
  exists []. split; [rewrite app_nil_r; reflexivity | constructor].
Qed.

Lemma buildScop_trace_trans A tempScop l1 l2 bs1 bs2 bs3 :
  buildScop_trace A tempScop l1 bs1 bs2 ->
  buildScop_trace A tempScop l2 bs2 bs3 ->
  buildScop_trace A tempScop (l1 ++ l2) bs1 bs3.
Proof.
  intros [HN1 [HL1 [HC1 [HD1 [HE1 [new1 [HS1 HF1]]]]]]]
         [HN2 [HL2 [HC2 [HD2 [HE2 [new2 [HS2 HF2]]]]]]].
  split; [congruence|]. split; [congruence|]. split; [congruence|]. split; [congruence|].
  split; [eapply extends_trans; eassumption|].
  exists (new1 ++ new2). split; [rewrite HS2, HS1, app_assoc; reflexivity|].
  rewrite filter_app. apply Forall2_app; [exact HF1|].
  rewrite HC1, HD1, HL1 in HF2. exact HF2.
Qed.

Lemma buildScop_block_trace A tempScop R bb bs bs' :
  (length (bs_NestLoops bs) < length (bs_Scatter bs))%nat ->
  buildScop_block A tempScop R (length (bs_NestLoops bs)) bb bs = Ret bs' ->
  buildScop_trace A tempScop [(R, bb, bs_NestLoops bs)] bs bs'.
Proof.
  intros Hlen E. unfold buildScop_block in E. unfold buildScop_trace, nontrivial.
  cbn [filter fst snd].
  destruct (isTrivialBB bb tempScop); cbn [negb].
  - injection E as <-. apply (buildScop_trace_refl A tempScop bs).
  - destruct (ScopStmt_ctor _ _ _ _ _ _ _) as [|[stmt St']] eqn:EC; [discriminate|].
    cbn [bindO fst snd] in E.
    destruct (Scatter_incr _ _) as [|Sc'] eqn:ES; [discriminate|]. cbn [bindO] in E.
    injection E as <-. cbn [bs_scop bs_NestLoops bs_Scatter Context MaxLoopDepth SC_Params Stmts].
    split; [reflexivity|]. split; [eapply Scatter_incr_length; exact ES|].
    split; [reflexivity|]. split; [reflexivity|].
    destruct (ScopStmt_ctor_fields _ _ _ _ _ _ _ _ _ EC) as [_ [_ [_ [_ He]]]].
    split; [exact He|].
    exists [stmt]. split; [reflexivity|]. constructor; [|constructor].
    exists (bs_scop bs), (bs_Scatter bs), St'. cbn [fst snd].
    split; [exact EC|]. repeat split. exact Hlen.
Qed.

Lemma buildScop_traced A tempScop :
  forall T bs bs',
    buildScop A tempScop T bs = Ret bs' ->
    buildScop_trace A tempScop (blocks_with_nest A T (bs_NestLoops bs)) bs bs'.
Proof.
  intros T. induction T as [R elements IH] using RegionTree_nested_ind.
  intros bs bs' E. cbn [buildScop blocks_with_nest] in *.
  set (nest' := match castToLoop A R with
                | Some l => bs_NestLoops bs ++ [l]
                | None => bs_NestLoops bs
                end) in *.
  destruct (assertO _) as [|[]] eqn:Eassert; [discriminate|]. cbn [bindO] in E.
  assert (Hlen : (length nest' < length (bs_Scatter bs))%nat).
  { unfold assertO in Eassert.
    destruct (length nest' <? length (bs_Scatter bs))%nat eqn:El; [|discriminate].
    apply Nat.ltb_lt. exact El. }
  assert (Hel : forall l,
             Forall (fun e => match e with
                              | ElemSub sub =>
                                  forall bs bs',
                                    buildScop A tempScop sub bs = Ret bs' ->
                                    buildScop_trace A tempScop
                                      (blocks_with_nest A sub (bs_NestLoops bs)) bs bs'
                              | ElemBlock _ => True
                              end) l ->
             forall bs0 bs1,
               bs_NestLoops bs0 = nest' ->
               (length nest' < length (bs_Scatter bs0))%nat ->
               (fix elems (l : list (Element RegionTree)) (bs : BuildState) {struct l}
                  : outcome BuildState :=
                  match l with
                  | [] => Ret bs
                  | ElemSub sub :: l' => bs <- buildScop A tempScop sub bs ;; elems l' bs
                  | ElemBlock bb :: l' =>
                      bs <- buildScop_block A tempScop R (length nest') bb bs ;; elems l' bs
                  end) l bs0 = Ret bs1 ->
               buildScop_trace A tempScop
                 (flat_map (fun e => match e with
                                     | ElemBlock b => [(R, b, nest')]
                                     | ElemSub sub => blocks_with_nest A sub nest'
                                     end) l) bs0 bs1).
  { intros l Hl. induction Hl as [|e l He Hl IHl]; intros bs0 bs1 HN HL El.
    - injection El as <-. apply buildScop_trace_refl.
    - cbn [flat_map]. destruct e as [bb | sub].
      + destruct (buildScop_block A tempScop R (length nest') bb bs0) as [|b1] eqn:Eb;
          [discriminate|]. cbn [bindO] in El.
        rewrite <- HN in Eb. apply buildScop_block_trace in Eb; [|rewrite HN; exact HL].
        rewrite HN in Eb.
        eapply buildScop_trace_trans; [exact Eb|].
        destruct Eb as [HN1 [HL1 _]].
        apply IHl; [congruence | rewrite HL1; exact HL | exact El].
      + destruct (buildScop A tempScop sub bs0) as [|b1] eqn:Eb; [discriminate|].
        cbn [bindO] in El. apply He in Eb. rewrite HN in Eb.
        eapply buildScop_trace_trans; [exact Eb|].
        destruct Eb as [HN1 [HL1 _]].
        apply IHl; [congruence | rewrite HL1; exact HL | exact El]. }
  bind_inv E.
  apply Hel in Er; [| exact IH | reflexivity | exact Hlen].
  destruct Er as [HN [HL [HC [HD [HE [new [HS HF]]]]]]].
  cbn [bs_scop bs_NestLoops bs_Scatter] in HN, HL, HC, HD, HE, HS, HF.
  unfold buildScop_trace.
  destruct (castToLoop A R) as [l|] eqn:EL.
  - destruct (Scatter_reset _ _) as [|Sc1] eqn:E1; [discriminate|]. cbn [bindO] in E.
    destruct (Scatter_incr _ _) as [|Sc2] eqn:E2; [discriminate|]. cbn [bindO] in E.
    injection E as <-. cbn [bs_scop bs_NestLoops bs_Scatter].
    split; [rewrite HN; unfold nest'; apply removelast_last|].
    split; [rewrite (Scatter_incr_length _ _ _ E2), (Scatter_reset_length _ _ _ E1); exact HL|].
    split; [exact HC|]. split; [exact HD|]. split; [exact HE|].
    exists new. split; [exact HS | exact HF].
  - injection E as <-.
    split; [rewrite HN; reflexivity|]. split; [exact HL|].
    split; [exact HC|]. split; [exact HD|]. split; [exact HE|].
    exists new. split; [exact HS | exact HF].
Qed.

Lemma mapO_Forall2 {T U} (f : T -> outcome U) l : forall r,
  mapO f l = Ret r -> Forall2 (fun a b => f a = Ret b) l r.
Proof.
  induction l as [|a l IH]; intros r E; simpl in E.
  - injection E as <-. constructor.
  - destruct (f a) as [|b] eqn:Ea; [discriminate|]. cbn [bindO] in E.
    destruct (mapO f l) as [|r0]; [discriminate|]. cbn [bindO] in E.
    injection E as <-. constructor; [exact Ea | apply IH; reflexivity].
Qed.

Lemma mapO_returns {T U} (f : T -> outcome U) l :
  (forall a, In a l -> exists b, f a = Ret b) -> exists r, mapO f l = Ret r.
Proof.
  induction l as [|a l IH]; intros H; simpl; [eexists; reflexivity|].
  destruct (H a (or_introl eq_refl)) as [b Eb]. rewrite Eb. cbn [bindO].
  destruct IH as [r Er]; [intros a' Ha'; apply H; right; exact Ha'|].
  rewrite Er. cbn [bindO]. eexists. reflexivity.
Qed.

(** Realigning a statement to a space all of whose parameters are named
    returns, and changes neither its block nor its iterators, name, number
    of accesses, and the points of its domain. *)
Lemma ScopStmt_realignParams_returns sp stmt :
  Isl.has_named_params (Isl.sp_params sp) = true ->
  exists stmt', ScopStmt_realignParams (Some sp) stmt = Ret stmt'.
Proof.
  intros Hn. unfold ScopStmt_realignParams.
  destruct (mapO_returns (MemoryAccess_realignParams (Some sp)) (MemAccs stmt)) as [Ms EM].
  { intros MA _. unfold MemoryAccess_realignParams.
    destruct (AccessRelation MA); cbn [isl_map_align_params]; [rewrite Hn|];
      cbn [bindO]; eexists; reflexivity. }
  rewrite EM. cbn [bindO].
  destruct (Domain stmt); cbn [isl_set_align_params]; [rewrite Hn|]; cbn [bindO];
    (destruct (Scattering stmt); cbn [isl_map_align_params]; [rewrite Hn|]; cbn [bindO];
     eexists; reflexivity).
Qed.

Lemma ScopStmt_realignParams_fields sp stmt stmt' :
  ScopStmt_realignParams sp stmt = Ret stmt' ->
  BB stmt' = BB stmt /\ IVS stmt' = IVS stmt /\ BaseName stmt' = BaseName stmt
  /\ isl_map_align_params (Scattering stmt) sp = Ret (Scattering stmt').
Proof.
  intros E. unfold ScopStmt_realignParams in E.
  destruct (mapO _ (MemAccs stmt)) as [|Ms]; [discriminate|]. cbn [bindO] in E.
  destruct (isl_set_align_params _ _) as [|D]; [discriminate|]. cbn [bindO] in E.
  destruct (isl_map_align_params _ _) as [|Sc]; [discriminate|]. cbn [bindO] in E.
  injection E as <-. repeat split.
Qed.

(** The state in which the constructor of [Scop] starts the traversal. *)
Definition initial_state (tempScop : TempScop) : BuildState :=
  mkBuildState (mkScop (mkScopParams [] []) buildContext [] (TS_MaxLoopDepth tempScop))
               [] (repeat 0 (unsigned_of (TS_MaxLoopDepth tempScop + 1))).

Lemma Scop_ctor_unfold A tempScop :
  Scop_ctor A tempScop =
  (bs <- buildScop A tempScop (TS_MaxRegion tempScop) (initial_state tempScop) ;;
   Sc <- Scop_realignParams (bs_scop bs) ;;
   assertO (match bs_NestLoops bs with [] => true | _ => false end) ;;;
   Ret Sc).
Proof. reflexivity. Qed.

Lemma Scop_realignParams_returns Sc :
  params_wf (SC_Params Sc) -> Context Sc = buildContext ->
  exists Ss,
    mapO (ScopStmt_realignParams
            (Some (Isl.set_get_space
                     (Isl.set_align_params (Isl.set_universe (Isl.space_params_alloc 0))
                                           (global_params (SC_Params Sc))))))
         (Stmts Sc) = Ret Ss
    /\ Scop_realignParams Sc =
       Ret (mkScop (SC_Params Sc)
                   (Some (Isl.set_align_params (Isl.set_universe (Isl.space_params_alloc 0))
                                               (global_params (SC_Params Sc))))
                   Ss (MaxLoopDepth Sc)).
Proof.
  intros Hwf Hctx.
  destruct (mapO_returns
              (ScopStmt_realignParams
                 (Some (Isl.set_get_space
                          (Isl.set_align_params (Isl.set_universe (Isl.space_params_alloc 0))
                                                (global_params (SC_Params Sc))))))
              (Stmts Sc)) as [Ss ES].
  { intros stmt _. apply ScopStmt_realignParams_returns.
    cbn [Isl.set_get_space Isl.sp_params]. apply has_named_params_map_Some. }
  exists Ss. split; [exact ES|].
  unfold Scop_realignParams. rewrite (realignParams_space_global _ Hwf). cbn [bindO].
  rewrite Hctx. unfold buildContext. cbn [isl_set_align_params Isl.sp_params].
  rewrite has_named_params_map_Some, named_map_Some.
  cbn [bindO SC_Params Context Stmts MaxLoopDepth getParamSpace isl_set_get_space option_map].
  rewrite ES. reflexivity.
Qed.

(** X4. Once the traversal of the region tree has returned, the constructor of
    [Scop] returns: the realignment finds an identifier for every dimension
    and a named model for every object, and the vector of the loops is empty
    again, so that the closing assertion holds.  The Scop has the parameters
    the traversal left and one statement for each it built. *)
Theorem Scop_ctor_returns_after_traversal :
  forall (A : Analyses) (tempScop : TempScop) (bs : BuildState),
    buildScop A tempScop (TS_MaxRegion tempScop) (initial_state tempScop) = Ret bs ->
    bs_NestLoops bs = []
    /\ params_wf (SC_Params (bs_scop bs))
    /\ exists scop,
         Scop_ctor A tempScop = Ret scop
         /\ SC_Params scop = SC_Params (bs_scop bs)
         /\ MaxLoopDepth scop = TS_MaxLoopDepth tempScop
         /\ Forall2 (fun s s' => BB s' = BB s /\ IVS s' = IVS s /\ BaseName s' = BaseName s)
                    (Stmts (bs_scop bs)) (Stmts scop).
Proof.
  intros A tempScop bs E.
  destruct (buildScop_traced _ _ _ _ _ E) as [HN [HL [HC [HD [HE _]]]]].
  cbn [initial_state bs_scop bs_NestLoops Context MaxLoopDepth SC_Params] in HN, HC, HD, HE.
  assert (Hwf : params_wf (SC_Params (bs_scop bs))).
  { eapply extends_wf; [exact HE | exact params_wf_empty]. }
  split; [exact HN|]. split; [exact Hwf|].
  destruct (Scop_realignParams_returns _ Hwf HC) as [Ss [ES ER]].
  eexists. rewrite Scop_ctor_unfold, E. cbn [bindO]. rewrite ER. cbn [bindO].
  rewrite HN. cbn [assertO bindO]. split; [reflexivity|].
  cbn [SC_Params MaxLoopDepth Stmts]. split; [reflexivity|]. split; [exact HD|].
  apply mapO_Forall2 in ES. eapply Forall2_impl; [|exact ES].
  intros s s' Hs. apply ScopStmt_realignParams_fields in Hs.
  destruct Hs as [H1 [H2 [H3 _]]]. repeat split; assumption.
Qed.

Definition ex_built : BuildState :=
  Eval vm_compute in
    match buildScop ex_Analyses_unknowns ex_tempScop (TS_MaxRegion ex_tempScop)
                    (initial_state ex_tempScop) with
    | Ret bs => bs
    | Abort => initial_state ex_tempScop
    end.

Lemma Scop_ctor_returns_after_traversal_witness :
  bs_NestLoops ex_built = []
  /\ params_wf (SC_Params (bs_scop ex_built))
  /\ exists scop,
       Scop_ctor ex_Analyses_unknowns ex_tempScop = Ret scop
       /\ SC_Params scop = SC_Params (bs_scop ex_built)
       /\ MaxLoopDepth scop = TS_MaxLoopDepth ex_tempScop
       /\ Forall2 (fun s s' => BB s' = BB s /\ IVS s' = IVS s /\ BaseName s' = BaseName s)
                  (Stmts (bs_scop ex_built)) (Stmts scop).
Proof.
  apply (Scop_ctor_returns_after_traversal ex_Analyses_unknowns ex_tempScop ex_built).
  vm_compute. reflexivity.
Defined.

Lemma Forall2_map_eq {T U V} (f : T -> V) (g : U -> V) l l' :
  Forall2 (fun a b => f a = g b) l l' -> map f l = map g l'.
Proof. induction 1 as [|a b l l' H _ IH]; simpl; [reflexivity | rewrite H, IH; reflexivity]. Qed.

Lemma Forall2_compose {T U V} (P : T -> U -> Prop) (Q : U -> V -> Prop) l1 l2 l3 :
  Forall2 P l1 l2 -> Forall2 Q l2 l3 -> Forall2 (fun a c => exists b, P a b /\ Q b c) l1 l3.
Proof.
  intros H. revert l3. induction H as [|a b l1 l2 Hab _ IH]; intros l3 H3; inversion H3; subst.
  - constructor.
  - constructor; [exists b; split; assumption | apply IH; assumption].
Qed.

Lemma Forall2_flip {T U} (P : T -> U -> Prop) l l' :
  Forall2 P l l' -> Forall2 (fun b a => P a b) l' l.
Proof. induction 1; constructor; assumption. Qed.

(** What the traversal leaves, and what the realignment keeps of it. *)
Lemma Scop_ctor_built A tempScop bs :
  buildScop A tempScop (TS_MaxRegion tempScop) (initial_state tempScop) = Ret bs ->
  MaxLoopDepth (bs_scop bs) = TS_MaxLoopDepth tempScop
  /\ Forall2 (built_stmt A tempScop buildContext (TS_MaxLoopDepth tempScop)
                         (unsigned_of (TS_MaxLoopDepth tempScop + 1)))
             (Stmts (bs_scop bs))
             (filter (nontrivial tempScop) (blocks_with_nest A (TS_MaxRegion tempScop) []))
  /\ forall Sc,
       Scop_realignParams (bs_scop bs) = Ret Sc ->
       MaxLoopDepth Sc = TS_MaxLoopDepth tempScop
       /\ Forall2 (fun s s' =>
                     BB s' = BB s /\ IVS s' = IVS s /\ BaseName s' = BaseName s
                     /\ exists sp, isl_map_align_params (Scattering s) (Some sp)
                                   = Ret (Scattering s'))
                  (Stmts (bs_scop bs)) (Stmts Sc).
Proof.
  intros E.
  destruct (buildScop_traced _ _ _ _ _ E) as [HN [HL [HC [HD [HE [new [HS HF]]]]]]].
  cbn [initial_state bs_scop bs_NestLoops bs_Scatter Context MaxLoopDepth SC_Params Stmts app]
    in HN, HC, HD, HE, HS, HF.
  rewrite repeat_length in HF. rewrite <- HS in HF.
  split; [exact HD|]. split; [exact HF|].
  intros Sc ER.
  assert (Hwf : params_wf (SC_Params (bs_scop bs))).
  { eapply extends_wf; [exact HE | exact params_wf_empty]. }
  destruct (Scop_realignParams_returns _ Hwf HC) as [Ss [ES ER']].
  rewrite ER' in ER. injection ER as <-. cbn [MaxLoopDepth Stmts]. split; [exact HD|].
  apply mapO_Forall2 in ES. eapply Forall2_impl; [|exact ES].
  intros s s' Hs. apply ScopStmt_realignParams_fields in Hs.
  destruct Hs as [H1 [H2 [H3 H4]]]. repeat split; try assumption.
  eexists. exact H4.
Qed.

(** X5. The statements of a Scop, in order, are the blocks of the region tree
    that have an access on record, in the order of the traversal: a block
    without one gives no statement.  The iterators of a statement are the
    loops of the loop regions around its block, outermost first, each with its
    canonical induction variable, and there are at most [MaxLoopDepth] of
    them. *)
Theorem Scop_ctor_statements :
  forall (A : Analyses) (tempScop : TempScop) (scop : Scop),
    Scop_ctor A tempScop = Ret scop ->
    map (fun s => (BB s, map snd (IVS s))) (Stmts scop)
    = map (fun rbn => (Some (snd (fst rbn)), snd rbn))
          (filter (nontrivial tempScop) (blocks_with_nest A (TS_MaxRegion tempScop) []))
    /\ forall stmt, In stmt (Stmts scop) ->
         (getNumIterators stmt <= MaxLoopDepth scop)%nat
         /\ (forall i L, getLoopForDimension stmt i = Some L ->
                         option_map (fun vl => Some (fst vl)) (nth_error (IVS stmt) i)
                         = Some (loop_civ L))
         /\ exists bb, BB stmt = Some bb
                       /\ BaseName stmt = String.append "Stmt_" (makeIslCompatible (bb_operand bb)).
Proof.
  intros A tempScop scop E. rewrite Scop_ctor_unfold in E.
  destruct (buildScop _ _ _ _) as [|bs] eqn:EB; [discriminate|]. cbn [bindO] in E.
  destruct (Scop_ctor_built A tempScop bs EB) as [HD [Hstm HR]].
  destruct (Scop_realignParams (bs_scop bs)) as [|Sc] eqn:ER; [discriminate|].
  cbn [bindO] in E.
  destruct (assertO _) as [|[]]; [discriminate|]. cbn [bindO] in E. injection E as <-.
  specialize (HR Sc eq_refl). destruct HR as [HDs HF].
  assert (Hall : Forall2 (fun s' rbn =>
                            BB s' = Some (snd (fst rbn)) /\ map snd (IVS s') = snd rbn
                            /\ map (fun vl => Some (fst vl)) (IVS s') = map loop_civ (snd rbn)
                            /\ BaseName s' = String.append "Stmt_"
                                               (makeIslCompatible (bb_operand (snd (fst rbn))))
                            /\ (length (snd rbn) < TS_MaxLoopDepth tempScop + 1)%nat)
                         (Stmts Sc)
                         (filter (nontrivial tempScop)
                                 (blocks_with_nest A (TS_MaxRegion tempScop) []))).
  { eapply Forall2_impl; [|exact (Forall2_compose _ _ _ _ _ (Forall2_flip _ _ _ HF) Hstm)].
    intros s' rbn [s [[H1 [H2 [H3 _]]] [parent [Scatter [St' [EC [_ [_ [HL Hlt]]]]]]]]].
    destruct (ScopStmt_ctor_fields _ _ _ _ _ _ _ _ _ EC) as [F1 [F2 [F3 [F4 _]]]].
    rewrite H1, H2, H3. repeat split; try assumption.
    pose proof (unsigned_of_le (TS_MaxLoopDepth tempScop + 1)). lia. }
  split.
  - apply Forall2_map_eq. eapply Forall2_impl; [|exact Hall].
    intros s' rbn [F1 [F2 _]]. rewrite F1, F2. reflexivity.
  - intros stmt Hin.
    assert (Hex : exists rbn : Region * BasicBlock * list Loop,
               BB stmt = Some (snd (fst rbn)) /\ map snd (IVS stmt) = snd rbn
               /\ map (fun vl => Some (fst vl)) (IVS stmt) = map loop_civ (snd rbn)
               /\ BaseName stmt = String.append "Stmt_"
                                    (makeIslCompatible (bb_operand (snd (fst rbn))))
               /\ (length (snd rbn) < TS_MaxLoopDepth tempScop + 1)%nat).
    { clear -Hall Hin. induction Hall as [|s' rbn l l' H _ IH]; [destruct Hin|].
      destruct Hin as [<- | Hin]; [exists rbn; exact H | exact (IH Hin)]. }
    destruct Hex as [rbn [F1 [F2 [F3 [F4 F5]]]]].
    split; [|split].
    + unfold getNumIterators. rewrite F1, HDs.
      rewrite <- F2, length_map in F5. lia.
    + intros i L HL. unfold getLoopForDimension in HL.
      destruct (nth_error (IVS stmt) i) as [[v l]|] eqn:En; [|discriminate].
      cbn [option_map snd fst] in *. injection HL as ->.
      pose proof (map_nth_error (fun vl => Some (fst vl)) _ _ En) as M1.
      pose proof (map_nth_error snd _ _ En) as M2.
      rewrite F3, <- F2 in M1. rewrite nth_error_map, M2 in M1. cbn [option_map snd fst] in M1.
      congruence.
    + exists (snd (fst rbn)). split; assumption.
Qed.

(** ** ScopInfo: the scattering is a schedule *)

(** The time tuple of the iteration [x] of a statement with [nb] iterators
    at the lexical position [pos]: the numbers of the position alternate with
    the iterators, and zeros fill the tuple up to its [2 * D + 1]
    coordinates. *)
Definition time_of (nb D : nat) (pos : list nat) (x : Isl.point) : Isl.point :=
  flat_map (fun i => [Z.of_nat (nth i pos 0%nat); nth i x 0]) (seq 0 nb)
  ++ [Z.of_nat (nth nb pos 0%nat)] ++ repeat 0 (2 * D - 2 * nb).

Lemma nth_error_pairs {T} (g h : nat -> T) n : forall a rest k,
  (k < n)%nat ->
  nth_error (flat_map (fun i => [g i; h i]) (seq a n) ++ rest) (2 * k) = Some (g (a + k)%nat)
  /\ nth_error (flat_map (fun i => [g i; h i]) (seq a n) ++ rest) (2 * k + 1)
     = Some (h (a + k)%nat).
Proof.
  induction n as [|n IH]; intros a rest k Hk; [lia|].
  cbn [seq flat_map app]. destruct k as [|k].
  - rewrite Nat.add_0_r. split; reflexivity.
  - replace (2 * S k)%nat with (S (S (2 * k))) by lia.
    replace (S (S (2 * k)) + 1)%nat with (S (S (2 * k + 1))) by lia.
    cbn [nth_error]. replace (a + S k)%nat with (S a + k)%nat by lia.
    apply IH. lia.
Qed.

Lemma length_pairs {T} (g h : nat -> T) n a :
  length (flat_map (fun i => [g i; h i]) (seq a n)) = (2 * n)%nat.
Proof.
  revert a. induction n as [|n IH]; intros a; [reflexivity|].
  cbn [seq flat_map app length]. rewrite IH. lia.
Qed.

Lemma time_of_length nb D pos x :
  (nb <= D)%nat -> length (time_of nb D pos x) = (2 * D + 1)%nat.
Proof.
  intros H. unfold time_of. rewrite !length_app, length_pairs, repeat_length. simpl. lia.
Qed.

Lemma time_of_even nb D pos x i :
  (i <= nb)%nat ->
  nth_error (time_of nb D pos x) (2 * i) = Some (Z.of_nat (nth i pos 0%nat)).
Proof.
  intros Hi. unfold time_of. destruct (Nat.eq_dec i nb) as [->|Hne].
  - rewrite nth_error_app2 by (rewrite length_pairs; lia).
    rewrite length_pairs, Nat.sub_diag. reflexivity.
  - apply (nth_error_pairs (fun i => Z.of_nat (nth i pos 0%nat)) (fun i => nth i x 0)). lia.
Qed.

Lemma time_of_odd nb D pos x i :
  (i < nb)%nat -> nth_error (time_of nb D pos x) (2 * i + 1) = Some (nth i x 0).
Proof.
  intros Hi. unfold time_of.
  apply (nth_error_pairs (fun i => Z.of_nat (nth i pos 0%nat)) (fun i => nth i x 0)).
  exact Hi.
Qed.

Lemma time_of_fill nb D pos x j :
  (2 * nb < j < 2 * D + 1)%nat -> nth_error (time_of nb D pos x) j = Some 0.
Proof.
  intros Hj. unfold time_of.
  rewrite nth_error_app2 by (rewrite length_pairs; lia). rewrite length_pairs.
  rewrite nth_error_app2 by (simpl; lia). apply nth_error_repeat. simpl. lia.
Qed.

(** A tuple is the time tuple exactly when it has its coordinates. *)
Lemma time_of_coordinates nb D pos x y :
  length x = nb -> (nb <= D)%nat ->
  (y = time_of nb D pos x <->
   length y = (2 * D + 1)%nat
   /\ (forall i, (i < nb)%nat -> nth_error y (2 * i + 1) = nth_error x i)
   /\ (forall i, (i <= nb)%nat -> nth_error y (2 * i) = Some (Z.of_nat (nth i pos 0%nat)))
   /\ (forall j, (2 * nb < j < 2 * D + 1)%nat -> nth_error y j = Some 0)).
Proof.
  intros Hx Hnb.
  assert (Hxi : forall i, (i < nb)%nat -> nth_error x i = Some (nth i x 0)).
  { intros i Hi. apply nth_error_nth'. lia. }
  split.
  - intros ->. split; [apply time_of_length; exact Hnb|]. split; [|split].
    + intros i Hi. rewrite time_of_odd, Hxi by exact Hi. reflexivity.
    + intros i Hi. apply time_of_even. exact Hi.
    + intros j Hj. apply time_of_fill. exact Hj.
  - intros [Hy [Ho [He Hf]]]. apply nth_error_ext. intros n.
    destruct (Nat.lt_ge_cases n (2 * D + 1)) as [Hlt | Hge].
    + destruct (Nat.lt_ge_cases (2 * nb) n) as [Hfill | Hlow].
      * rewrite Hf, time_of_fill by lia. reflexivity.
      * destruct (Nat.Even_or_Odd n) as [[i ->] | [i ->]].
        -- rewrite He, time_of_even by lia. reflexivity.
        -- rewrite Ho, Hxi, time_of_odd by lia. reflexivity.
    + rewrite (proj2 (nth_error_None y n)) by lia.
      rewrite (proj2 (nth_error_None _ n)); [reflexivity|].
      rewrite time_of_length by exact Hnb. lia.
Qed.

(** The scattering [buildScattering] builds from counters that hold a
    lexical position is the graph of [time_of] at that position. *)
Lemma buildScattering_graph stmt D ctx (Scatter : list Z) (pos : list nat) :
  length Scatter = (D + 1)%nat ->
  (getNumIterators stmt <= D)%nat ->
  Z.of_nat (2 * D + 1) < 2 ^ 32 ->
  (forall i, (i <= getNumIterators stmt)%nat ->
             nth i Scatter 0 = Z.of_nat (nth i pos 0%nat)
             /\ Z.of_nat (nth i pos 0%nat) < 2 ^ 31) ->
  exists m,
    buildScattering stmt D (isl_set_get_space (Some ctx)) Scatter = Ret (Some m)
    /\ forall ps rho x y,
         (length x =? Isl.map_nin m)%nat && (length y =? Isl.map_nout m)%nat
         && Isl.bmap_mem ps rho x y (Isl.map_body m) = true <->
         (length x = getNumIterators stmt /\ y = time_of (getNumIterators stmt) D pos x).
Proof.
  intros Hlen Hnb HD Hpos.
  destruct (buildScattering_relation stmt D ctx Scatter Hlen Hnb HD) as [m [E [_ [_ Hm]]]].
  exists m. split; [exact E|]. intros ps rho x y. rewrite (Hm ps rho x y).
  assert (Hc : forall i, (i <= getNumIterators stmt)%nat ->
                 option_map int_of_unsigned (nth_error Scatter i)
                 = Some (Z.of_nat (nth i pos 0%nat))).
  { intros i Hi. rewrite (nth_error_nth' Scatter 0) by lia. cbn [option_map].
    destruct (Hpos i Hi) as [-> Hlt]. rewrite int_of_unsigned_small by lia. reflexivity. }
  split.
  - intros [Hx [Hy [Ho [He Hf]]]]. split; [exact Hx|].
    apply (time_of_coordinates _ D pos x y Hx Hnb).
    split; [exact Hy|]. split; [exact Ho|]. split; [|exact Hf].
    intros i Hi. rewrite (He i Hi). apply Hc. exact Hi.
  - intros [Hx Hy]. apply (time_of_coordinates _ D pos x y Hx Hnb) in Hy.
    destruct Hy as [Hy [Ho [He Hf]]].
    split; [exact Hx|]. split; [exact Hy|]. split; [exact Ho|]. split; [|exact Hf].
    intros i Hi. rewrite (He i Hi). symmetry. apply Hc. exact Hi.
Qed.

Lemma isl_map_align_params_body m sp m' :
  isl_map_align_params (Some m) (Some sp) = Ret m' ->
  exists r, m' = Some r /\ Isl.map_nin r = Isl.map_nin m /\ Isl.map_nout r = Isl.map_nout m
            /\ Isl.map_body r = Isl.map_body m.
Proof.
  cbn [isl_map_align_params]. destruct (Isl.has_named_params _); [|discriminate].
  intros [= <-]. eexists. repeat split.
Qed.

Lemma Forall2_In_l {T U} (P : T -> U -> Prop) l l' a :
  Forall2 P l l' -> In a l -> exists b, In b l' /\ P a b.
Proof.
  induction 1 as [|x y l l' H _ IH]; intros Hin; [destruct Hin|].
  destruct Hin as [<- | Hin].
  - exists y. split; [left; reflexivity | exact H].
  - destruct (IH Hin) as [b [Hb Pb]]. exists b. split; [right; exact Hb | exact Pb].
Qed.

Lemma Forall2_In_r {T U} (P : T -> U -> Prop) l l' b :
  Forall2 P l l' -> In b l' -> exists a, In a l /\ P a b.
Proof.
  induction 1 as [|x y l l' H _ IH]; intros Hin; [destruct Hin|].
  destruct Hin as [<- | Hin].
  - exists x. split; [left; reflexivity | exact H].
  - destruct (IH Hin) as [a [Ha Pa]]. exists a. split; [right; exact Ha | exact Pa].
Qed.

Lemma ScopStmt_ctor_scattering A parent tempScop CurRegion bb NestLoops Scatter stmt St' :
  ScopStmt_ctor A parent tempScop CurRegion bb NestLoops Scatter = Ret (stmt, St') ->
  exists this,
    getNumIterators this = getNumIterators stmt
    /\ getNumIterators stmt = length NestLoops
    /\ buildScattering this (MaxLoopDepth parent) (getParamSpace parent) Scatter
       = Ret (Scattering stmt).
Proof.
  intros E. pose proof (ScopStmt_ctor_fields _ _ _ _ _ _ _ _ _ E) as [F1 [F2 _]].
  unfold ScopStmt_ctor in E.
  destruct (setupIVS NestLoops) as [|ivs] eqn:EI; [discriminate|]. cbn [bindO] in E.
  destruct (buildDomain _ _ _ _ _ _) as [|[D St1]] eqn:ED; [discriminate|].
  cbn [bindO fst snd] in E.
  destruct (buildScattering _ _ _ _) as [|Sc] eqn:ES; [discriminate|]. cbn [bindO] in E.
  destruct (buildAccesses _ _ _ _ _) as [|[Ms St2]] eqn:EAcc; [discriminate|].
  cbn [bindO fst snd] in E. injection E as <- <-.
  eexists. split; [|split; [|exact ES]].
  - reflexivity.
  - unfold getNumIterators. cbn [BB IVS] in *. rewrite <- F2, length_map. reflexivity.
Qed.

(** *** The lexical positions of the statements

    Inside a loop, and outside all loops, the statements and the loops are
    numbered from 0 in the order of the traversal, a region that is no loop
    being numbered through and a block without access not at all.  The
    lexical position of a statement is the numbers of the loops around it,
    outermost first, followed by its own.  [number_elements] numbers the
    elements of a region from [k] on, below the numbers [outer]; it gives the
    positions of the statements and the next number. *)
Fixpoint number_elements
    (sub_positions : RegionTree -> list nat -> nat -> list (BasicBlock * list nat) * nat)
    (tempScop : TempScop) (l : list (Element RegionTree)) (outer : list nat) (k : nat)
  : list (BasicBlock * list nat) * nat :=
  match l with
  | [] => ([], k)
  | ElemBlock b :: l' =>
      if isTrivialBB b tempScop then number_elements sub_positions tempScop l' outer k
      else
        let r := number_elements sub_positions tempScop l' outer (S k) in
        ((b, outer ++ [k]) :: fst r, snd r)
  | ElemSub sub :: l' =>
      let r := sub_positions sub outer k in
      let r' := number_elements sub_positions tempScop l' outer (snd r) in
      (fst r ++ fst r', snd r')
  end.

Fixpoint lexical_positions (A : Analyses) (tempScop : TempScop) (T : RegionTree)
    (outer : list nat) (k : nat) {struct T} : list (BasicBlock * list nat) * nat :=
  match T with
  | RegionT R elements =>
      match castToLoop A R with
      | Some _ =>
          (fst (number_elements (lexical_positions A tempScop) tempScop elements
                                (outer ++ [k]) 0%nat),
           S k)
      | None => number_elements (lexical_positions A tempScop) tempScop elements outer k
      end
  end.

(** The number of the regions and blocks of a region tree. *)
Fixpoint region_size (T : RegionTree) : nat :=
  match T with
  | RegionT _ elements =>
      S (list_sum (map (fun e => match e with
                                 | ElemBlock _ => 1%nat
                                 | ElemSub sub => region_size sub
                                 end) elements))
  end.

Definition elements_size (l : list (Element RegionTree)) : nat :=
  list_sum (map (fun e => match e with
                          | ElemBlock _ => 1%nat
                          | ElemSub sub => region_size sub
                          end) l).

(** The vector of the counters while the elements below the numbers [outer]
    are numbered, [k] being the next number: the deeper counters are 0. *)
Definition counters (outer : list nat) (k zs : nat) : list Z :=
  map Z.of_nat outer ++ Z.of_nat k :: repeat 0 zs.

Lemma counters_length outer k zs : length (counters outer k zs) = (length outer + S zs)%nat.
Proof. unfold counters. rewrite length_app, length_map. simpl. rewrite repeat_length. lia. Qed.

Lemma counters_snoc outer k zs : counters (outer ++ [k]) 0 zs = counters outer k (S zs).
Proof. unfold counters. rewrite map_app, <- app_assoc. reflexivity. Qed.

Lemma counters_nth outer k zs i :
  (i < length (outer ++ [k]))%nat ->
  nth i (counters outer k zs) 0 = Z.of_nat (nth i (outer ++ [k]) 0%nat).
Proof.
  intros Hi. unfold counters.
  replace (map Z.of_nat outer ++ Z.of_nat k :: repeat 0 zs)
    with (map Z.of_nat (outer ++ [k]) ++ repeat 0 zs)
    by (rewrite map_app, <- app_assoc; reflexivity).
  rewrite app_nth1 by (rewrite length_map; exact Hi).
  change 0 with (Z.of_nat 0%nat). apply map_nth.
Qed.

Lemma Scatter_incr_counters outer k zs :
  Z.of_nat (S k) < 2 ^ 32 ->
  Scatter_incr (counters outer k zs) (length outer) = Ret (counters outer (S k) zs).
Proof.
  intros Hk. unfold Scatter_incr, counters.
  rewrite nth_error_app2 by (rewrite length_map; lia).
  rewrite length_map, Nat.sub_diag. cbn [nth_error].
  rewrite <- (length_map Z.of_nat outer) at 1. rewrite list_set_middle.
  unfold unsigned_wrap. rewrite Z.mod_small by lia.
  replace (Z.of_nat k + 1) with (Z.of_nat (S k)) by lia. reflexivity.
Qed.

Lemma Scatter_reset_counters outer k zs :
  Scatter_reset (counters outer k zs) (length outer) = Ret (counters outer 0 zs).
Proof.
  unfold Scatter_reset, counters.
  rewrite <- (length_map Z.of_nat outer) at 1. rewrite list_set_middle. reflexivity.
Qed.

(** A statement is the one the constructor builds for a block at a lexical
    position: the counters passed to the constructor begin with the numbers
    of the position. *)
Definition positioned (A : Analyses) (tempScop : TempScop) (Ctx : isl_set) (D len : nat)
    (stmt : ScopStmt) (bp : BasicBlock * list nat) : Prop :=
  exists parent CurRegion NestLoops Scatter St',
    ScopStmt_ctor A parent tempScop CurRegion (fst bp) NestLoops Scatter = Ret (stmt, St')
    /\ Context parent = Ctx /\ MaxLoopDepth parent = D
    /\ length Scatter = len
    /\ length (snd bp) = S (length NestLoops)
    /\ (length NestLoops < len)%nat
    /\ (forall i, (i < length (snd bp))%nat ->
                  nth i Scatter 0 = Z.of_nat (nth i (snd bp) 0%nat))
    /\ Forall (fun p => Z.of_nat p < 2 ^ 31) (snd bp).

Lemma lexical_positions_unfold A tempScop R elements outer k :
  lexical_positions A tempScop (RegionT R elements) outer k =
  match castToLoop A R with
  | Some _ =>
      (fst (number_elements (lexical_positions A tempScop) tempScop elements
                            (outer ++ [k]) 0%nat),
       S k)
  | None => number_elements (lexical_positions A tempScop) tempScop elements outer k
  end.
Proof. reflexivity. Qed.

Lemma region_size_unfold R elements :
  region_size (RegionT R elements) = S (elements_size elements).
Proof. reflexivity. Qed.

Lemma elements_size_cons e l :
  elements_size (e :: l) =
  (match e with ElemBlock _ => 1 | ElemSub sub => region_size sub end + elements_size l)%nat.
Proof. reflexivity. Qed.

(** The traversal keeps the counters at the numbers of the lexical
    positions, as long as no counter wraps around. *)
Lemma buildScop_positions A tempScop Ctx D :
  forall T bs bs' outer k zs,
    buildScop A tempScop T bs = Ret bs' ->
    Context (bs_scop bs) = Ctx -> MaxLoopDepth (bs_scop bs) = D ->
    length outer = length (bs_NestLoops bs) ->
    bs_Scatter bs = counters outer k zs ->
    Forall (fun p => Z.of_nat p < 2 ^ 31) outer ->
    Z.of_nat (k + region_size T) < 2 ^ 31 ->
    bs_Scatter bs' = counters outer (snd (lexical_positions A tempScop T outer k)) zs
    /\ (snd (lexical_positions A tempScop T outer k) <= k + region_size T)%nat
    /\ exists new,
         Stmts (bs_scop bs') = Stmts (bs_scop bs) ++ new
         /\ Forall2 (positioned A tempScop Ctx D (length outer + S zs))
                    new (fst (lexical_positions A tempScop T outer k)).
Proof.
  intros T. induction T as [R elements IH] using RegionTree_nested_ind.
  intros bs bs' outer k zs E HCtx HD Hlen HSc Hout Hk.
  rewrite lexical_positions_unfold. rewrite region_size_unfold in Hk |- *.
  cbn [buildScop] in E.
  set (nest' := match castToLoop A R with
                | Some l => bs_NestLoops bs ++ [l]
                | None => bs_NestLoops bs
                end) in *.
  destruct (assertO _) as [|[]] eqn:Eassert; [discriminate|]. cbn [bindO] in E.
  assert (Hlt : (length nest' < length (bs_Scatter bs))%nat).
  { unfold assertO in Eassert.
    destruct (length nest' <? length (bs_Scatter bs))%nat eqn:El; [|discriminate].
    apply Nat.ltb_lt. exact El. }
  assert (Hel : forall l,
             Forall (fun e => match e with
                              | ElemSub sub =>
                                  forall bs bs' outer k zs,
                                    buildScop A tempScop sub bs = Ret bs' ->
                                    Context (bs_scop bs) = Ctx -> MaxLoopDepth (bs_scop bs) = D ->
                                    length outer = length (bs_NestLoops bs) ->
                                    bs_Scatter bs = counters outer k zs ->
                                    Forall (fun p => Z.of_nat p < 2 ^ 31) outer ->
                                    Z.of_nat (k + region_size sub) < 2 ^ 31 ->
                                    bs_Scatter bs'
                                    = counters outer
                                        (snd (lexical_positions A tempScop sub outer k)) zs
                                    /\ (snd (lexical_positions A tempScop sub outer k)
                                        <= k + region_size sub)%nat
                                    /\ exists new,
                                         Stmts (bs_scop bs') = Stmts (bs_scop bs) ++ new
                                         /\ Forall2 (positioned A tempScop Ctx D
                                                                (length outer + S zs))
                                                    new
                                                    (fst (lexical_positions A tempScop sub
                                                                            outer k))
                              | ElemBlock _ => True
                              end) l ->
             forall bs0 bs1 outer0 k0 zs0,
               bs_NestLoops bs0 = nest' ->
               Context (bs_scop bs0) = Ctx -> MaxLoopDepth (bs_scop bs0) = D ->
               length outer0 = length nest' ->
               bs_Scatter bs0 = counters outer0 k0 zs0 ->
               Forall (fun p => Z.of_nat p < 2 ^ 31) outer0 ->
               Z.of_nat (k0 + elements_size l) < 2 ^ 31 ->
               (fix elems (l : list (Element RegionTree)) (bs : BuildState) {struct l}
                  : outcome BuildState :=
                  match l with
                  | [] => Ret bs
                  | ElemSub sub :: l' => bs <- buildScop A tempScop sub bs ;; elems l' bs
                  | ElemBlock bb :: l' =>
                      bs <- buildScop_block A tempScop R (length nest') bb bs ;; elems l' bs
                  end) l bs0 = Ret bs1 ->
               bs_NestLoops bs1 = nest'
               /\ bs_Scatter bs1
                  = counters outer0
                      (snd (number_elements (lexical_positions A tempScop) tempScop l outer0 k0))
                      zs0
               /\ (snd (number_elements (lexical_positions A tempScop) tempScop l outer0 k0)
                   <= k0 + elements_size l)%nat
               /\ exists new,
                    Stmts (bs_scop bs1) = Stmts (bs_scop bs0) ++ new
                    /\ Forall2 (positioned A tempScop Ctx D (length outer0 + S zs0))
                               new
                               (fst (number_elements (lexical_positions A tempScop) tempScop
                                                     l outer0 k0))).
  { intros l Hl. induction Hl as [|e l He Hl IHl];
      intros bs0 bs1 outer0 k0 zs0 HN HC0 HD0 HL0 HS0 HO0 HK0 El.
    - injection El as <-. cbn [number_elements fst snd].
      split; [exact HN|]. split; [exact HS0|]. split; [lia|].
      exists []. split; [rewrite app_nil_r; reflexivity | constructor].
    - rewrite elements_size_cons in HK0 |- *. destruct e as [bb | sub].
      + destruct (buildScop_block A tempScop R (length nest') bb bs0) as [|b1] eqn:Eb;
          [discriminate|]. cbn [bindO] in El.
        cbn [number_elements]. unfold buildScop_block in Eb.
        destruct (isTrivialBB bb tempScop).
        * injection Eb as <-.
          destruct (IHl bs0 bs1 outer0 k0 zs0 HN HC0 HD0 HL0 HS0 HO0 ltac:(lia) El)
            as [G1 [G2 [G3 G4]]].
          split; [exact G1|]. split; [exact G2|]. split; [lia | exact G4].
        * destruct (ScopStmt_ctor _ _ _ _ _ _ _) as [|[stmt St']] eqn:EC; [discriminate|].
          cbn [bindO fst snd] in Eb.
          rewrite HS0, <- HL0, Scatter_incr_counters in Eb by lia.
          cbn [bindO] in Eb. injection Eb as <-.
          destruct (IHl (mkBuildState
                           (mkScop St' (Context (bs_scop bs0)) (Stmts (bs_scop bs0) ++ [stmt])
                                   (MaxLoopDepth (bs_scop bs0)))
                           (bs_NestLoops bs0) (counters outer0 (S k0) zs0))
                        bs1 outer0 (S k0) zs0 HN HC0 HD0 HL0 eq_refl HO0 ltac:(lia) El)
            as [G1 [G2 [G3 [new [G4 G5]]]]].
          cbn [fst snd bs_scop Stmts] in *.
          split; [exact G1|]. split; [exact G2|]. split; [lia|].
          exists (stmt :: new). split; [rewrite G4, <- app_assoc; reflexivity|].
          constructor; [|exact G5].
          exists (bs_scop bs0), R, (bs_NestLoops bs0), (bs_Scatter bs0), St'. cbn [fst snd].
          split; [exact EC|]. split; [exact HC0|]. split; [exact HD0|].
          rewrite HS0, counters_length, HN.
          split; [reflexivity|]. split; [rewrite length_app; simpl; lia|]. split; [lia|].
          split; [intros i Hi; apply counters_nth; exact Hi|].
          apply Forall_app. split; [exact HO0|]. constructor; [lia | constructor].
      + destruct (buildScop A tempScop sub bs0) as [|b1] eqn:Eb; [discriminate|].
        cbn [bindO] in El. cbn [number_elements fst snd].
        pose proof (buildScop_traced A tempScop sub bs0 b1 Eb) as [T1 [T2 [T3 [T4 _]]]].
        destruct (He bs0 b1 outer0 k0 zs0 Eb HC0 HD0 ltac:(congruence) HS0 HO0 ltac:(lia))
          as [S1 [S2 [new1 [S3 S4]]]].
        destruct (IHl b1 bs1 outer0 _ zs0 ltac:(congruence) ltac:(congruence)
                      ltac:(congruence) HL0 S1 HO0 ltac:(lia) El)
          as [G1 [G2 [G3 [new2 [G4 G5]]]]].
        split; [exact G1|]. split; [exact G2|]. split; [lia|].
        exists (new1 ++ new2). split; [rewrite G4, S3, app_assoc; reflexivity|].
        apply Forall2_app; assumption. }
  bind_inv E.
  destruct (castToLoop A R) as [l|] eqn:EL.
  - (* a loop region: one level deeper *)
    assert (Hzs : exists zs', zs = S zs').
    { rewrite HSc, counters_length in Hlt. unfold nest' in Hlt.
      rewrite length_app in Hlt. simpl in Hlt. destruct zs as [|zs']; [lia | eauto]. }
    destruct Hzs as [zs' ->].
    apply (Hel elements IH _ _ (outer ++ [k]) 0%nat zs') in Er; cbn [bs_NestLoops bs_scop bs_Scatter].
    + destruct Er as [G1 [G2 [G3 [new [G4 G5]]]]].
      cbn [bs_scop] in G4.
      assert (Hn : length nest' = length (outer ++ [k])).
      { unfold nest'. rewrite !length_app. simpl. lia. }
      rewrite G2, Hn, Scatter_reset_counters in E. cbn [bindO] in E.
      rewrite counters_snoc in E.
      replace (length (outer ++ [k]) - 1)%nat with (length outer) in E
        by (rewrite length_app; simpl; lia).
      rewrite Scatter_incr_counters in E by lia.
      cbn [bindO] in E. injection E as <-. cbn [bs_Scatter bs_scop fst snd].
      split; [reflexivity|]. split; [lia|].
      exists new. split; [exact G4|].
      replace (length outer + S (S zs'))%nat with (length (outer ++ [k]) + S zs')%nat
        by (rewrite length_app; simpl; lia).
      exact G5.
    + reflexivity.
    + exact HCtx.
    + exact HD.
    + unfold nest'. rewrite !length_app. simpl. lia.
    + rewrite HSc, counters_snoc. reflexivity.
    + apply Forall_app. split; [exact Hout|]. constructor; [lia | constructor].
    + lia.
  - apply (Hel elements IH _ _ outer k zs) in Er; cbn [bs_NestLoops bs_scop bs_Scatter].
    + destruct Er as [G1 [G2 [G3 [new [G4 G5]]]]]. injection E as <-.
      split; [exact G2|]. split; [lia|]. exists new. split; [exact G4 | exact G5].
    + reflexivity.
    + exact HCtx.
    + exact HD.
    + exact Hlen.
    + exact HSc.
    + exact Hout.
    + lia.
Qed.

(** X6. In a Scop that was built, the scattering of a statement is a
    schedule that follows the traversal.  The statements are, in order, the
    blocks with their lexical positions; the scattering of a statement
    relates every iteration of the statement, a tuple of as many numbers as
    the statement has iterators, to exactly one time tuple, whose odd
    coordinates are the iterators and whose even coordinates are the numbers
    of the lexical position of the statement, completed by zeros.  The number
    of the dimensions fits the [unsigned] it is computed in, and the region
    tree has fewer than [2^31] regions and blocks, so that no counter wraps
    around. *)
Theorem Scop_ctor_scattering_schedule :
  forall (A : Analyses) (tempScop : TempScop) (scop : Scop),
    Scop_ctor A tempScop = Ret scop ->
    Z.of_nat (2 * TS_MaxLoopDepth tempScop + 1) < 2 ^ 32 ->
    Z.of_nat (region_size (TS_MaxRegion tempScop)) < 2 ^ 31 ->
    Forall2 (fun stmt bp =>
               BB stmt = Some (fst bp)
               /\ length (snd bp) = S (getNumIterators stmt)
               /\ exists s,
                    Scattering stmt = Some s
                    /\ forall rho x y,
                         Isl.map_mem rho x y s = true <->
                         (length x = getNumIterators stmt
                          /\ y = time_of (getNumIterators stmt) (MaxLoopDepth scop)
                                         (snd bp) x))
            (Stmts scop)
            (fst (lexical_positions A tempScop (TS_MaxRegion tempScop) [] 0%nat)).
Proof.
  intros A tempScop scop E HD HR. rewrite Scop_ctor_unfold in E.
  destruct (buildScop _ _ _ _) as [|bs] eqn:EB; [discriminate|]. cbn [bindO] in E.
  destruct (Scop_ctor_built A tempScop bs EB) as [HDb [_ HRe]].
  destruct (Scop_realignParams (bs_scop bs)) as [|Sc] eqn:ER; [discriminate|].
  cbn [bindO] in E.
  destruct (assertO _) as [|[]]; [discriminate|]. cbn [bindO] in E. injection E as <-.
  specialize (HRe Sc eq_refl). destruct HRe as [HDs HF]. rewrite HDs.
  set (Dm := TS_MaxLoopDepth tempScop) in *.
  destruct (buildScop_positions A tempScop buildContext Dm
              (TS_MaxRegion tempScop) (initial_state tempScop) bs [] 0%nat Dm EB)
    as [_ [_ [new [HS HP]]]].
  - reflexivity.
  - reflexivity.
  - reflexivity.
  - cbn [initial_state bs_Scatter]. fold Dm. rewrite unsigned_of_small by lia.
    unfold counters. rewrite Nat.add_1_r. reflexivity.
  - constructor.
  - cbn [Nat.add]. exact HR.
  - cbn [initial_state bs_scop Stmts app] in HS. rewrite <- HS in HP. cbn [length Nat.add] in HP.
    eapply Forall2_impl; [|exact (Forall2_compose _ _ _ _ _ (Forall2_flip _ _ _ HF) HP)].
    intros stmt bp [s0 [[F1 [F2 [_ [sp Hal]]]]
                          [parent [CurRegion [NestLoops [Scatter [St' [EC [HC [HDp [HL [Hpl
                             [Hlt [Hnth Hb]]]]]]]]]]]]]].
    destruct (ScopStmt_ctor_fields _ _ _ _ _ _ _ _ _ EC) as [FB _].
    destruct (ScopStmt_ctor_scattering _ _ _ _ _ _ _ _ _ EC) as [this [Hnb [Hn0 ES]]].
    assert (Hnum : getNumIterators stmt = getNumIterators s0).
    { unfold getNumIterators. rewrite F1, F2. reflexivity. }
    split; [rewrite F1; exact FB|]. split; [rewrite Hnum, Hn0; exact Hpl|].
    unfold getParamSpace in ES. rewrite HC, HDp in ES. unfold buildContext in ES.
    destruct (buildScattering_graph this Dm (Isl.set_universe (Isl.space_params_alloc 0))
                Scatter (snd bp)) as [m [Em Hm]].
    + rewrite HL. lia.
    + rewrite Hnb, Hn0. lia.
    + exact HD.
    + intros i Hi. rewrite Hnb, Hn0 in Hi. split; [apply Hnth; lia|].
      rewrite Forall_forall in Hb. apply Hb. apply nth_In. lia.
    + rewrite Em in ES. injection ES as ES. rewrite <- ES in Hal.
      destruct (isl_map_align_params_body _ _ _ Hal) as [r [Er [Hi [Ho Hbd]]]].
      exists r. split; [exact Er|].
      intros rho x y. unfold Isl.map_mem. rewrite Hi, Ho, Hbd, Hnum, <- Hnb. apply Hm.
Qed.

(** ** A loop with a store

    The block [%entry], without access, is followed by the region of the
    loop [ex_L], whose body stores to [B[4 * i]] four bytes at a time, [i]
    running up to [n]. *)

Definition ex_loop_region : Region := mkRegion 1 ex_bb (Some ex_region).

Definition ex_loop_Analyses : Analyses :=
  mkAnalyses (fun _ => true) (fun L => Some L)
             (fun s => match s with scUnknown _ => [s] | _ => [] end)
             (fun R => if (getRegionId R =? 1)%nat then Some ex_L else None).

Definition ex_loop_tempScop : TempScop :=
  mkTempScop (RegionT ex_region
                [ElemBlock ex_entry; ElemSub (RegionT ex_loop_region [ElemBlock ex_bb])])
             (fun L => if Loop_eqb L ex_L then Some (scUnknown ex_n) else None)
             (fun _ => None)
             (fun b => if BasicBlock_eqb b ex_bb
                       then Some [(mkIRAccess WRITE ex_base
                                     (scAddRecExpr [scConstant (mkAPInt 64 0);
                                                    scConstant (mkAPInt 64 4)] ex_L)
                                     4 true, ex_civ)]
                       else None)
             1.

Definition ex_loop_scop : Scop :=
  Eval vm_compute in
    match Scop_ctor ex_loop_Analyses ex_loop_tempScop with
    | Ret Sc => Sc
    | Abort => ex_parent
    end.

Lemma Scop_ctor_statements_witness :
  map (fun s => (BB s, map snd (IVS s))) (Stmts ex_loop_scop)
  = map (fun rbn => (Some (snd (fst rbn)), snd rbn))
        (filter (nontrivial ex_loop_tempScop)
                (blocks_with_nest ex_loop_Analyses (TS_MaxRegion ex_loop_tempScop) []))
  /\ forall stmt, In stmt (Stmts ex_loop_scop) ->
       (getNumIterators stmt <= MaxLoopDepth ex_loop_scop)%nat
       /\ (forall i L, getLoopForDimension stmt i = Some L ->
                       option_map (fun vl => Some (fst vl)) (nth_error (IVS stmt) i)
                       = Some (loop_civ L))
       /\ exists bb, BB stmt = Some bb
                     /\ BaseName stmt = String.append "Stmt_" (makeIslCompatible (bb_operand bb)).
Proof.
  apply (Scop_ctor_statements ex_loop_Analyses ex_loop_tempScop ex_loop_scop).
  vm_compute. reflexivity.
Defined.

(** The one statement of the example is the body of the loop, under the
    loop; the entry block has none. *)
Example Scop_ctor_statements_example :
  map (fun s => (BB s, map snd (IVS s))) (Stmts ex_loop_scop) = [(Some ex_bb, [ex_L])].
Proof. reflexivity. Qed.

(** ** Two statements around a loop of two

    A block before the loop [ex_L], two blocks in it and one after it, each
    with a store; the entry block has no access. *)

Definition ex_before : BasicBlock := mkBB 10 "%before".
Definition ex_latch : BasicBlock := mkBB 11 "%loop.latch".
Definition ex_after : BasicBlock := mkBB 12 "%after".

Definition ex_sched_tempScop : TempScop :=
  mkTempScop (RegionT ex_region
                [ElemBlock ex_entry; ElemBlock ex_before;
                 ElemSub (RegionT ex_loop_region [ElemBlock ex_bb; ElemBlock ex_latch]);
                 ElemBlock ex_after])
             (fun L => if Loop_eqb L ex_L then Some (scUnknown ex_n) else None)
             (fun _ => None)
             (fun b => if BasicBlock_eqb b ex_entry then None
                       else Some [(mkIRAccess WRITE ex_base (scConstant (mkAPInt 64 0)) 4 true,
                                   ex_civ)])
             1.

Definition ex_sched_scop : Scop :=
  Eval vm_compute in
    match Scop_ctor ex_loop_Analyses ex_sched_tempScop with
    | Ret Sc => Sc
    | Abort => ex_parent
    end.

Lemma Scop_ctor_scattering_schedule_witness :
  Scop_ctor ex_loop_Analyses ex_sched_tempScop = Ret ex_sched_scop
  /\ Z.of_nat (2 * TS_MaxLoopDepth ex_sched_tempScop + 1) < 2 ^ 32
  /\ Z.of_nat (region_size (TS_MaxRegion ex_sched_tempScop)) < 2 ^ 31
  /\ Forall2 (fun stmt bp =>
                BB stmt = Some (fst bp)
                /\ length (snd bp) = S (getNumIterators stmt)
                /\ exists s,
                     Scattering stmt = Some s
                     /\ forall rho x y,
                          Isl.map_mem rho x y s = true <->
                          (length x = getNumIterators stmt
                           /\ y = time_of (getNumIterators stmt) (MaxLoopDepth ex_sched_scop)
                                          (snd bp) x))
             (Stmts ex_sched_scop)
             (fst (lexical_positions ex_loop_Analyses ex_sched_tempScop
                                     (TS_MaxRegion ex_sched_tempScop) [] 0%nat)).
Proof.
  split; [vm_compute; reflexivity|].
  split; [vm_compute; reflexivity|].
  split; [vm_compute; reflexivity|].
  apply (Scop_ctor_scattering_schedule ex_loop_Analyses ex_sched_tempScop ex_sched_scop);
    vm_compute; reflexivity.
Defined.

(** The lexical positions of the four statements, and the times of the
    statement before the loop, of the iteration 5 of the two statements in
    the loop, and of the statement after the loop. *)
Example Scop_ctor_schedule_example :
  fst (lexical_positions ex_loop_Analyses ex_sched_tempScop
                         (TS_MaxRegion ex_sched_tempScop) [] 0%nat)
  = [(ex_before, [0]); (ex_bb, [1; 0]); (ex_latch, [1; 1]); (ex_after, [2])]%nat
  /\ match map Scattering (Stmts ex_sched_scop) with
     | [Some s0; Some s1; Some s2; Some s3] =>
         Isl.map_mem (fun _ => 0) [] [0; 0; 0] s0 = true
         /\ Isl.map_mem (fun _ => 0) [5] [1; 5; 0] s1 = true
         /\ Isl.map_mem (fun _ => 0) [5] [1; 5; 1] s2 = true
         /\ Isl.map_mem (fun _ => 0) [] [2; 0; 0] s3 = true
         /\ Isl.map_mem (fun _ => 0) [5] [1; 5; 0] s2 = false
     | _ => False
     end.
Proof. vm_compute. repeat split. Qed.

(** ** TempScopInfo: what [buildCondition] leaves alone *)

Lemma branch_condition_length P BB step c :
  branch_condition P BB step = Ret c -> (length c <= 1)%nat.
Proof.
  unfold branch_condition. destruct (PDT_dominates P (fst step) (snd step)).
  - intros [= <-]. simpl. lia.
  - destruct (getTerminator P (snd step)) as [s | cnd s0 s1 |]; try discriminate.
    + intros [= <-]. simpl. lia.
    + destruct (buildAffineCondition P cnd (DT_dominates P s1 BB)); [discriminate|].
      intros [= <-]. simpl. lia.
Qed.

Lemma conditions_of_walk_length P BB steps : forall cs,
  conditions_of_walk P BB steps = Ret cs -> (length cs <= length steps)%nat.
Proof.
  induction steps as [|s steps IH]; intros cs E; simpl in E.
  - injection E as <-. simpl. lia.
  - destruct (branch_condition P BB s) as [|c] eqn:Ec; [discriminate|]. cbn [bindO] in E.
    destruct (conditions_of_walk P BB steps) as [|cs0]; [discriminate|]. cbn [bindO] in E.
    injection E as <-. rewrite length_app. simpl.
    pose proof (branch_condition_length _ _ _ _ Ec). pose proof (IH cs0 eq_refl). lia.
Qed.

(** X7. [buildCondition] touches the conditions of no block but its own, never
    records an empty list of conditions (which [printBBCond] asserts), and
    records at most one comparison for each step of the walk up the dominator
    tree; for the entry of the region itself the walk has no step, and
    nothing is recorded. *)
Theorem buildCondition_frame :
  (forall (P : Passes) (BB RegionEntry : BasicBlock) (m m' : BasicBlock -> option BBCond),
      buildCondition P BB RegionEntry m = Ret m' ->
      (forall b, b <> BB -> m' b = m b)
      /\ (m' BB = m BB \/ exists c cs, m' BB = Some (c :: cs))
      /\ (forall b, m' b = Some [] -> m b = Some [])
      /\ exists BBNode EntryNode steps,
           DT_getNode P BB = Some BBNode /\ DT_getNode P RegionEntry = Some EntryNode
           /\ dominator_walk EntryNode BBNode = Some steps
           /\ forall cs, m' BB = Some cs -> m' BB <> m BB -> (length cs <= length steps)%nat)
  /\ (forall (P : Passes) (BB : BasicBlock) (n : DomTreeNode) (m : BasicBlock -> option BBCond),
         DT_getNode P BB = Some n -> buildCondition P BB BB m = Ret m).
Proof.
  split.
  - intros P BB RegionEntry m m' E. unfold buildCondition in E.
    destruct (DT_getNode P BB) as [BBNode|] eqn:EN; [|discriminate].
    destruct (DT_getNode P RegionEntry) as [EntryNode|] eqn:EE; [|discriminate].
    rewrite buildCondition_walk_acc in E.
    destruct (dominator_walk EntryNode BBNode) as [steps|] eqn:EW; [|discriminate].
    destruct (conditions_of_walk P BB steps) as [|cs] eqn:EC; [discriminate|].
    cbn [bindO app] in E.
    pose proof (conditions_of_walk_length _ _ _ _ EC) as Hlen.
    destruct cs as [|c cs]; injection E as <-.
    + split; [reflexivity|]. split; [left; reflexivity|]. split; [auto|].
      exists BBNode, EntryNode, steps.
      split; [reflexivity|]. split; [reflexivity|]. split; [exact EW|].
      intros cs0 _ H. contradiction H; reflexivity.
    + unfold BBConds_set. split; [|split; [|split]].
      * intros b Hb. destruct (BasicBlock_eqb b BB) eqn:Eb; [|reflexivity].
        apply BasicBlock_eqb_eq in Eb. contradiction.
      * right. rewrite BasicBlock_eqb_refl. eauto.
      * intros b. destruct (BasicBlock_eqb b BB); [discriminate | auto].
      * exists BBNode, EntryNode, steps.
        split; [reflexivity|]. split; [reflexivity|]. split; [exact EW|].
        intros cs0. rewrite BasicBlock_eqb_refl. intros [= <-] _. exact Hlen.
  - intros P BB n m EN. unfold buildCondition. rewrite EN.
    destruct n as [b i]. cbn [buildCondition_walk].
    unfold DomTreeNode_ptr_eqb. rewrite BasicBlock_eqb_refl. reflexivity.
Qed.

(** ** ScopInfo: the two sides of a branch *)

Lemma cmp_of_inverse_predicate p c :
  cmp_of_predicate p = Some c ->
  exists c', cmp_of_predicate (getInversePredicate p) = Some c'
             /\ forall a b, Isl.cmp_holds c' a b = negb (Isl.cmp_holds c a b).
Proof.
  destruct p; simpl; intros [= <-]; eexists; (split; [reflexivity|]); intros a b; simpl;
    rewrite ?negb_involutive; try reflexivity;
    first [ apply Z.leb_antisym | apply Z.ltb_antisym
          | symmetry; apply Z.leb_antisym | symmetry; apply Z.ltb_antisym ].
Qed.

Lemma buildConditionSet_supported A stmt lhs rhs p c St L StL R StR :
  cmp_of_predicate p = Some c ->
  getPwAff A stmt lhs St = Ret (Some L, StL) ->
  getPwAff A stmt rhs StL = Ret (Some R, StR) ->
  buildConditionSet A stmt (mkComparison lhs rhs p) St
  = Ret (Some (Isl.pw_aff_cmp_set c L R), StR).
Proof.
  intros Hc EL ER. unfold buildConditionSet. cbn [getLHS getRHS getPred].
  rewrite EL. cbn [bindO fst snd]. rewrite ER. cbn [bindO fst snd].
  destruct p; simpl in Hc; try discriminate; injection Hc as <-; reflexivity.
Qed.

(** X8. The condition a block on the else side of a branch gets is the inverse
    of the one a block on the then side gets; the two condition sets
    [buildConditionSet] builds for them are complementary at every point where
    each operand has one value: a point is in exactly one of them. *)
Theorem buildConditionSet_inverse_complement :
  forall (A : Analyses) (stmt : ScopStmt) (lhs rhs : SCEV) (p : Predicate) (c : Isl.cmp)
         (St StL StR : ScopParams) (L R : Isl.pw_aff),
    cmp_of_predicate p = Some c ->
    getPwAff A stmt lhs St = Ret (Some L, StL) ->
    getPwAff A stmt rhs StL = Ret (Some R, StR) ->
    exists S S',
      buildConditionSet A stmt (mkComparison lhs rhs p) St = Ret (Some S, StR)
      /\ buildConditionSet A stmt (mkComparison lhs rhs (getInversePredicate p)) St
         = Ret (Some S', StR)
      /\ forall rho x u v,
           pw_aff_at rho x L = [u] -> pw_aff_at rho x R = [v] ->
           Isl.set_mem rho x S' = negb (Isl.set_mem rho x S).
Proof.
  intros A stmt lhs rhs p c St StL StR L R Hc EL ER.
  destruct (cmp_of_inverse_predicate _ _ Hc) as [c' [Hc' Hneg]].
  exists (Isl.pw_aff_cmp_set c L R), (Isl.pw_aff_cmp_set c' L R).
  split; [eapply buildConditionSet_supported; eassumption|].
  split; [eapply buildConditionSet_supported; eassumption|].
  intros rho x u v Hu Hv. rewrite !set_mem_pw_aff_cmp_set, Hu, Hv.
  cbn [existsb]. rewrite !orb_false_r. unfold quot_cmp. apply Hneg.
Qed.

Lemma buildConditionSet_inverse_complement_witness :
  exists S S',
    buildConditionSet ex_Analyses_unknowns ex_stmt0
      (mkComparison (scUnknown ex_m) (scConstant (mkAPInt 64 0)) ICMP_SGT) ex_no_params
    = Ret (Some S, mkScopParams [scUnknown ex_m] [(scUnknown ex_m, 0%nat)])
    /\ buildConditionSet ex_Analyses_unknowns ex_stmt0
         (mkComparison (scUnknown ex_m) (scConstant (mkAPInt 64 0))
                       (getInversePredicate ICMP_SGT)) ex_no_params
       = Ret (Some S', mkScopParams [scUnknown ex_m] [(scUnknown ex_m, 0%nat)])
    /\ forall rho x u v,
         pw_aff_at rho x (param_pw_aff (Isl.mkId "m" (Isl.UserSCEV (scUnknown ex_m))) 0) = [u] ->
         pw_aff_at rho x (ex_constant 0) = [v] ->
         Isl.set_mem rho x S' = negb (Isl.set_mem rho x S).
Proof.
  apply (buildConditionSet_inverse_complement ex_Analyses_unknowns ex_stmt0
           (scUnknown ex_m) (scConstant (mkAPInt 64 0)) ICMP_SGT Isl.CGt
           ex_no_params
           (mkScopParams [scUnknown ex_m] [(scUnknown ex_m, 0%nat)])
           (mkScopParams [scUnknown ex_m] [(scUnknown ex_m, 0%nat)])
           (param_pw_aff (Isl.mkId "m" (Isl.UserSCEV (scUnknown ex_m))) 0)
           (ex_constant 0)); reflexivity.
Defined.

(** With [m = 3] the point is in the set of [m > 0] and not in the set of
    [m <= 0]. *)
Example buildConditionSet_inverse_example :
  match buildConditionSet ex_Analyses_unknowns ex_stmt0
          (mkComparison (scUnknown ex_m) (scConstant (mkAPInt 64 0)) ICMP_SGT) ex_no_params,
        buildConditionSet ex_Analyses_unknowns ex_stmt0
          (mkComparison (scUnknown ex_m) (scConstant (mkAPInt 64 0)) ICMP_SLE) ex_no_params with
  | Ret (Some CS, _), Ret (Some CS', _) =>
      Isl.set_mem (fun _ => 3) [] CS = true /\ Isl.set_mem (fun _ => 3) [] CS' = false
  | _, _ => False
  end.
Proof. vm_compute. split; reflexivity. Qed.

(** ** TempScopInfo.cpp: [buildLoopBounds] *)

Definition LoopBounds_set (m : Loop -> option SCEV) (k : Loop) (v : SCEV) : Loop -> option SCEV :=
  fun L => if Loop_eqb L k then Some v else m L.

(** The loop of [buildLoopBounds] over the blocks of the region, in the
    order of [Region::block_begin]; [getBackedgeTakenCount] is
    ScalarEvolution's.  The map of the bounds is the one of the pass, shared
    by the TempScops it builds. *)
Fixpoint buildLoopBounds_loop (A : Analyses) (P : Passes) (getBackedgeTakenCount : Loop -> SCEV)
    (blocks : list BasicBlock) (LoopBounds_ : Loop -> option SCEV) (MaxLoopDepth_ : Z)
  : outcome ((Loop -> option SCEV) * Z) :=
  match blocks with
  | [] => Ret (LoopBounds_, MaxLoopDepth_)
  | b :: rest =>
      match getLoopFor P b with
      | None => buildLoopBounds_loop A P getBackedgeTakenCount rest LoopBounds_ MaxLoopDepth_
      | Some L =>
          if negb (Region_contains A L)
          then buildLoopBounds_loop A P getBackedgeTakenCount rest LoopBounds_ MaxLoopDepth_
          else
            match LoopBounds_ L with
            | Some _ =>
                buildLoopBounds_loop A P getBackedgeTakenCount rest LoopBounds_ MaxLoopDepth_
            | None =>
                let BackedgeTakenCount := getBackedgeTakenCount L in
                let LoopBounds_ := LoopBounds_set LoopBounds_ L BackedgeTakenCount in
                match outermostLoopInRegion A L with
                | None => Abort
                | Some OL =>
                    let LoopDepth :=
                      unsigned_wrap (Z.of_nat (loop_depth L) - Z.of_nat (loop_depth OL) + 1) in
                    let MaxLoopDepth_ :=
                      if MaxLoopDepth_ <? LoopDepth then LoopDepth else MaxLoopDepth_ in
                    buildLoopBounds_loop A P getBackedgeTakenCount rest LoopBounds_ MaxLoopDepth_
                end
            end
      end
  end.

Definition buildLoopBounds (A : Analyses) (P : Passes) (getBackedgeTakenCount : Loop -> SCEV)
    (blocks : list BasicBlock) (Scop_ : TempScop) : outcome TempScop :=
  r <- buildLoopBounds_loop A P getBackedgeTakenCount blocks (LoopBounds Scop_) 0 ;;
  Ret (mkTempScop (TS_MaxRegion Scop_) (fst r) (BBConds Scop_) (AccFuncMap Scop_)
                  (Z.to_nat (snd r))).

(** The loop [L] is the loop of one of the blocks and lies in the region. *)
Definition loop_of_blocks (A : Analyses) (P : Passes) (blocks : list BasicBlock) (L : Loop)
  : bool :=
  existsb (fun b => match getLoopFor P b with
                    | Some L' => Loop_eqb L' L && Region_contains A L'
                    | None => false
                    end) blocks.

Lemma Loop_eqb_refl L : Loop_eqb L L = true.
Proof. apply Loop_eqb_eq. reflexivity. Qed.

Lemma buildLoopBounds_loop_spec A P BTC blocks : forall LB M LB' M',
  buildLoopBounds_loop A P BTC blocks LB M = Ret (LB', M') ->
  (forall L, LB' L = match LB L with
                     | Some B => Some B
                     | None => if loop_of_blocks A P blocks L then Some (BTC L) else None
                     end)
  /\ M <= M'
  /\ (forall b L OL,
         In b blocks -> getLoopFor P b = Some L -> Region_contains A L = true ->
         LB L = None -> outermostLoopInRegion A L = Some OL ->
         unsigned_wrap (Z.of_nat (loop_depth L) - Z.of_nat (loop_depth OL) + 1) <= M').
Proof.
  induction blocks as [|b rest IH]; intros LB M LB' M' E.
  - simpl in E. injection E as <- <-. split; [|split; [lia|]].
    + intros L. simpl. destruct (LB L); reflexivity.
    + intros b L OL [].
  - cbn [buildLoopBounds_loop] in E. unfold loop_of_blocks. cbn [existsb].
    fold (loop_of_blocks A P rest).
    destruct (getLoopFor P b) as [L0|] eqn:EL.
    + destruct (Region_contains A L0) eqn:EC; cbn [negb] in E.
      * destruct (LB L0) as [B0|] eqn:EB.
        -- destruct (IH _ _ _ _ E) as [H1 [H2 H3]]. split; [|split; [exact H2|]].
           ++ intros L. rewrite H1. destruct (LB L) eqn:ELB; [reflexivity|].
              destruct (Loop_eqb L0 L) eqn:Eq; [|reflexivity].
              apply Loop_eqb_eq in Eq. congruence.
           ++ intros b' L OL [<- | Hin] HL HC HN HO; [congruence|].
              eapply H3; eassumption.
        -- destruct (outermostLoopInRegion A L0) as [OL0|] eqn:EO; [|discriminate].
           destruct (IH _ _ _ _ E) as [H1 [H2 H3]]. split; [|split].
           ++ intros L. rewrite H1. unfold LoopBounds_set.
              destruct (Loop_eqb L L0) eqn:Eq.
              ** apply Loop_eqb_eq in Eq. subst L. rewrite EB, Loop_eqb_refl. reflexivity.
              ** destruct (LB L); [reflexivity|].
                 destruct (Loop_eqb L0 L) eqn:Eq'; [|reflexivity].
                 apply Loop_eqb_eq in Eq'. subst L. rewrite Loop_eqb_refl in Eq. discriminate.
           ++ destruct (M <? _) eqn:Elt; [apply Z.ltb_lt in Elt|]; lia.
           ++ intros b' L OL [<- | Hin] HL HC HN HO.
              ** rewrite EL in HL. injection HL as <-. rewrite EO in HO. injection HO as <-.
                 destruct (M <? _) eqn:Elt; [|apply Z.ltb_ge in Elt]; lia.
              ** destruct (Loop_eqb L L0) eqn:Eq.
                 --- apply Loop_eqb_eq in Eq. subst L. rewrite EO in HO. injection HO as <-.
                     destruct (M <? _) eqn:Elt; [|apply Z.ltb_ge in Elt]; lia.
                 --- eapply H3; try eassumption. unfold LoopBounds_set. rewrite Eq. exact HN.
      * destruct (IH _ _ _ _ E) as [H1 [H2 H3]]. split; [|split; [exact H2|]].
        -- intros L. rewrite H1. rewrite andb_false_r. reflexivity.
        -- intros b' L OL [<- | Hin] HL HC HN HO; [congruence|]. eapply H3; eassumption.
    + destruct (IH _ _ _ _ E) as [H1 [H2 H3]]. split; [|split; [exact H2|]].
      * exact H1.
      * intros b' L OL [<- | Hin] HL HC HN HO; [congruence|]. eapply H3; eassumption.
Qed.

Lemma buildLoopBounds_loop_recorded A P BTC blocks LB M :
  (forall b L, In b blocks -> getLoopFor P b = Some L -> Region_contains A L = true ->
               LB L <> None) ->
  buildLoopBounds_loop A P BTC blocks LB M = Ret (LB, M).
Proof.
  induction blocks as [|b rest IH]; intros H; [reflexivity|].
  cbn [buildLoopBounds_loop].
  assert (IH' : buildLoopBounds_loop A P BTC rest LB M = Ret (LB, M)).
  { apply IH. intros b' L Hin. apply H. right. exact Hin. }
  destruct (getLoopFor P b) as [L|] eqn:EL; [|exact IH'].
  destruct (Region_contains A L) eqn:EC; [|exact IH']. cbn [negb].
  destruct (LB L) eqn:EB; [exact IH'|].
  exfalso. apply (H b L (or_introl eq_refl) EL EC). exact EB.
Qed.

(** X9. [buildLoopBounds] puts the backedge-taken count on record for every loop
    of a block of the region that lies in the region and has no bound yet,
    changes no bound that is on record and nothing else of the TempScop, and
    sets [MaxLoopDepth] to a number not below the depth, relative to the
    outermost loop of the region, of any loop it put on record; loops that
    had a bound already do not count, so that the depth is 0 when all had. *)
Theorem buildLoopBounds_records :
  forall (A : Analyses) (P : Passes) (BTC : Loop -> SCEV) (blocks : list BasicBlock)
         (Scop_ Scop' : TempScop),
    buildLoopBounds A P BTC blocks Scop_ = Ret Scop' ->
    (forall L, LoopBounds Scop' L =
               match LoopBounds Scop_ L with
               | Some B => Some B
               | None => if loop_of_blocks A P blocks L then Some (BTC L) else None
               end)
    /\ TS_MaxRegion Scop' = TS_MaxRegion Scop_
    /\ BBConds Scop' = BBConds Scop_ /\ AccFuncMap Scop' = AccFuncMap Scop_
    /\ (forall b L OL,
           In b blocks -> getLoopFor P b = Some L -> Region_contains A L = true ->
           LoopBounds Scop_ L = None -> outermostLoopInRegion A L = Some OL ->
           (loop_depth OL <= loop_depth L)%nat ->
           Z.of_nat (loop_depth L - loop_depth OL + 1) < 2 ^ 32 ->
           (loop_depth L - loop_depth OL + 1 <= TS_MaxLoopDepth Scop')%nat)
    /\ ((forall b L, In b blocks -> getLoopFor P b = Some L -> Region_contains A L = true ->
                     LoopBounds Scop_ L <> None) ->
        TS_MaxLoopDepth Scop' = 0%nat /\ LoopBounds Scop' = LoopBounds Scop_).
Proof.
  intros A P BTC blocks Scop_ Scop' E. unfold buildLoopBounds in E.
  destruct (buildLoopBounds_loop A P BTC blocks (LoopBounds Scop_) 0) as [|[LB' M']] eqn:EL;
    [discriminate|].
  cbn [bindO fst snd] in E. injection E as <-.
  cbn [LoopBounds TS_MaxRegion BBConds AccFuncMap TS_MaxLoopDepth].
  destruct (buildLoopBounds_loop_spec _ _ _ _ _ _ _ _ EL) as [H1 [H2 H3]].
  split; [exact H1|]. repeat (split; [reflexivity|]). split.
  - intros b L OL Hin HL HC HN HO Hle Hlt.
    pose proof (H3 b L OL Hin HL HC HN HO) as H. unfold unsigned_wrap in H.
    rewrite Z.mod_small in H by lia. lia.
  - intros Hall. rewrite (buildLoopBounds_loop_recorded _ _ _ _ _ _ Hall) in EL.
    injection EL as <- <-. split; reflexivity.
Qed.

(** The loop of the body of the example; a second run over the same blocks,
    with the map the first run left, computes the depth 0. *)
Definition ex_loop_Passes : Passes :=
  mkPasses (fun b => if BasicBlock_eqb b ex_bb then Some ex_L else None)
           (fun v _ => scUnknown v) (fun s => s) (fun a _ => a) (fun _ _ => true)
           (fun b => Some (DTNode b None)) (fun _ _ => false) (fun _ _ => false)
           (fun _ => Term_other).

Definition ex_bounds_scop : TempScop :=
  Eval vm_compute in
    match buildLoopBounds ex_loop_Analyses ex_loop_Passes (fun _ => scUnknown ex_n)
                          [ex_entry; ex_bb]
                          (mkTempScop (TS_MaxRegion ex_loop_tempScop) (fun _ => None)
                                      (fun _ => None) (fun _ => None) 0) with
    | Ret T => T
    | Abort => ex_loop_tempScop
    end.

Lemma buildLoopBounds_records_witness :
  LoopBounds ex_bounds_scop ex_L = Some (scUnknown ex_n)
  /\ TS_MaxLoopDepth ex_bounds_scop = 1%nat
  /\ ((forall L, LoopBounds ex_bounds_scop L =
                 match (fun _ : Loop => @None SCEV) L with
                 | Some B => Some B
                 | None => if loop_of_blocks ex_loop_Analyses ex_loop_Passes [ex_entry; ex_bb] L
                           then Some (scUnknown ex_n) else None
                 end)
      /\ TS_MaxRegion ex_bounds_scop = TS_MaxRegion ex_loop_tempScop
      /\ BBConds ex_bounds_scop = (fun _ => None)
      /\ AccFuncMap ex_bounds_scop = (fun _ => None)
      /\ (forall b L OL,
             In b [ex_entry; ex_bb] -> getLoopFor ex_loop_Passes b = Some L ->
             Region_contains ex_loop_Analyses L = true ->
             (fun _ : Loop => @None SCEV) L = None ->
             outermostLoopInRegion ex_loop_Analyses L = Some OL ->
             (loop_depth OL <= loop_depth L)%nat ->
             Z.of_nat (loop_depth L - loop_depth OL + 1) < 2 ^ 32 ->
             (loop_depth L - loop_depth OL + 1 <= TS_MaxLoopDepth ex_bounds_scop)%nat)
      /\ ((forall b L, In b [ex_entry; ex_bb] -> getLoopFor ex_loop_Passes b = Some L ->
                       Region_contains ex_loop_Analyses L = true ->
                       (fun _ : Loop => @None SCEV) L <> None) ->
          TS_MaxLoopDepth ex_bounds_scop = 0%nat
          /\ LoopBounds ex_bounds_scop = (fun _ => None))).
Proof.
  split; [reflexivity|]. split; [reflexivity|].
  apply (buildLoopBounds_records ex_loop_Analyses ex_loop_Passes (fun _ => scUnknown ex_n)
           [ex_entry; ex_bb]
           (mkTempScop (TS_MaxRegion ex_loop_tempScop) (fun _ => None)
                       (fun _ => None) (fun _ => None) 0)
           ex_bounds_scop).
  vm_compute. reflexivity.
Defined.

(** ** TempScopInfo.cpp: [buildScalarDependences] and [buildAccessFunctions] *)

(** An instruction as the pass looks at it: the value it is, what kind of
    instruction it is, and the block it stands in. *)
Inductive InstKind : Type :=
| IK_Load (StoreSize : Z) (Pointer : Value)
| IK_Store (StoreSize : Z) (Pointer : Value)
| IK_PHI
| IK_Other.

Record Inst : Type := mkInst {
  inst_value : Value;
  inst_kind : InstKind;
  inst_parent : BasicBlock
}.

(** The users of the instructions (a user that is no instruction is [None]),
    [canSynthesize] of BlockGenerators, [Region::contains] for a block and the
    constant [ZeroOffset] of the pass. *)
Record IRInfo : Type := mkIRInfo {
  inst_uses : Inst -> list (option Inst);
  canSynthesize : Inst -> bool;
  Region_contains_block : BasicBlock -> bool;
  ZeroOffset : SCEV
}.

Definition AccFuncMapType : Type := BasicBlock -> option AccFuncSetType.

Definition accs_of (m : AccFuncMapType) (b : BasicBlock) : AccFuncSetType :=
  match m b with
  | Some l => l
  | None => []
  end.

(** [AccFuncMap[k]] extended at its end, the entry being created when there
    is none. *)
Definition AccFuncMap_append (m : AccFuncMapType) (k : BasicBlock) (vs : AccFuncSetType)
  : AccFuncMapType :=
  fun b => if BasicBlock_eqb b k then Some (accs_of m k ++ vs) else m b.

Fixpoint buildScalarDependences_loop (I : IRInfo) (Inst_ : Inst) (users : list (option Inst))
    (AnyCrossStmtUse : bool) (AccFuncMap_ : AccFuncMapType)
  : outcome (bool * AccFuncMapType) :=
  match users with
  | [] => Ret (AnyCrossStmtUse, AccFuncMap_)
  | None :: rest =>
      (* Ignore the strange user *)
      buildScalarDependences_loop I Inst_ rest AnyCrossStmtUse AccFuncMap_
  | Some U :: rest =>
      let UseParent := inst_parent U in
      if BasicBlock_eqb UseParent (inst_parent Inst_)
      then buildScalarDependences_loop I Inst_ rest AnyCrossStmtUse AccFuncMap_
      else if canSynthesize I U
      then buildScalarDependences_loop I Inst_ rest AnyCrossStmtUse AccFuncMap_
      else
        let AnyCrossStmtUse := true in
        if negb (Region_contains_block I UseParent)
        then buildScalarDependences_loop I Inst_ rest AnyCrossStmtUse AccFuncMap_
        else
          match inst_kind U with
          | IK_PHI => Abort
          | _ =>
              let ScalarAccess :=
                mkIRAccess SCALARREAD (inst_value Inst_) (ZeroOffset I) 1 true in
              buildScalarDependences_loop I Inst_ rest AnyCrossStmtUse
                (AccFuncMap_append AccFuncMap_ UseParent [(ScalarAccess, inst_value U)])
          end
  end.

Definition buildScalarDependences (I : IRInfo) (Inst_ : Inst) (AccFuncMap_ : AccFuncMapType)
  : outcome (bool * AccFuncMapType) :=
  if canSynthesize I Inst_ then Ret (false, AccFuncMap_)
  else buildScalarDependences_loop I Inst_ (inst_uses I Inst_) false AccFuncMap_.

(** The loop of [buildAccessFunctions] over the instructions before the
    terminator. *)
Fixpoint buildAccessFunctions_loop (P : Passes) (I : IRInfo) (L : option Loop)
    (insts : list Inst) (Functions : AccFuncSetType) (AccFuncMap_ : AccFuncMapType)
  : outcome (AccFuncSetType * AccFuncMapType) :=
  match insts with
  | [] => Ret (Functions, AccFuncMap_)
  | Inst_ :: rest =>
      Functions <-
        match inst_kind Inst_ with
        | IK_Load sz p =>
            a <- buildIRAccess P (LoadInst sz p) L ;; Ret (Functions ++ [(a, inst_value Inst_)])
        | IK_Store sz p =>
            a <- buildIRAccess P (StoreInst sz p) L ;; Ret (Functions ++ [(a, inst_value Inst_)])
        | _ => Ret Functions
        end ;;
      match inst_kind Inst_ with
      | IK_Store _ _ => buildAccessFunctions_loop P I L rest Functions AccFuncMap_
      | _ =>
          r <- buildScalarDependences I Inst_ AccFuncMap_ ;;
          let Functions :=
            if fst r
            then Functions ++ [(mkIRAccess SCALARWRITE (inst_value Inst_) (ZeroOffset I) 1 true,
                                inst_value Inst_)]
            else Functions in
          buildAccessFunctions_loop P I L rest Functions (snd r)
      end
  end.

Definition buildAccessFunctions (P : Passes) (I : IRInfo) (BB_ : BasicBlock) (insts : list Inst)
    (AccFuncMap_ : AccFuncMapType) : outcome AccFuncMapType :=
  let L := getLoopFor P BB_ in
  r <- buildAccessFunctions_loop P I L (removelast insts) [] AccFuncMap_ ;;
  match fst r with
  | [] => Ret (snd r)
  | Functions => Ret (AccFuncMap_append (snd r) BB_ Functions)
  end.

(** The accesses on record only grow, at the end of the list of a block of
    the region, and no list on record is empty. *)
Definition accs_grow (I : IRInfo) (m m' : AccFuncMapType) : Prop :=
  forall b,
    (exists l, accs_of m' b = accs_of m b ++ l)
    /\ (m' b = Some [] -> m b = Some [])
    /\ (Region_contains_block I b = false -> m' b = m b).

Lemma accs_grow_refl I m : accs_grow I m m.
Proof.
  intros b. split; [exists []; rewrite app_nil_r; reflexivity|]. split; auto.
Qed.

Lemma accs_grow_trans I m1 m2 m3 :
  accs_grow I m1 m2 -> accs_grow I m2 m3 -> accs_grow I m1 m3.
Proof.
  intros H12 H23 b. destruct (H12 b) as [[l1 E1] [N1 O1]]. destruct (H23 b) as [[l2 E2] [N2 O2]].
  split; [exists (l1 ++ l2); rewrite E2, E1, app_assoc; reflexivity|].
  split; [auto|]. intros Hb. rewrite (O2 Hb). apply O1. exact Hb.
Qed.

Lemma accs_grow_append I m k v vs :
  Region_contains_block I k = true -> accs_grow I m (AccFuncMap_append m k (v :: vs)).
Proof.
  intros Hk b. unfold AccFuncMap_append, accs_of.
  destruct (BasicBlock_eqb b k) eqn:E.
  - apply BasicBlock_eqb_eq in E. subst b. split; [eexists; reflexivity|].
    split; [|congruence]. intros H. destruct (m k) as [[|x l]|]; discriminate H.
  - split; [exists []; rewrite app_nil_r; reflexivity|]. split; auto.
Qed.

Lemma buildScalarDependences_loop_spec I Inst_ users : forall any m any' m',
  buildScalarDependences_loop I Inst_ users any m = Ret (any', m') ->
  accs_grow I m m'
  /\ m' (inst_parent Inst_) = m (inst_parent Inst_)
  /\ (any = false -> any' = false -> m' = m).
Proof.
  induction users as [|[U|] rest IH]; intros any m any' m' E;
    cbn [buildScalarDependences_loop] in E.
  - injection E as <- <-. split; [apply accs_grow_refl|]. split; auto.
  - destruct (BasicBlock_eqb (inst_parent U) (inst_parent Inst_)) eqn:Ep; [exact (IH _ _ _ _ E)|].
    destruct (canSynthesize I U); [exact (IH _ _ _ _ E)|].
    assert (Hany : forall m0 m1, buildScalarDependences_loop I Inst_ rest true m0 = Ret (any', m1) ->
                                 any' = true).
    { clear. induction rest as [|[U'|] rest IH']; intros m0 m1 E0;
        cbn [buildScalarDependences_loop] in E0.
      - injection E0 as <- _. reflexivity.
      - destruct (BasicBlock_eqb _ _); [exact (IH' _ _ E0)|].
        destruct (canSynthesize I U'); [exact (IH' _ _ E0)|].
        destruct (negb _); [exact (IH' _ _ E0)|].
        destruct (inst_kind U'); try discriminate; exact (IH' _ _ E0).
      - exact (IH' _ _ E0). }
    destruct (Region_contains_block I (inst_parent U)) eqn:Ec; cbn [negb] in E.
    + assert (Hstep : buildScalarDependences_loop I Inst_ rest true
                        (AccFuncMap_append m (inst_parent U)
                           [(mkIRAccess SCALARREAD (inst_value Inst_) (ZeroOffset I) 1 true,
                             inst_value U)]) = Ret (any', m')).
      { destruct (inst_kind U); try discriminate; exact E. }
      destruct (IH _ _ _ _ Hstep) as [H1 [H2 _]]. split; [|split].
      * eapply accs_grow_trans; [|exact H1]. apply accs_grow_append. exact Ec.
      * rewrite H2. unfold AccFuncMap_append.
        destruct (BasicBlock_eqb (inst_parent Inst_) (inst_parent U)) eqn:Eq; [|reflexivity].
        apply BasicBlock_eqb_eq in Eq. rewrite Eq, BasicBlock_eqb_refl in Ep. discriminate.
      * intros _ Hf. rewrite (Hany _ _ Hstep) in Hf. discriminate.
    + destruct (IH _ _ _ _ E) as [H1 [H2 _]]. split; [exact H1|]. split; [exact H2|].
      intros _ Hf. rewrite (Hany _ _ E) in Hf. discriminate.
  - exact (IH _ _ _ _ E).
Qed.

Lemma buildScalarDependences_spec I Inst_ m any' m' :
  buildScalarDependences I Inst_ m = Ret (any', m') ->
  accs_grow I m m'
  /\ m' (inst_parent Inst_) = m (inst_parent Inst_)
  /\ (any' = false -> m' = m)
  /\ (canSynthesize I Inst_ = true -> any' = false).
Proof.
  unfold buildScalarDependences. destruct (canSynthesize I Inst_).
  - intros [= <- <-]. split; [apply accs_grow_refl|]. repeat split; auto.
  - intros E. destruct (buildScalarDependences_loop_spec _ _ _ _ _ _ _ E) as [H1 [H2 H3]].
    split; [exact H1|]. split; [exact H2|]. split; [apply H3; reflexivity | discriminate].
Qed.

Lemma buildIRAccess_type P Inst L a :
  buildIRAccess P Inst L = Ret a ->
  IRA_Type a = match Inst with LoadInst _ _ => READ | StoreInst _ _ => WRITE end
  /\ ElemBytes a = match Inst with LoadInst sz _ => sz | StoreInst sz _ => sz end.
Proof.
  unfold buildIRAccess. destruct (getPointerBase P _); try discriminate.
  intros [= <-]. split; reflexivity.
Qed.

(** The access a load or a store stands for, and the value it is. *)
Definition memory_access_of (i : Inst) : list (TypeKind * Value) :=
  match inst_kind i with
  | IK_Load _ _ => [(READ, inst_value i)]
  | IK_Store _ _ => [(WRITE, inst_value i)]
  | _ => []
  end.

Definition is_memory_access (a : IRAccess * Instruction) : bool :=
  match IRA_Type (fst a) with
  | READ | WRITE => true
  | _ => false
  end.

Definition quiet (I : IRInfo) (i : Inst) : bool :=
  match inst_kind i with
  | IK_Load _ _ | IK_Store _ _ => false
  | _ => canSynthesize I i
  end.

Lemma buildAccessFunctions_loop_spec P I L BB_ insts : forall F m F' m',
  (forall i, In i insts -> inst_parent i = BB_) ->
  buildAccessFunctions_loop P I L insts F m = Ret (F', m') ->
  accs_grow I m m' /\ m' BB_ = m BB_
  /\ exists G,
       F' = F ++ G
       /\ map (fun a => (IRA_Type (fst a), snd a)) (filter is_memory_access G)
          = flat_map memory_access_of insts
       /\ (forallb (quiet I) insts = true -> G = [] /\ m' = m).
Proof.
  induction insts as [|i rest IH]; intros F m F' m' Hpar E.
  - simpl in E. injection E as <- <-. split; [apply accs_grow_refl|]. split; [reflexivity|].
    exists []. rewrite app_nil_r. repeat split.
  - cbn [buildAccessFunctions_loop] in E.
    assert (Hpar' : forall j, In j rest -> inst_parent j = BB_).
    { intros j Hj. apply Hpar. right. exact Hj. }
    pose proof (Hpar i (or_introl eq_refl)) as Hi.
    cbn [flat_map forallb]. unfold memory_access_of at 1, quiet at 1.
    destruct (inst_kind i) as [sz p | sz p | | ] eqn:Ek.
    + destruct (buildIRAccess P (LoadInst sz p) L) as [|a] eqn:Ea; [discriminate|].
      cbn [bindO] in E.
      destruct (buildScalarDependences I i m) as [|[any m1]] eqn:Es; [discriminate|].
      cbn [bindO fst snd] in E.
      destruct (buildScalarDependences_spec _ _ _ _ _ Es) as [G1 [G2 _]].
      destruct (IH _ _ _ _ Hpar' E) as [H1 [H2 [G [EG [HG _]]]]].
      split; [eapply accs_grow_trans; eassumption|]. split; [rewrite H2, <- Hi; exact G2|].
      destruct (buildIRAccess_type _ _ _ _ Ea) as [Ty _].
      destruct any.
      * exists ((a, inst_value i)
                :: (mkIRAccess SCALARWRITE (inst_value i) (ZeroOffset I) 1 true, inst_value i)
                :: G).
        split; [rewrite EG, <- !app_assoc; reflexivity|]. split; [|discriminate].
        cbn [filter is_memory_access fst IRA_Type]. unfold is_memory_access at 1. cbn [fst].
        rewrite Ty. cbn [map fst snd app]. rewrite Ty, HG. reflexivity.
      * exists ((a, inst_value i) :: G).
        split; [rewrite EG, <- !app_assoc; reflexivity|]. split; [|discriminate].
        cbn [filter]. unfold is_memory_access at 1. cbn [fst].
        rewrite Ty. cbn [map fst snd app]. rewrite Ty, HG. reflexivity.
    + destruct (buildIRAccess P (StoreInst sz p) L) as [|a] eqn:Ea; [discriminate|].
      cbn [bindO] in E.
      destruct (IH _ _ _ _ Hpar' E) as [H1 [H2 [G [EG [HG _]]]]].
      split; [exact H1|]. split; [exact H2|].
      destruct (buildIRAccess_type _ _ _ _ Ea) as [Ty _].
      exists ((a, inst_value i) :: G).
      split; [rewrite EG, <- !app_assoc; reflexivity|]. split; [|discriminate].
      cbn [filter]. unfold is_memory_access at 1. cbn [fst].
      rewrite Ty. cbn [map fst snd app]. rewrite Ty, HG. reflexivity.
    + cbn [bindO] in E.
      destruct (buildScalarDependences I i m) as [|[any m1]] eqn:Es; [discriminate|].
      cbn [bindO fst snd] in E.
      destruct (buildScalarDependences_spec _ _ _ _ _ Es) as [G1 [G2 [G3 G4]]].
      destruct (IH _ _ _ _ Hpar' E) as [H1 [H2 [G [EG [HG HQ]]]]].
      split; [eapply accs_grow_trans; eassumption|]. split; [rewrite H2, <- Hi; exact G2|].
      destruct any.
      * exists ((mkIRAccess SCALARWRITE (inst_value i) (ZeroOffset I) 1 true, inst_value i) :: G).
        split; [rewrite EG, <- !app_assoc; reflexivity|]. split; [exact HG|].
        intros Hq. apply andb_true_iff in Hq. destruct Hq as [Hc _].
        specialize (G4 Hc). discriminate.
      * exists G. split; [exact EG|]. split; [exact HG|].
        intros Hq. apply andb_true_iff in Hq. destruct Hq as [_ Hq].
        destruct (HQ Hq) as [-> ->]. split; [reflexivity | apply G3; reflexivity].
    + cbn [bindO] in E.
      destruct (buildScalarDependences I i m) as [|[any m1]] eqn:Es; [discriminate|].
      cbn [bindO fst snd] in E.
      destruct (buildScalarDependences_spec _ _ _ _ _ Es) as [G1 [G2 [G3 G4]]].
      destruct (IH _ _ _ _ Hpar' E) as [H1 [H2 [G [EG [HG HQ]]]]].
      split; [eapply accs_grow_trans; eassumption|]. split; [rewrite H2, <- Hi; exact G2|].
      destruct any.
      * exists ((mkIRAccess SCALARWRITE (inst_value i) (ZeroOffset I) 1 true, inst_value i) :: G).
        split; [rewrite EG, <- !app_assoc; reflexivity|]. split; [exact HG|].
        intros Hq. apply andb_true_iff in Hq. destruct Hq as [Hc _].
        specialize (G4 Hc). discriminate.
      * exists G. split; [exact EG|]. split; [exact HG|].
        intros Hq. apply andb_true_iff in Hq. destruct Hq as [_ Hq].
        destruct (HQ Hq) as [-> ->]. split; [reflexivity | apply G3; reflexivity].
Qed.


(** A block with a load, a sum that a store of another block uses, a store
    and a branch. *)
Definition ex_exit : BasicBlock := mkBB 2 "%exit".
Definition ex_ld : Inst := mkInst (mkValue 10 "x" "%x") (IK_Load 4 (mkValue 11 "p" "%p")) ex_bb.
Definition ex_add : Inst := mkInst (mkValue 12 "s" "%s") IK_Other ex_bb.
Definition ex_st : Inst := mkInst (mkValue 13 "" "") (IK_Store 8 (mkValue 14 "q" "%q")) ex_bb.
Definition ex_br : Inst := mkInst (mkValue 15 "" "") IK_Other ex_bb.
Definition ex_user : Inst := mkInst (mkValue 16 "" "") (IK_Store 4 (mkValue 17 "r" "%r")) ex_exit.

Definition ex_IRInfo : IRInfo :=
  mkIRInfo (fun i => if Value_eqb (inst_value i) (inst_value ex_add)
                     then [None; Some ex_ld; Some ex_user] else [])
           (fun _ => false) (fun _ => true) (scConstant (mkAPInt 64 0)).

Definition ex_acc_map : AccFuncMapType :=
  Eval vm_compute in
    match buildAccessFunctions ex_loop_Passes ex_IRInfo ex_bb [ex_ld; ex_add; ex_st; ex_br]
                               (fun _ => None) with
    | Ret m => m
    | Abort => fun _ => None
    end.


(** On that block the pass records, for the block, the load, the write of
    the sum and the store, and for the other block the read of the sum. *)
Example buildAccessFunctions_example :
  map (fun a => (IRA_Type (fst a), BaseAddress (fst a), snd a)) (accs_of ex_acc_map ex_bb)
  = [(READ, mkValue 11 "p" "%p", inst_value ex_ld);
     (SCALARWRITE, inst_value ex_add, inst_value ex_add);
     (WRITE, mkValue 14 "q" "%q", inst_value ex_st)]
  /\ map (fun a => (IRA_Type (fst a), BaseAddress (fst a), snd a)) (accs_of ex_acc_map ex_exit)
     = [(SCALARREAD, inst_value ex_add, inst_value ex_user)]
  /\ ex_acc_map ex_entry = None.
Proof. vm_compute. repeat split. Qed.

(** ** The memory accesses of the statements of a Scop *)

(** The kind of access the constructor of [MemoryAccess] gives to an access
    on record: a read stays a read, a write that is not affine may write. *)
Definition access_kind (Access : IRAccess) : AccessType :=
  if isRead Access then Read else if IsAffine Access then Write else MayWrite.

Definition access_key (MA : MemoryAccess) : AccessType * Value * string :=
  (MA_Type MA, MA_BaseAddr MA, MA_BaseName MA).

Definition recorded_key (a : IRAccess * Instruction) : AccessType * Value * string :=
  (access_kind (fst a), BaseAddress (fst a),
   String.append "MemRef_" (makeIslCompatible (val_operand (BaseAddress (fst a))))).

Lemma MemoryAccess_ctor_key A a stmt St MA St' :
  MemoryAccess_ctor A (fst a) stmt St = Ret (MA, St') -> access_key MA = recorded_key a.
Proof.
  unfold MemoryAccess_ctor, access_key, recorded_key, access_kind, MemoryAccess_setBaseName.
  destruct (IsAffine (fst a)); cbn [negb].
  - intros E. destruct (getPwAff _ _ _ _) as [|r]; [discriminate|]. cbn [bindO] in E.
    destruct (isl_pw_aff_scale_down _ _) as [|Aff]; [discriminate|]. cbn [bindO] in E.
    injection E as <- _. cbn [MA_Type MA_BaseAddr MA_BaseName].
    destruct (isRead (fst a)); reflexivity.
  - intros [= <- _]. cbn [MA_Type MA_BaseAddr MA_BaseName].
    destruct (isRead (fst a)); reflexivity.
Qed.

Lemma buildAccesses_loop_keys A this accs : forall Ms St Ms' St',
  buildAccesses_loop A this accs Ms St = Ret (Ms', St') ->
  map access_key Ms' = map access_key Ms ++ map recorded_key accs.
Proof.
  induction accs as [|a accs IH]; intros Ms St Ms' St' E.
  - simpl in E. injection E as <- _. simpl. rewrite app_nil_r. reflexivity.
  - cbn [buildAccesses_loop] in E.
    destruct (MemoryAccess_ctor A (fst a) this St) as [|[MA St1]] eqn:EM; [discriminate|].
    cbn [bindO fst snd] in E. rewrite (IH _ _ _ _ E), map_app, <- app_assoc.
    cbn [map app]. rewrite (MemoryAccess_ctor_key _ _ _ _ _ _ EM). reflexivity.
Qed.

Lemma ScopStmt_ctor_accesses A parent tempScop CurRegion bb NestLoops Scatter stmt St' :
  ScopStmt_ctor A parent tempScop CurRegion bb NestLoops Scatter = Ret (stmt, St') ->
  exists accs,
    getAccessFunctions tempScop bb = Some accs
    /\ map access_key (MemAccs stmt) = map recorded_key accs.
Proof.
  intros E. unfold ScopStmt_ctor in E.
  destruct (setupIVS NestLoops) as [|ivs] eqn:EI; [discriminate|]. cbn [bindO] in E.
  destruct (buildDomain _ _ _ _ _ _) as [|[D St1]] eqn:ED; [discriminate|].
  cbn [bindO fst snd] in E.
  destruct (buildScattering _ _ _ _) as [|Sc] eqn:ES; [discriminate|]. cbn [bindO] in E.
  destruct (buildAccesses _ _ _ _ _) as [|[Ms St2]] eqn:EAcc; [discriminate|].
  cbn [bindO fst snd] in E. injection E as <- <-. cbn [MemAccs].
  unfold buildAccesses in EAcc. destruct (getAccessFunctions tempScop bb) as [accs|];
    [|discriminate].
  exists accs. split; [reflexivity|].
  apply buildAccesses_loop_keys in EAcc. cbn [MemAccs map app] in EAcc. exact EAcc.
Qed.

Lemma ScopStmt_realignParams_accesses sp stmt stmt' :
  ScopStmt_realignParams sp stmt = Ret stmt' ->
  BB stmt' = BB stmt /\ map access_key (MemAccs stmt') = map access_key (MemAccs stmt).
Proof.
  intros E. unfold ScopStmt_realignParams in E.
  destruct (mapO _ (MemAccs stmt)) as [|Ms] eqn:EM; [discriminate|]. cbn [bindO] in E.
  destruct (isl_set_align_params _ _) as [|D]; [discriminate|]. cbn [bindO] in E.
  destruct (isl_map_align_params _ _) as [|Sc]; [discriminate|]. cbn [bindO] in E.
  injection E as <-. cbn [BB MemAccs]. split; [reflexivity|].
  apply mapO_Forall2 in EM. symmetry. apply Forall2_map_eq.
  eapply Forall2_impl; [|exact EM]. intros MA MA' H. unfold MemoryAccess_realignParams in H.
  destruct (isl_map_align_params _ _); [discriminate|]. cbn [bindO] in H.
  injection H as <-. reflexivity.
Qed.

Lemma Forall2_Forall_l {T U} (P : T -> U -> Prop) (Q : T -> Prop) l l' :
  Forall2 P l l' -> (forall a b, P a b -> Q a) -> Forall Q l.
Proof. intros H HPQ. induction H; constructor; eauto. Qed.

Lemma Scop_ctor_statement_accesses (A : Analyses) (tempScop : TempScop) (scop : Scop) :
  Scop_ctor A tempScop = Ret scop ->
  Forall (fun stmt =>
            exists bb accs,
              BB stmt = Some bb
              /\ getAccessFunctions tempScop bb = Some accs
              /\ map access_key (MemAccs stmt) = map recorded_key accs)
         (Stmts scop).
Proof.
  intros E. rewrite Scop_ctor_unfold in E.
  destruct (buildScop _ _ _ _) as [|bs] eqn:EB; [discriminate|]. cbn [bindO] in E.
  destruct (buildScop_traced _ _ _ _ _ EB) as [HN [HL [HC [HD [HE [new [HS HF]]]]]]].
  cbn [initial_state bs_scop bs_NestLoops bs_Scatter Context MaxLoopDepth SC_Params Stmts app]
    in HN, HC, HD, HE, HS, HF.
  rewrite <- HS in HF.
  assert (Hwf : params_wf (SC_Params (bs_scop bs))).
  { eapply extends_wf; [exact HE | exact params_wf_empty]. }
  destruct (Scop_realignParams_returns _ Hwf HC) as [Ss [ES ER]].
  rewrite ER in E. cbn [bindO] in E.
  destruct (assertO _) as [|[]]; [discriminate|]. cbn [bindO] in E. injection E as <-.
  cbn [Stmts]. apply mapO_Forall2 in ES.
  pose proof (Forall2_compose _ _ _ _ _ (Forall2_flip _ _ _ ES) HF) as HC2.
  apply (Forall2_Forall_l _ _ _ _ HC2).
  intros s' rbn [s [Hr [parent [Scatter [St' [Hc _]]]]]].
  apply ScopStmt_realignParams_accesses in Hr. destruct Hr as [Hb Hk].
  destruct (ScopStmt_ctor_accesses _ _ _ _ _ _ _ _ _ Hc) as [accs [Ha Hm]].
  destruct (ScopStmt_ctor_fields _ _ _ _ _ _ _ _ _ Hc) as [HB _].
  exists (snd (fst rbn)), accs. split; [rewrite Hb; exact HB|]. split; [exact Ha|].
  rewrite Hk. exact Hm.
Qed.

(** X12. The accesses of the statements of a Scop are the accesses on record for
    their blocks: a statement has one access for each access on record for
    its block, in the order of the record, with the base address of the
    access on record, the name made from that address, and its kind, a read
    staying a read and a write that is not affine becoming a write that may
    happen.  The realignment that ends the build changes none of this. *)
Theorem Scop_ctor_accesses (A : Analyses) (tempScop : TempScop) (scop : Scop) :
  Scop_ctor A tempScop = Ret scop ->
  forall stmt, In stmt (Stmts scop) ->
    exists bb accs,
      BB stmt = Some bb
      /\ getAccessFunctions tempScop bb = Some accs
      /\ length (MemAccs stmt) = length accs
      /\ forall i MA a, nth_error (MemAccs stmt) i = Some MA -> nth_error accs i = Some a ->
           MA_Type MA = access_kind (fst a)
           /\ MA_BaseAddr MA = BaseAddress (fst a)
           /\ MA_BaseName MA
              = String.append "MemRef_" (makeIslCompatible (val_operand (BaseAddress (fst a)))).
Proof.
  intros E stmt Hin. pose proof (Scop_ctor_statement_accesses A tempScop scop E) as H.
  rewrite Forall_forall in H. destruct (H stmt Hin) as [bb [accs [HB [HA HM]]]].
  exists bb, accs. split; [exact HB|]. split; [exact HA|]. split.
  - apply (f_equal (@length _)) in HM. rewrite !length_map in HM. exact HM.
  - intros i MA a HMA Ha. apply (f_equal (fun l => nth_error l i)) in HM.
    rewrite !nth_error_map, HMA, Ha in HM. cbn [option_map] in HM.
    injection HM as H1 H2 H3. repeat split; assumption.
Qed.

Lemma Scop_ctor_accesses_witness :
  Scop_ctor ex_loop_Analyses ex_loop_tempScop = Ret ex_loop_scop
  /\ forall stmt, In stmt (Stmts ex_loop_scop) ->
       exists bb accs,
         BB stmt = Some bb
         /\ getAccessFunctions ex_loop_tempScop bb = Some accs
         /\ length (MemAccs stmt) = length accs
         /\ forall i MA a, nth_error (MemAccs stmt) i = Some MA -> nth_error accs i = Some a ->
              MA_Type MA = access_kind (fst a)
              /\ MA_BaseAddr MA = BaseAddress (fst a)
              /\ MA_BaseName MA
                 = String.append "MemRef_"
                                 (makeIslCompatible (val_operand (BaseAddress (fst a)))).
Proof.
  split; [vm_compute; reflexivity|].
  apply (Scop_ctor_accesses ex_loop_Analyses ex_loop_tempScop ex_loop_scop).
  vm_compute. reflexivity.
Defined.

(** ** TempScopInfo.cpp: [buildTempScop] *)

(** The loop of [buildTempScop] over the blocks of the region, each with its
    instructions, in the order of [Region::block_begin]. *)
Fixpoint buildTempScop_loop (P : Passes) (I : IRInfo) (RegionEntry : BasicBlock)
    (blocks : list (BasicBlock * list Inst)) (AccFuncMap_ : AccFuncMapType)
    (BBConds_ : BasicBlock -> option BBCond)
  : outcome (AccFuncMapType * (BasicBlock -> option BBCond)) :=
  match blocks with
  | [] => Ret (AccFuncMap_, BBConds_)
  | bi :: rest =>
      AccFuncMap_ <- buildAccessFunctions P I (fst bi) (snd bi) AccFuncMap_ ;;
      BBConds_ <- buildCondition P (fst bi) RegionEntry BBConds_ ;;
      buildTempScop_loop P I RegionEntry rest AccFuncMap_ BBConds_
  end.

(** The TempScop holds references to the three maps of the pass, so it
    shows what the loop and [buildLoopBounds] put into them; its depth is
    the one [buildLoopBounds] stores. *)
Definition buildTempScop (A : Analyses) (P : Passes) (I : IRInfo)
    (getBackedgeTakenCount : Loop -> SCEV) (R : RegionTree)
    (blocks : list (BasicBlock * list Inst))
    (LoopBounds_ : Loop -> option SCEV) (BBConds_ : BasicBlock -> option BBCond)
    (AccFuncMap_ : AccFuncMapType) : outcome TempScop :=
  r <- buildTempScop_loop P I (getEntry (getRegion R)) blocks AccFuncMap_ BBConds_ ;;
  buildLoopBounds A P getBackedgeTakenCount (map fst blocks)
                  (mkTempScop R LoopBounds_ (snd r) (fst r) 0).

(** What one call of [buildAccessFunctions] leaves for the block itself. *)
Lemma buildAccessFunctions_own P I BB_ body term m m' :
  (forall i, In i body -> inst_parent i = BB_) ->
  Region_contains_block I BB_ = true ->
  buildAccessFunctions P I BB_ (body ++ [term]) m = Ret m' ->
  accs_grow I m m'
  /\ (flat_map memory_access_of body <> [] -> accs_of m' BB_ <> []).
Proof.
  intros Hpar Hin E. unfold buildAccessFunctions in E. rewrite removelast_last in E.
  destruct (buildAccessFunctions_loop P I (getLoopFor P BB_) body [] m) as [|[F m1]] eqn:El;
    [discriminate|].
  cbn [bindO fst snd] in E.
  destruct (buildAccessFunctions_loop_spec _ _ _ _ _ _ _ _ _ Hpar El)
    as [H1 [H2 [G [EG [HG HQ]]]]].
  cbn [app] in EG. subst F. destruct G as [|g G].
  - injection E as <-. split; [exact H1|]. intros Hne. exfalso. apply Hne.
    rewrite <- HG. reflexivity.
  - injection E as <-. split.
    + eapply accs_grow_trans; [exact H1|]. apply accs_grow_append. exact Hin.
    + intros _. unfold AccFuncMap_append, accs_of. rewrite BasicBlock_eqb_refl.
      intros Hnil. apply app_eq_nil in Hnil. destruct Hnil as [_ Hnil]. discriminate Hnil.
Qed.

(** The instructions of a block all but the last stand in the block, and
    the block lies in the region. *)
Definition block_of_region (I : IRInfo) (bi : BasicBlock * list Inst) : Prop :=
  Region_contains_block I (fst bi) = true
  /\ exists body term,
       snd bi = body ++ [term] /\ forall i, In i body -> inst_parent i = fst bi.

Definition has_memory_access (insts : list Inst) : Prop :=
  flat_map memory_access_of (removelast insts) <> [].

Lemma buildTempScop_loop_spec P I RegionEntry blocks : forall m c m' c',
  Forall (block_of_region I) blocks ->
  buildTempScop_loop P I RegionEntry blocks m c = Ret (m', c') ->
  accs_grow I m m'
  /\ forall bi, In bi blocks -> has_memory_access (snd bi) -> accs_of m' (fst bi) <> [].
Proof.
  induction blocks as [|bi blocks IH]; intros m c m' c' HB E.
  - simpl in E. injection E as <- <-. split; [apply accs_grow_refl | intros bi []].
  - cbn [buildTempScop_loop] in E. inversion HB as [|? ? Hb HB']; subst.
    destruct (buildAccessFunctions P I (fst bi) (snd bi) m) as [|m1] eqn:EA; [discriminate|].
    cbn [bindO] in E.
    destruct (buildCondition P (fst bi) RegionEntry c) as [|c1]; [discriminate|].
    cbn [bindO] in E.
    destruct (IH _ _ _ _ HB' E) as [G1 G2].
    destruct Hb as [Hin [body [term [Es Hpar]]]].
    rewrite Es in EA. destruct (buildAccessFunctions_own _ _ _ _ _ _ _ Hpar Hin EA) as [O1 O2].
    split; [eapply accs_grow_trans; eassumption|].
    intros bi' [<-|Hi] Hm; [|apply G2; assumption].
    unfold has_memory_access in Hm. rewrite Es, removelast_last in Hm.
    specialize (O2 Hm). destruct (G1 (fst bi)) as [[l El] _]. rewrite El.
    intros Hnil. apply app_eq_nil in Hnil. destruct Hnil as [Hnil _]. contradiction.
Qed.

Lemma buildLoopBounds_keeps_accesses A P g blocks T T' :
  buildLoopBounds A P g blocks T = Ret T' ->
  AccFuncMap T' = AccFuncMap T /\ TS_MaxRegion T' = TS_MaxRegion T.
Proof.
  unfold buildLoopBounds. destruct (buildLoopBounds_loop _ _ _ _ _ _); [discriminate|].
  cbn [bindO]. intros [= <-]. split; reflexivity.
Qed.

(** X13. From TempScopInfo to ScopInfo.  [buildTempScop], run on the blocks of a
    region with a map of accesses in which no list is empty (the map of a
    pass that has just been cleared is one), gives a TempScop in which a block
    is trivial exactly when it has no access; a block outside the region has
    the accesses it had; a block of the region with a load or a store before
    its terminator is not trivial; and every statement of the Scop built from
    this TempScop has at least one memory access. *)
Theorem buildTempScop_accesses (A : Analyses) (P : Passes) (I : IRInfo)
    (getBackedgeTakenCount : Loop -> SCEV) (R : RegionTree)
    (blocks : list (BasicBlock * list Inst))
    (LoopBounds_ : Loop -> option SCEV) (BBConds_ : BasicBlock -> option BBCond)
    (AccFuncMap_ : AccFuncMapType) (T : TempScop) :
  Forall (block_of_region I) blocks ->
  (forall b, AccFuncMap_ b <> Some []) ->
  buildTempScop A P I getBackedgeTakenCount R blocks LoopBounds_ BBConds_ AccFuncMap_ = Ret T ->
  (forall b, isTrivialBB b T = true <-> accs_of (AccFuncMap T) b = [])
  /\ (forall b, Region_contains_block I b = false -> AccFuncMap T b = AccFuncMap_ b)
  /\ (forall bi, In bi blocks -> has_memory_access (snd bi) -> isTrivialBB (fst bi) T = false)
  /\ (forall scop, Scop_ctor A T = Ret scop ->
        forall stmt, In stmt (Stmts scop) -> MemAccs stmt <> []).
Proof.
  intros HB H0 E. unfold buildTempScop in E.
  destruct (buildTempScop_loop _ _ _ _ _ _) as [|[m c]] eqn:El; [discriminate|].
  cbn [bindO fst snd] in E.
  destruct (buildLoopBounds_keeps_accesses _ _ _ _ _ _ E) as [EA _]. cbn [AccFuncMap] in EA.
  destruct (buildTempScop_loop_spec _ _ _ _ _ _ _ _ HB El) as [G1 G2].
  assert (Hne : forall b, AccFuncMap T b <> Some []).
  { intros b Hb. rewrite EA in Hb. destruct (G1 b) as [_ [Hn _]]. exact (H0 b (Hn Hb)). }
  assert (Htriv : forall b, isTrivialBB b T = true <-> accs_of (AccFuncMap T) b = []).
  { intros b. unfold isTrivialBB, getAccessFunctions, accs_of. specialize (Hne b).
    destruct (AccFuncMap T b) as [[|a l]|].
    - contradiction Hne. reflexivity.
    - split; discriminate.
    - split; reflexivity. }
  split; [exact Htriv|]. split; [|split].
  - intros b Hb. rewrite EA. destruct (G1 b) as [_ [_ Ho]]. apply Ho. exact Hb.
  - intros bi Hin Hm. specialize (G2 bi Hin Hm). rewrite <- EA in G2.
    destruct (isTrivialBB (fst bi) T) eqn:Et; [|reflexivity].
    apply Htriv in Et. contradiction.
  - intros scop Es stmt Hin.
    pose proof (Scop_ctor_statement_accesses A T scop Es) as H. rewrite Forall_forall in H.
    destruct (H stmt Hin) as [bb [accs [_ [Ha Hk]]]]. unfold getAccessFunctions in Ha.
    intros Hnil. rewrite Hnil in Hk. destruct accs as [|a accs]; [|discriminate Hk].
    exact (Hne bb Ha).
Qed.

(** A region of two blocks: the entry, which only branches, and the body of
    a loop with a load, a sum used outside the region, and a store. *)
Definition ex_pipe_Passes : Passes :=
  mkPasses (fun b => if BasicBlock_eqb b ex_bb then Some ex_L else None)
           (fun _ _ => scAddRecExpr [scConstant (mkAPInt 64 0); scConstant (mkAPInt 64 4)] ex_L)
           (fun _ => scUnknown ex_base) (fun a _ => a) (fun _ _ => true)
           (fun b => if BasicBlock_eqb b ex_bb
                     then Some (DTNode ex_bb (Some (DTNode ex_entry None)))
                     else Some (DTNode b None))
           (fun _ _ => false) (fun _ _ => true) (fun _ => Term_other).

Definition ex_pipe_IRInfo : IRInfo :=
  mkIRInfo (fun i => if Value_eqb (inst_value i) (inst_value ex_add)
                     then [None; Some ex_ld; Some ex_user] else [])
           (fun _ => false)
           (fun b => BasicBlock_eqb b ex_entry || BasicBlock_eqb b ex_bb)
           (scConstant (mkAPInt 64 0)).

Definition ex_pipe_blocks : list (BasicBlock * list Inst) :=
  [(ex_entry, [mkInst (mkValue 20 "" "") IK_Other ex_entry]);
   (ex_bb, [ex_ld; ex_add; ex_st; ex_br])].

Definition ex_pipe_tempScop : TempScop :=
  Eval vm_compute in
    match buildTempScop ex_loop_Analyses ex_pipe_Passes ex_pipe_IRInfo (fun _ => scUnknown ex_n)
                        (TS_MaxRegion ex_loop_tempScop) ex_pipe_blocks
                        (fun _ => None) (fun _ => None) (fun _ => None) with
    | Ret T => T
    | Abort => ex_loop_tempScop
    end.

Lemma buildTempScop_accesses_witness :
  Forall (block_of_region ex_pipe_IRInfo) ex_pipe_blocks
  /\ (forall b, (fun _ : BasicBlock => @None AccFuncSetType) b <> Some [])
  /\ buildTempScop ex_loop_Analyses ex_pipe_Passes ex_pipe_IRInfo (fun _ => scUnknown ex_n)
                   (TS_MaxRegion ex_loop_tempScop) ex_pipe_blocks
                   (fun _ => None) (fun _ => None) (fun _ => None) = Ret ex_pipe_tempScop
  /\ (forall b, isTrivialBB b ex_pipe_tempScop = true
                <-> accs_of (AccFuncMap ex_pipe_tempScop) b = [])
  /\ (forall b, Region_contains_block ex_pipe_IRInfo b = false ->
                AccFuncMap ex_pipe_tempScop b = (fun _ => None) b)
  /\ (forall bi, In bi ex_pipe_blocks -> has_memory_access (snd bi) ->
                 isTrivialBB (fst bi) ex_pipe_tempScop = false)
  /\ (forall scop, Scop_ctor ex_loop_Analyses ex_pipe_tempScop = Ret scop ->
        forall stmt, In stmt (Stmts scop) -> MemAccs stmt <> []).
Proof.
  assert (H1 : Forall (block_of_region ex_pipe_IRInfo) ex_pipe_blocks).
  { constructor; [|constructor; [|constructor]]; (split; [reflexivity|]).
    - exists [], (mkInst (mkValue 20 "" "") IK_Other ex_entry). split; [reflexivity|].
      intros i [].
    - exists [ex_ld; ex_add; ex_st], ex_br. split; [reflexivity|].
      intros i [<-|[<-|[<-|[]]]]; reflexivity. }
  assert (H2 : forall b, (fun _ : BasicBlock => @None AccFuncSetType) b <> Some [])
    by (intros b; discriminate).
  assert (H3 : buildTempScop ex_loop_Analyses ex_pipe_Passes ex_pipe_IRInfo
                 (fun _ => scUnknown ex_n) (TS_MaxRegion ex_loop_tempScop) ex_pipe_blocks
                 (fun _ => None) (fun _ => None) (fun _ => None) = Ret ex_pipe_tempScop).
  { vm_compute. reflexivity. }
  split; [exact H1|]. split; [exact H2|]. split; [exact H3|].
  exact (buildTempScop_accesses ex_loop_Analyses ex_pipe_Passes ex_pipe_IRInfo
           (fun _ => scUnknown ex_n) (TS_MaxRegion ex_loop_tempScop) ex_pipe_blocks
           (fun _ => None) (fun _ => None) (fun _ => None) ex_pipe_tempScop H1 H2 H3).
Defined.

(** On this region the two passes give one statement, for the body of the
    loop, with a read of [B], the write of the sum and a write of [B]; the
    entry block, which has no access, gives none. *)
Example buildTempScop_pipeline_example :
  exists scop,
    Scop_ctor ex_loop_Analyses ex_pipe_tempScop = Ret scop
    /\ map (fun s => (BB s, map access_key (MemAccs s))) (Stmts scop)
       = [(Some ex_bb, [(Read, ex_base, "MemRef_B"%string);
                        (Write, inst_value ex_add, "MemRef_s"%string);
                        (Write, ex_base, "MemRef_B"%string)])]
    /\ LoopBounds ex_pipe_tempScop ex_L = Some (scUnknown ex_n)
    /\ TS_MaxLoopDepth ex_pipe_tempScop = 1%nat.
Proof. eexists. vm_compute. repeat split. Qed.
